(** * A shallow embedding of the RAG backend (chunker, vector store, orchestrator)

    The JavaScript services are modelled function by function:
    - [JsString]: the string primitives the services call (code units restricted
      to the Latin-1 range, one [ascii] per UTF-16 code unit);
    - [EmbeddingService]: [cosineSimilarity] over IEEE-754 binary64 numbers;
    - [DocumentProcessor]: [chunkText], [processDocument] and helpers;
    - [VectorStore]: the store, its snapshot file and its operations, in a
      state-and-exception monad over the store, the disk and a call trace;
    - [RAGPipeline]: [isCasualConversation] and [query];
    - [OllamaService]: the decision of [healthCheck];
    - [WebScraper]: [cleanText] and the object [extractContent] returns;
    - [IndexingService]: [indexUrl], [indexUrls], [removeByUrl], the counts of
      [getStats] and [parseSitemap]. *)

From Stdlib Require Import ZArith Floats Ascii String DecimalString DecimalNat DecimalFacts.
From Stdlib Require Import Bool Lia Sorted.
From stdpp Require Import base tactics option list strings gmap.

Local Open Scope Z_scope.

(* ===================================================================== *)
(** * JavaScript strings *)
(* ===================================================================== *)

Module JsString.

(** A string is its sequence of code units.  Only code units below 256 are
    represented, which is the range on which [toLowerCase] below is the
    Unicode mapping. *)
Definition jsstr := list ascii.

Definition lit (s : string) : jsstr := list_ascii_of_string s.
Arguments lit : simpl never.

(** [s.length] *)
Definition len (s : jsstr) : Z := Z.of_nat (length s).

Definition code (c : ascii) : N := N_of_ascii c.

(** ECMAScript WhiteSpace and LineTerminator code units below 256:
    TAB, LF, VT, FF, CR, SP and NBSP.  [String.prototype.trim] and the regular
    expression class [\s] both use this set. *)
Definition isWhitespace (c : ascii) : bool :=
  let n := code c in
  ((9 <=? n) && (n <=? 13) || (n =? 32) || (n =? 160))%N.

(** [s.toLowerCase()] on Latin-1: A-Z and the letters U+00C0..U+00DE other
    than the multiplication sign U+00D7 move up by 32. *)
Definition lowerChar (c : ascii) : ascii :=
  let n := code c in
  if ((65 <=? n) && (n <=? 90) || (192 <=? n) && (n <=? 222) && negb (n =? 215))%N
  then ascii_of_N (n + 32) else c.

Definition toLowerCase (s : jsstr) : jsstr := map lowerChar s.

(** The clamping of an index argument done by [substring]. *)
Definition clamp (s : jsstr) (i : Z) : nat := Z.to_nat (Z.min (Z.max i 0) (len s)).

(** [s.substring(a, b)]: both arguments are clamped to [0, s.length] and
    swapped when [a > b]. *)
Definition substring (s : jsstr) (a b : Z) : jsstr :=
  let a' := clamp s a in
  let b' := clamp s b in
  take (Nat.max a' b' - Nat.min a' b') (drop (Nat.min a' b') s).

Fixpoint startsWith (pat s : jsstr) : bool :=
  match pat, s with
  | [], _ => true
  | _ :: _, [] => false
  | p :: pat', c :: s' => if decide (p = c) then startsWith pat' s' else false
  end.

(** Scan left to right from position [i], remembering the last position at
    which [pat] occurs. *)
Fixpoint lastIndexOfFrom (pat s : jsstr) (i acc : Z) : Z :=
  let acc' := if startsWith pat s then i else acc in
  match s with
  | [] => acc'
  | _ :: s' => lastIndexOfFrom pat s' (i + 1) acc'
  end.

(** [s.lastIndexOf(pat)], -1 when [pat] does not occur. *)
Definition lastIndexOf (s pat : jsstr) : Z := lastIndexOfFrom pat s 0 (-1).

Fixpoint indexOfFrom (pat s : jsstr) (i : Z) : Z :=
  if startsWith pat s then i
  else match s with
       | [] => -1
       | _ :: s' => indexOfFrom pat s' (i + 1)
       end.

(** [s.indexOf(pat, from)] *)
Definition indexOf (s pat : jsstr) (from : Z) : Z :=
  let from' := clamp s from in
  indexOfFrom pat (drop from' s) (Z.of_nat from').

(** [s.includes(pat)] *)
Definition includes (s pat : jsstr) : bool := negb (indexOf s pat 0 =? -1).

Fixpoint trimStart (s : jsstr) : jsstr :=
  match s with
  | c :: s' => if isWhitespace c then trimStart s' else s
  | [] => []
  end.

Definition trimEnd (s : jsstr) : jsstr := rev (trimStart (rev s)).

(** [s.trim()] *)
Definition trim (s : jsstr) : jsstr := trimEnd (trimStart s).

(** The decimal rendering of a non-negative integer inside a template
    literal. *)
Definition ofNat (n : nat) : jsstr := lit (NilZero.string_of_uint (Nat.to_uint n)).

End JsString.

Export JsString.

(* ===================================================================== *)
(** * Exceptions *)
(* ===================================================================== *)

(** The exceptions the modelled code can raise or let through. *)
Inductive error :=
| DimensionMismatch  (* Error('Vectors must have the same dimension') *)
| ENOENT             (* fs.readFile: error.code === 'ENOENT' *)
| ReadError          (* any other failure of fs.readFile *)
| ParseError         (* JSON.parse rejects the file, or yields null *)
| WriteError         (* fs.mkdir or fs.writeFile fails *)
| EmbeddingError     (* the embedding model call fails *)
| ChatError          (* the chat backend call fails *)
| TypeError.         (* property read on undefined *)

Inductive result (A : Type) :=
| Ok (a : A)
| Throw (e : error).
Arguments Ok {A} a.
Arguments Throw {A} e.

(* ===================================================================== *)
(** * embeddingService.cosineSimilarity *)
(* ===================================================================== *)

Module EmbeddingService.

Local Open Scope float_scope.

(** The body of the [for] loop, run over both arrays at once; the three
    accumulators are [dotProduct], [normA] and [normB]. *)
Fixpoint accumulate (a b : list float) (dotProduct normA normB : float)
  : float * float * float :=
  match a, b with
  | x :: a', y :: b' =>
      accumulate a' b' (dotProduct + x * y) (normA + x * x) (normB + y * y)
  | _, _ => (dotProduct, normA, normB)
  end.

Definition cosineSimilarity (a b : list float) : result float :=
  if negb (length a =? length b)%nat then Throw DimensionMismatch
  else
    let '(dotProduct, normA, normB) := accumulate a b 0 0 0 in
    if (normA =? 0) || (normB =? 0) then Ok 0
    else Ok (dotProduct / (sqrt normA * sqrt normB)).

(** The sum of squares of a vector as the loop accumulates it. *)
Definition squaredNorm (v : list float) : float :=
  fold_left (fun acc x => acc + x * x) v 0.

(** Closeness to 1 up to an absolute tolerance. *)
Definition near1 (tol x : float) : bool := abs (x - 1) <=? tol.

End EmbeddingService.

(* ===================================================================== *)
(** * DocumentProcessor *)
(* ===================================================================== *)

Module DocumentProcessor.

Record ScrapedDoc := {
  sd_title : jsstr;
  sd_content : jsstr;
  sd_url : jsstr;
  sd_scrapedAt : jsstr;
  sd_description : jsstr
}.

(** The chunk objects [processDocument] builds; the vector store keeps them
    as its documents. *)
Record Chunk := {
  id : jsstr;
  title : jsstr;
  content : jsstr;
  chunk : nat;
  totalChunks : nat;
  url : jsstr;
  category : jsstr;
  scrapedAt : jsstr;
  description : jsstr;
  contentHash : jsstr
}.

(** The two fields the constructor reads from the environment
    ([CHUNK_SIZE], default 800, and [CHUNK_OVERLAP], default 200). *)
Record Config := {
  chunkSize : Z;
  chunkOverlap : Z
}.

Definition defaultConfig : Config := {| chunkSize := 800; chunkOverlap := 200 |}.

(** [Math.max] of the four [lastIndexOf] results. *)
Definition lastSentenceEnd (chunkText : jsstr) : Z :=
  Z.max (Z.max (Z.max (lastIndexOf chunkText (lit ". "))
                      (lastIndexOf chunkText (lit "! ")))
               (lastIndexOf chunkText (lit "? ")))
        (lastIndexOf chunkText [ascii_of_nat 10]).

(** The end of the window that starts at [startIndex]: the raw boundary, or
    one past the last sentence end when the window is not the last one and
    that sentence end lies beyond half of [chunkSize]
    ([lastSentenceEnd > chunkSize * 0.5], on integers). *)
Definition windowEnd (cfg : Config) (text : jsstr) (startIndex : Z) : Z :=
  let endIndex := startIndex + chunkSize cfg in
  if endIndex <? len text then
    let lse := lastSentenceEnd (substring text startIndex endIndex) in
    if chunkSize cfg <? 2 * lse then startIndex + lse + 1 else endIndex
  else endIndex.

(** The [break] test that closes the loop body:
    [startIndex <= chunks[chunks.length - 1]?.length && chunks.length > 0].
    With no chunk the left operand compares with [undefined] and is false. *)
Definition stopsLoop (startIndex : Z) (chunks : list jsstr) : bool :=
  match last chunks with
  | Some c => startIndex <=? len c
  | None => false
  end.

(** The [while] loop of [chunkText]; [fuel] bounds the number of iterations
    and [None] means the bound was reached. *)
Fixpoint chunkLoop (fuel : nat) (cfg : Config) (text : jsstr)
    (startIndex : Z) (chunks : list jsstr) : option (list jsstr) :=
  if negb (startIndex <? len text) then Some chunks
  else
    match fuel with
    | O => None
    | S fuel' =>
        let endIndex := windowEnd cfg text startIndex in
        let chunk := trim (substring text startIndex endIndex) in
        let chunks' := if 0 <? len chunk then chunks ++ [chunk] else chunks in
        let startIndex' := endIndex - chunkOverlap cfg in
        if stopsLoop startIndex' chunks' then Some chunks'
        else chunkLoop fuel' cfg text startIndex' chunks'
    end.

Definition chunkText (fuel : nat) (cfg : Config) (text : jsstr)
  : option (list jsstr) :=
  if len text <=? chunkSize cfg then Some [text]
  else chunkLoop fuel cfg text 0 [].

Definition anyIncludes (s : jsstr) (pats : list string) : bool :=
  existsb (fun p => includes s (lit p)) pats.

Definition categorizeContent (url title content : jsstr) : jsstr :=
  let urlLower := toLowerCase url in
  let titleLower := toLowerCase title in
  let contentLower := toLowerCase (substring content 0 500) in
  if anyIncludes urlLower ["/docs"; "/documentation"]
     || anyIncludes titleLower ["documentation"; "guide"]
  then lit "documentation"
  else if anyIncludes urlLower ["/blog"; "/article"; "/post"; "/news"]
  then lit "article"
  else if anyIncludes urlLower ["/product"; "/shop"]
          || includes titleLower (lit "product")
          || includes contentLower (lit "price")
  then lit "product"
  else if includes urlLower (lit "/faq")
          || anyIncludes titleLower ["faq"; "frequently asked"]
  then lit "faq"
  else if anyIncludes urlLower ["/support"; "/help"]
          || anyIncludes titleLower ["support"; "help"]
  then lit "support"
  else lit "general".

Section Hashing.

(** [crypto.createHash('md5').update(s).digest('hex')] *)
Variable md5 : jsstr -> jsstr.

Definition generateId (url : jsstr) : jsstr := substring (md5 url) 0 12.

Definition generateHash (content : jsstr) : jsstr := md5 (trim content).

(** The object built for the chunk at position [index] of [n]. *)
Definition makeChunk (doc : ScrapedDoc) (baseId : jsstr) (n index : nat)
    (chunkContent : jsstr) : Chunk :=
  {| id := baseId ++ lit "-chunk-" ++ ofNat index;
     title := sd_title doc ++ lit " (Part " ++ ofNat (index + 1) ++ lit "/"
              ++ ofNat n ++ lit ")";
     content := chunkContent;
     chunk := index;
     totalChunks := n;
     url := sd_url doc;
     category := categorizeContent (sd_url doc) (sd_title doc) (sd_content doc);
     scrapedAt := sd_scrapedAt doc;
     description := if (index =? 0)%nat then sd_description doc else [];
     contentHash := generateHash chunkContent |}.

(** [processDocument]; [None] only when [chunkText] ran out of fuel. *)
Definition processDocument (fuel : nat) (cfg : Config) (doc : ScrapedDoc)
  : option (list Chunk) :=
  if len (sd_content doc) <? 50 then Some []
  else
    let baseId := generateId (sd_url doc) in
    chunks ← chunkText fuel cfg (sd_content doc);
    Some (imap (makeChunk doc baseId (length chunks)) chunks).

(** [processMultiple]: the chunks of every document, appended in order;
    [None] when one of the calls ran out of fuel. *)
Definition processMultiple (fuel : nat) (cfg : Config) (scrapedDocs : list ScrapedDoc)
  : option (list Chunk) :=
  fold_left (fun acc doc =>
               allChunks ← acc;
               chunks ← processDocument fuel cfg doc;
               Some (allChunks ++ chunks))
            scrapedDocs (Some []).

End Hashing.

(** The loop of [deduplicateChunks]; [seen] holds the hashes met so far. *)
Fixpoint dedupLoop (seen : gset jsstr) (chunks : list Chunk) : list Chunk :=
  match chunks with
  | [] => []
  | chunk :: rest =>
      if decide (contentHash chunk ∈ seen) then dedupLoop seen rest
      else chunk :: dedupLoop ({[contentHash chunk]} ∪ seen) rest
  end.

Definition deduplicateChunks (chunks : list Chunk) : list Chunk := dedupLoop ∅ chunks.

End DocumentProcessor.

(* ===================================================================== *)
(** * VectorStore *)
(* ===================================================================== *)

Module VectorStore.

Import DocumentProcessor.

(** The fields of the singleton ([storePath] is fixed at construction). *)
Record Store := {
  documents : list Chunk;
  embeddings : list (list float);
  isIndexed : bool;
  initialized : bool
}.

(** [new VectorStore()] *)
Definition emptyStore : Store :=
  {| documents := []; embeddings := []; isIndexed := false; initialized := false |}.

(** What [JSON.parse] yields for a snapshot file, reduced to the three keys
    [load] reads back; a key may be missing ([savedAt] and [version] are
    written by [save] and only logged by [load]). *)
Record Snapshot := {
  snap_documents : option (list Chunk);
  snap_embeddings : option (list (list float));
  snap_isIndexed : option bool
}.

(** The file at [storePath] as [load] meets it. *)
Inductive File :=
| Absent                  (* readFile fails with ENOENT *)
| Unreadable              (* readFile fails otherwise *)
| Unparsable              (* JSON.parse throws, or the top-level value is null *)
| Parsed (data : Snapshot).

Record Disk := {
  file : File;
  writable : bool         (* whether mkdir and writeFile succeed *)
}.

(** Calls that leave the process. *)
Inductive event :=
| ReadFile
| WriteFile
| Embed (text : jsstr)
| HealthCheck
| Chat (prompt : list (jsstr * jsstr)).

Record World := {
  store : Store;
  disk : Disk;
  trace : list event
}.

(** State and exceptions: a computation maps a world to a result and the
    world it leaves behind; a thrown exception keeps the effects made before
    it. *)
Definition M (A : Type) : Type := World -> result A * World.

Definition ret {A} (a : A) : M A := fun w => (Ok a, w).

Definition bind {A B} (m : M A) (k : A -> M B) : M B :=
  fun w => match m w with
           | (Ok a, w') => k a w'
           | (Throw e, w') => (Throw e, w')
           end.

Definition throw {A} (e : error) : M A := fun w => (Throw e, w).

(** [try { body } catch (error) { handler(error) }] *)
Definition tryCatch {A} (body : M A) (handler : error -> M A) : M A :=
  fun w => match body w with
           | (Ok a, w') => (Ok a, w')
           | (Throw e, w') => handler e w'
           end.

Definition liftResult {A} (r : result A) : M A := fun w => (r, w).

Notation "x <- m ;; k" := (bind m (fun x => k))
  (at level 100, m at next level, right associativity).
Notation "m ;;; k" := (bind m (fun _ => k))
  (at level 100, right associativity).

Definition getStore : M Store := fun w => (Ok (store w), w).

Definition setStore (s : Store) : M unit :=
  fun w => (Ok tt, {| store := s; disk := disk w; trace := trace w |}).

Definition emit (e : event) : M unit :=
  fun w => (Ok tt, {| store := store w; disk := disk w; trace := trace w ++ [e] |}).

(** [JSON.parse(await fs.readFile(storePath, 'utf-8'))] *)
Definition readSnapshot : M Snapshot :=
  emit ReadFile ;;;
  fun w => match file (disk w) with
           | Absent => (Throw ENOENT, w)
           | Unreadable => (Throw ReadError, w)
           | Unparsable => (Throw ParseError, w)
           | Parsed data => (Ok data, w)
           end.

(** [fs.mkdir] then [fs.writeFile(storePath, JSON.stringify(data))] *)
Definition writeSnapshot (data : Snapshot) : M unit :=
  emit WriteFile ;;;
  fun w => if writable (disk w)
           then (Ok tt, {| store := store w;
                           disk := {| file := Parsed data;
                                      writable := writable (disk w) |};
                           trace := trace w |})
           else (Throw WriteError, w).

(** [save]: the [catch] logs and rethrows. *)
Definition save : M unit :=
  s <- getStore ;;
  writeSnapshot {| snap_documents := Some (documents s);
                   snap_embeddings := Some (embeddings s);
                   snap_isIndexed := Some (isIndexed s) |}.

(** The fields [load] assigns, [data.documents || []] and so on. *)
Definition installSnapshot (data : Snapshot) (s : Store) : Store :=
  {| documents := default [] (snap_documents data);
     embeddings := default [] (snap_embeddings data);
     isIndexed := default false (snap_isIndexed data);
     initialized := initialized s |}.

(** [load]: the [catch] logs (differently for ENOENT) and rethrows every
    error. *)
Definition load : M unit :=
  data <- readSnapshot ;;
  s <- getStore ;;
  setStore (installSnapshot data s).

Definition markInitialized (s : Store) : Store :=
  {| documents := documents s; embeddings := embeddings s;
     isIndexed := isIndexed s; initialized := true |}.

Definition setInitialized : M unit :=
  s <- getStore ;; setStore (markInitialized s).

Definition initialize : M unit :=
  s <- getStore ;;
  if initialized s then ret tt
  else tryCatch (load ;;; setInitialized) (fun _ => setInitialized).

(** [getStats().totalDocuments] and the number of stored embeddings. *)
Definition totalDocuments (s : Store) : nat := length (documents s).
Definition totalEmbeddings (s : Store) : nat := length (embeddings s).

(** [new Set(this.documents.map(d => d.id))] *)
Definition existingIds (s : Store) : gset jsstr := list_to_set (map id (documents s)).

(** [documents.filter(doc => !existingIds.has(doc.id))] *)
Definition newDocsOf (s : Store) (docs : list Chunk) : list Chunk :=
  filter (fun doc => id doc ∉ existingIds s) docs.

(** The template literal [`${doc.title}. ${doc.content}`]. *)
Definition textToEmbed (doc : Chunk) : jsstr := title doc ++ lit ". " ++ content doc.

Definition pushPair (doc : Chunk) (embedding : list float) : M unit :=
  s <- getStore ;;
  setStore {| documents := documents s ++ [doc];
              embeddings := embeddings s ++ [embedding];
              isIndexed := isIndexed s; initialized := initialized s |}.

Definition setIsIndexed (b : bool) : M unit :=
  s <- getStore ;;
  setStore {| documents := documents s; embeddings := embeddings s;
              isIndexed := b; initialized := initialized s |}.

(** An entry of the [scores] array. *)
Record Scored := { index : nat; score : float }.

(** The comparator [(a, b) => b.score - a.score]. *)
Definition compareScores (a b : Scored) : float := (score b - score a)%float.

(** [a] sorts after [b] when the comparator is positive; a NaN result counts
    as zero. *)
Definition sortsAfter (a b : Scored) : bool := (0 <? compareScores a b)%float.

Fixpoint insertSorted (x : Scored) (l : list Scored) : list Scored :=
  match l with
  | [] => [x]
  | y :: l' => if sortsAfter x y then y :: insertSorted x l' else x :: l
  end.

(** [Array.prototype.sort] with the comparator above.  The sort is stable
    and, for a comparator that orders the elements consistently, its result
    is determined; it is computed here by insertion, each element going
    before the later elements it does not sort after. *)
Definition sortScores (l : list Scored) : list Scored := foldr insertSorted [] l.

(** [arr.slice(0, end)] for an integer [end]: a negative [end] counts from
    the end of the array. *)
Definition sliceTo {A} (l : list A) (e : Z) : list A :=
  let n := Z.of_nat (length l) in
  take (Z.to_nat (if e <? 0 then Z.max (n + e) 0 else Z.min e n)) l.

(** [this.embeddings.map((embedding, index) => ...)]: the first dimension
    mismatch aborts the map. *)
Fixpoint scoreAll (queryEmbedding : list float) (i : nat)
    (embs : list (list float)) : result (list Scored) :=
  match embs with
  | [] => Ok []
  | e :: rest =>
      match EmbeddingService.cosineSimilarity queryEmbedding e with
      | Throw err => Throw err
      | Ok sc =>
          match scoreAll queryEmbedding (S i) rest with
          | Throw err => Throw err
          | Ok l => Ok ({| index := i; score := sc |} :: l)
          end
      end
  end.

(** A search result; [document] is [undefined] when the index has no
    document. *)
Record Hit := { document : option Chunk; hitScore : float }.

Definition toHit (s : Store) (r : Scored) : Hit :=
  {| document := documents s !! index r; hitScore := score r |}.

(** [this.documents.findIndex(doc => doc.id === id)] *)
Definition findIndex (docId : jsstr) (docs : list Chunk) : option nat :=
  fst <$> list_find (fun doc => id doc = docId) docs.

(** The two [splice(index, 1)] calls. *)
Definition splicePair (i : nat) (s : Store) : Store :=
  {| documents := delete i (documents s);
     embeddings := delete i (embeddings s);
     isIndexed := isIndexed s; initialized := initialized s |}.

Definition removeDocument (docId : jsstr) : M bool :=
  s <- getStore ;;
  match findIndex docId (documents s) with
  | None => ret false
  | Some i => setStore (splicePair i s) ;;; save ;;; ret true
  end.

Definition clear : M unit :=
  s <- getStore ;;
  setStore {| documents := []; embeddings := []; isIndexed := false;
              initialized := initialized s |} ;;;
  save.

Definition getAllDocuments : M (list Chunk) := s <- getStore ;; ret (documents s).

(** The object [getStats] returns, without the constant [storePath]. *)
Record Stats := {
  stats_totalDocuments : nat;
  stats_isIndexed : bool;
  embeddingDimension : nat
}.

Definition getStats : M Stats :=
  s <- getStore ;;
  ret {| stats_totalDocuments := length (documents s);
         stats_isIndexed := isIndexed s;
         embeddingDimension := match embeddings s with
                               | first :: _ => length first
                               | [] => 0
                               end |}.

Section WithEmbeddingModel.

(** The embedding model, a function of the text: [Array.from(output.data)],
    or an exception. *)
Variable embed : jsstr -> result (list float).

(** [embeddingService.generateEmbedding(text)] *)
Definition generateEmbedding (text : jsstr) : M (list float) :=
  emit (Embed text) ;;; liftResult (embed text).

(** [embeddingService.generateEmbeddings(texts)]: one call per text, in
    order; the first failure ends the loop. *)
Fixpoint generateEmbeddings (texts : list jsstr) : M (list (list float)) :=
  match texts with
  | [] => ret []
  | text :: rest =>
      embedding <- generateEmbedding text ;;
      embeddings <- generateEmbeddings rest ;;
      ret (embedding :: embeddings)
  end.

(** The [for] loop over [newDocs]. *)
Fixpoint indexLoop (newDocs : list Chunk) : M unit :=
  match newDocs with
  | [] => ret tt
  | doc :: rest =>
      embedding <- generateEmbedding (textToEmbed doc) ;;
      pushPair doc embedding ;;;
      indexLoop rest
  end.

Definition indexDocuments (docs : list Chunk) : M unit :=
  initialize ;;;
  s <- getStore ;;
  let newDocs := newDocsOf s docs in
  if (length newDocs =? 0)%nat then ret tt
  else indexLoop newDocs ;;; setIsIndexed true ;;; save.

Definition search (query : jsstr) (topK : Z) : M (list Hit) :=
  initialize ;;;
  s <- getStore ;;
  if negb (isIndexed s) || (length (documents s) =? 0)%nat then ret []
  else
    queryEmbedding <- generateEmbedding query ;;
    scores <- liftResult (scoreAll queryEmbedding 0 (embeddings s)) ;;
    let topResults := sliceTo (sortScores scores) topK in
    ret (map (toHit s) topResults).

End WithEmbeddingModel.

End VectorStore.

(* ===================================================================== *)
(** * Regular expressions of the casual-conversation patterns *)
(* ===================================================================== *)

Module Regex.

(** The constructs the six patterns use: literal characters, [\s],
    concatenation, alternation and repetition ([?] and [+] are derived). *)
Inductive regex :=
| Never
| Eps
| Chr (c : ascii)
| Space
| Seq (r1 r2 : regex)
| Alt (r1 r2 : regex)
| Star (r : regex).

Definition Opt (r : regex) : regex := Alt r Eps.
Definition Plus (r : regex) : regex := Seq r (Star r).

Fixpoint word (s : jsstr) : regex :=
  match s with
  | [] => Eps
  | c :: s' => Seq (Chr c) (word s')
  end.

Definition w (s : string) : regex := word (lit s).

Fixpoint alts (rs : list regex) : regex :=
  match rs with
  | [] => Never
  | [r] => r
  | r :: rs' => Alt r (alts rs')
  end.

Fixpoint seqs (rs : list regex) : regex :=
  match rs with
  | [] => Eps
  | [r] => r
  | r :: rs' => Seq r (seqs rs')
  end.

(** Canonicalize of the [i] flag (without the [u] flag): the code unit of the
    upper-case form, unless that form is longer than one code unit. *)
Definition canonicalize (c : ascii) : N :=
  let n := code c in
  (if (97 <=? n) && (n <=? 122) then n - 32
   else if n =? 181 then 924
   else if (224 <=? n) && (n <=? 254) && negb (n =? 247) then n - 32
   else if n =? 255 then 376
   else n)%N.

Definition chrMatches (c x : ascii) : bool := (canonicalize x =? canonicalize c)%N.

(** The strings a pattern matches, case-insensitively. *)
Inductive matches : regex -> jsstr -> Prop :=
| m_eps : matches Eps []
| m_chr c x : chrMatches c x = true -> matches (Chr c) [x]
| m_space x : isWhitespace x = true -> matches Space [x]
| m_seq r1 r2 s1 s2 :
    matches r1 s1 -> matches r2 s2 -> matches (Seq r1 r2) (s1 ++ s2)
| m_alt_l r1 r2 s : matches r1 s -> matches (Alt r1 r2) s
| m_alt_r r1 r2 s : matches r2 s -> matches (Alt r1 r2) s
| m_star_nil r : matches (Star r) []
| m_star_app r s1 s2 :
    matches r s1 -> matches (Star r) s2 -> matches (Star r) (s1 ++ s2).

Fixpoint nullable (r : regex) : bool :=
  match r with
  | Never | Chr _ | Space => false
  | Eps | Star _ => true
  | Seq r1 r2 => nullable r1 && nullable r2
  | Alt r1 r2 => nullable r1 || nullable r2
  end.

(** What is left of [r] after reading [x]. *)
Fixpoint deriv (x : ascii) (r : regex) : regex :=
  match r with
  | Never | Eps => Never
  | Chr c => if chrMatches c x then Eps else Never
  | Space => if isWhitespace x then Eps else Never
  | Seq r1 r2 =>
      if nullable r1 then Alt (Seq (deriv x r1) r2) (deriv x r2)
      else Seq (deriv x r1) r2
  | Alt r1 r2 => Alt (deriv x r1) (deriv x r2)
  | Star r1 => Seq (deriv x r1) (Star r1)
  end.

(** [/^r/i.test(s)]: some prefix of [s] matches [r]. *)
Fixpoint test (r : regex) (s : jsstr) : bool :=
  nullable r ||
  match s with
  | [] => false
  | x :: s' => test (deriv x r) s'
  end.

End Regex.

(* ===================================================================== *)
(** * RAGPipeline *)
(* ===================================================================== *)

Module RAGPipeline.

Import DocumentProcessor VectorStore Regex.

Definition nl : jsstr := [ascii_of_nat 10].

Definition sp : regex := Plus Space.

(** The six patterns; the anchor [^] and the flag [i] are in [Regex.test]. *)
Definition casualPatterns : list regex :=
  [ alts [w "hi"; w "hello"; w "hey"; w "sup"; w "yo";
          Seq (w "greeting") (Opt (w "s"));
          seqs [w "good"; sp; alts [w "morning"; w "afternoon"; w "evening"; w "day"]]];
    alts [seqs [w "how"; sp; w "are"; sp; w "you"];
          seqs [w "what"; Opt (w "'"); w "s"; sp; w "up"];
          seqs [w "how"; Opt (w "'"); w "s"; sp; w "it"; sp; w "going"]];
    alts [Seq (w "thank") (Opt (w "s")); seqs [w "thank"; sp; w "you"];
          w "thx"; w "cheers"];
    alts [w "bye"; w "goodbye"; seqs [w "see"; sp; w "ya"]; w "later"; w "cya"];
    alts [w "ok"; w "okay"; w "cool"; w "nice"; w "great"; w "awesome"; w "sure"];
    alts [seqs [w "who"; sp; w "are"; sp; w "you"];
          seqs [w "what"; sp; w "are"; sp; w "you"];
          seqs [w "introduce"; sp; w "yourself"]] ].

Definition isCasualConversation (query : jsstr) : bool :=
  let trimmedQuery := toLowerCase (trim query) in
  existsb (fun pattern => test pattern trimmedQuery) casualPatterns.

(** The chat backend: the outcome of its health check, its completion
    function and its configured model name. *)
Record Ollama := {
  available : bool;
  chat : list (jsstr * jsstr) -> result jsstr;
  modelName : jsstr
}.

Definition healthCheck (o : Ollama) : M bool :=
  emit HealthCheck ;;; ret (available o).

Definition chatCall (o : Ollama) (messages : list (jsstr * jsstr)) : M jsstr :=
  emit (Chat messages) ;;; liftResult (chat o messages).

(** [ollamaService.generate(prompt)] *)
Definition generate (o : Ollama) (prompt : jsstr) : M jsstr :=
  chatCall o [(lit "user", prompt)].

(** A retrieved document with its score, once [item.document] was read. *)
Record Retrieved := { doc : Chunk; rscore : float }.

(** [parts.join(sep)] *)
Fixpoint join (sep : jsstr) (parts : list jsstr) : jsstr :=
  match parts with
  | [] => []
  | [p] => p
  | p :: rest => p ++ sep ++ join sep rest
  end.

Definition contextText (context : list Retrieved) : jsstr :=
  join (nl ++ nl)
    (imap (fun i item => lit "[Document " ++ ofNat (i + 1) ++ lit ": "
                         ++ title (doc item) ++ lit "]" ++ nl ++ content (doc item))
          context).

Definition systemPrompt : jsstr :=
  lit "You are a helpful assistant that answers questions based on the provided context. "
  ++ nl ++ lit "Use the information from the context to provide accurate and helpful answers."
  ++ nl ++ lit "If the context doesn't contain relevant information to answer the question, say so politely."
  ++ nl ++ lit "Always be concise and direct in your responses.".

Definition userPrompt (query : jsstr) (context : list Retrieved) : jsstr :=
  lit "Context:" ++ nl ++ contextText context ++ nl ++ nl ++ lit "---" ++ nl ++ nl
  ++ lit "Question: " ++ query ++ nl ++ nl
  ++ lit "Please provide a helpful answer based on the context above.".

(** The two messages [generateWithContext] sends. *)
Definition ragMessages (query : jsstr) (context : list Retrieved)
  : list (jsstr * jsstr) :=
  [(lit "system", systemPrompt); (lit "user", userPrompt query context)].

(** [ollamaService.generateWithContext(query, context)] *)
Definition generateWithContext (o : Ollama) (query : jsstr)
    (context : list Retrieved) : M jsstr :=
  chatCall o (ragMessages query context).

Definition noInformation : jsstr :=
  lit "I couldn't find any relevant information to answer your question.".

(** The excerpt [generateFallbackResponse] builds from the top document. *)
Definition excerpt (topDoc : Chunk) : jsstr :=
  lit "Based on the available information:" ++ nl ++ nl
  ++ lit "**" ++ title topDoc ++ lit "**" ++ nl ++ nl
  ++ content topDoc ++ nl ++ nl
  ++ lit "*Note: This is a direct excerpt from our knowledge base. For a more detailed response, please ensure Ollama is running with the DeepSeek-R1 model.*".

Definition generateFallbackResponse (query : jsstr) (retrievedDocs : list Retrieved)
  : jsstr :=
  match retrievedDocs with
  | [] => noInformation
  | top :: _ => excerpt (doc top)
  end.

(** The value of the [thinking] field. *)
Inductive Thinking :=
| Undefined
| Null
| Thought (text : jsstr).

Record Source := {
  src_id : jsstr;
  src_title : jsstr;
  src_category : jsstr;
  src_url : jsstr;
  relevanceScore : float
}.

Record Metadata := {
  generationMethod : jsstr;
  documentsRetrieved : nat;
  model : jsstr;
  queryType : jsstr
}.

Record Response := {
  answer : jsstr;
  thinking : Thinking;
  sources : list Source;
  metadata : Metadata
}.

Record Options := {
  topK : option Z;
  includeThinking : bool
}.

Definition defaultTopK : Z := 3.

(** [options.topK || this.defaultTopK]: a missing or zero [topK] gives the
    default. *)
Definition effectiveTopK (options : Options) : Z :=
  match topK options with
  | Some k => if k =? 0 then defaultTopK else k
  | None => defaultTopK
  end.

(** The threshold of [doc.score > 0.3], the binary64 number nearest 0.3. *)
Definition relevanceThreshold : float := 0x1.3333333333333p-2%float.

Definition isRelevant (item : Retrieved) : bool :=
  (relevanceThreshold <? rscore item)%float.

Definition relevantDocs (retrievedDocs : list Retrieved) : list Retrieved :=
  List.filter isRelevant retrievedDocs.

(** The first [forEach] reads [item.document.title] of every result, which
    throws on an [undefined] document. *)
Fixpoint readDocuments (hits : list Hit) : result (list Retrieved) :=
  match hits with
  | [] => Ok []
  | h :: rest =>
      match document h with
      | None => Throw TypeError
      | Some d =>
          match readDocuments rest with
          | Throw e => Throw e
          | Ok l => Ok ({| doc := d; rscore := hitScore h |} :: l)
          end
      end
  end.

Definition openTag : jsstr := lit "<think>".
Definition closeTag : jsstr := lit "</think>".

(** [response.match(/<think>([\s\S]*?)<\/think>/)]: the first opening tag
    and the first closing tag after it; the result is the text before the
    match, the captured group and the text after the match. *)
Definition thinkMatch (response : jsstr) : option (jsstr * jsstr * jsstr) :=
  let i := indexOf response openTag 0 in
  if i =? -1 then None
  else
    let j := indexOf response closeTag (i + len openTag) in
    if j =? -1 then None
    else Some (substring response 0 i,
               substring response (i + len openTag) j,
               substring response (j + len closeTag) (len response)).

(** The post-processing of the raw response: the pair of [thinking] and
    [cleanResponse]. *)
Definition parseThinking (response : jsstr) : Thinking * jsstr :=
  if includes response openTag && includes response closeTag then
    match thinkMatch response with
    | Some (before, inner, after) => (Thought (trim inner), trim (before ++ after))
    | None => (Null, response)
    end
  else (Null, response).

Definition toSource (item : Retrieved) : Source :=
  {| src_id := id (doc item);
     src_title := title (doc item);
     src_category := category (doc item);
     src_url := url (doc item);
     relevanceScore := rscore item |}.

(** The object returned for a casual query answered by the backend. *)
Definition casualResponse (o : Ollama) (response : jsstr) : Response :=
  {| answer := response;
     thinking := Undefined;
     sources := [];
     metadata := {| generationMethod := lit "direct-llm";
                    documentsRetrieved := 0;
                    model := modelName o;
                    queryType := lit "casual" |} |}.

(** The object returned on the knowledge path. *)
Definition respond (o : Ollama) (options : Options) (isCasual : bool)
    (response generationMethod : jsstr) (usedDocs : list Retrieved) : Response :=
  let '(thinking, cleanResponse) := parseThinking response in
  {| answer := cleanResponse;
     thinking := if includeThinking options then thinking else Undefined;
     sources := map toSource usedDocs;
     metadata := {| generationMethod := generationMethod;
                    documentsRetrieved := length usedDocs;
                    model := modelName o;
                    queryType := if isCasual then lit "casual"
                                 else lit "knowledge" |} |}.

Section WithEmbeddingModel.

Variable embed : jsstr -> result (list float).

Definition query (o : Ollama) (q : jsstr) (options : Options) : M Response :=
  let topK := effectiveTopK options in
  ollamaAvailable <- healthCheck o ;;
  let isCasual := isCasualConversation q in
  if isCasual && ollamaAvailable then
    response <- generate o q ;;
    ret (casualResponse o response)
  else
    hits <- search embed q topK ;;
    retrievedDocs <- liftResult (readDocuments hits) ;;
    let relevant := relevantDocs retrievedDocs in
    if (length relevant =? 0)%nat && ollamaAvailable then
      response <- generate o q ;;
      ret (respond o options isCasual response (lit "direct-llm") [])
    else if ollamaAvailable then
      response <- generateWithContext o q relevant ;;
      ret (respond o options isCasual response (lit "rag") relevant)
    else
      ret (respond o options isCasual (generateFallbackResponse q retrievedDocs)
                   (lit "fallback") retrievedDocs).

End WithEmbeddingModel.

End RAGPipeline.

(* ===================================================================== *)
(** * OllamaService.healthCheck *)
(* ===================================================================== *)

Module OllamaService.

(** An entry of the [models] array of [/api/tags]. *)
Record ModelTag := { tag_name : jsstr; tag_model : jsstr }.

(** What [fetch] of [/api/tags] gives when it does not throw: a response
    that is not ok, or the parsed body with its [models] key, which may be
    missing. *)
Inductive TagsResponse :=
| NotOk
| Tags (models : option (list ModelTag)).

(** [model.split(':')[0]] *)
Fixpoint beforeColon (s : jsstr) : jsstr :=
  match s with
  | [] => []
  | c :: s' => if decide (c = ":"%char) then [] else c :: beforeColon s'
  end.

(** The predicate of [models.some(...)]. *)
Definition matchesModel (configured : jsstr) (m : ModelTag) : bool :=
  bool_decide (tag_name m = configured)
  || bool_decide (tag_model m = configured)
  || includes (tag_name m) (beforeColon configured).

Definition modelExists (configured : jsstr) (models : list ModelTag) : bool :=
  existsb (matchesModel configured) models.

(** [healthCheck]: every exception of the fetch or of reading the body is
    caught and gives [false]. *)
Definition healthCheck (configured : jsstr) (response : result TagsResponse) : bool :=
  match response with
  | Throw _ => false
  | Ok NotOk => false
  | Ok (Tags models) => modelExists configured (default [] models)
  end.

End OllamaService.

(* ===================================================================== *)
(** * WebScraper.cleanText *)
(* ===================================================================== *)

Module WebScraper.

Definition isLineFeed (c : ascii) : bool := (code c =? 10)%N.

(** [text.replace(/\s+/g, ' ')]: every maximal run of whitespace becomes one
    space; [inRun] tells that the previous character was whitespace. *)
Fixpoint collapseWhitespace (inRun : bool) (s : jsstr) : jsstr :=
  match s with
  | [] => []
  | c :: s' =>
      if isWhitespace c
      then if inRun then collapseWhitespace true s'
           else " "%char :: collapseWhitespace true s'
      else c :: collapseWhitespace false s'
  end.

(** For the text [s] that follows a line feed, the match of [\s*\n]: greedy,
    so it ends at the last line feed of the whitespace [s] begins with.  The
    result is what follows the match. *)
Fixpoint afterLastLineFeed (s : jsstr) : option jsstr :=
  match s with
  | [] => None
  | c :: s' =>
      if isWhitespace c then
        match afterLastLineFeed s' with
        | Some rest => Some rest
        | None => if isLineFeed c then Some s' else None
        end
      else None
  end.

(** [text.replace(/\n\s*\n/g, '\n')], scanning from the left; [skip] counts
    the characters still covered by the last match. *)
Fixpoint squeezeBlankLines (skip : nat) (s : jsstr) : jsstr :=
  match s with
  | [] => []
  | c :: s' =>
      match skip with
      | S k => squeezeBlankLines k s'
      | O =>
          if isLineFeed c then
            match afterLastLineFeed s' with
            | Some rest => c :: squeezeBlankLines (length s' - length rest) s'
            | None => c :: squeezeBlankLines 0 s'
            end
          else c :: squeezeBlankLines 0 s'
      end
  end.

Definition cleanText (text : jsstr) : jsstr :=
  trim (squeezeBlankLines 0 (collapseWhitespace false text)).


End WebScraper.

(* ===================================================================== *)
(** * IndexingService *)
(* ===================================================================== *)

Module IndexingService.

Import DocumentProcessor VectorStore.

(** The object [indexUrl] returns. *)
Record UrlResult := {
  success : bool;
  chunks : nat;
  errors : list jsstr
}.

(** The object [indexUrls] returns; an entry of [errors] is a URL with the
    errors reported for it. *)
Record BulkResult := {
  successful : nat;
  failed : nat;
  bulk_totalChunks : nat;
  bulk_errors : list (jsstr * list jsstr)
}.

Record Progress := {
  status : jsstr;
  totalUrls : nat;
  processedUrls : nat;
  progress_totalChunks : nat;
  progress_errors : list (jsstr * list jsstr)
}.

(** The fields of the service, and the number of pages requested so far
    (what a page holds may change from one request to the next). *)
Record Indexer := {
  isIndexing : bool;
  currentProgress : Progress;
  requests : nat
}.

(** [new IndexingService()] *)
Definition idle : Indexer :=
  {| isIndexing := false;
     currentProgress := {| status := lit "idle"; totalUrls := 0; processedUrls := 0;
                           progress_totalChunks := 0; progress_errors := [] |};
     requests := 0 |}.

(** How [indexUrls] ends: with its result, or with
    [Error('Indexing already in progress')]. *)
Inductive BulkOutcome :=
| Finished (results : BulkResult)
| AlreadyIndexing.

Definition noContent : jsstr := lit "No content extracted from URL".

Section WithServices.

Variable md5 : jsstr -> jsstr.
Variable embed : jsstr -> result (list float).

(** [webScraper.scrape(url)] as the [n]-th request: a scraped document or an
    exception. *)
Variable scrape : nat -> jsstr -> result ScrapedDoc.

(** [error.message] *)
Variable message : error -> jsstr.

Variable cfg : Config.

(** [indexUrl]: the [catch] turns every exception into a report.  [None]
    only when the chunking ran out of fuel. *)
Definition indexUrl (fuel : nat) (url : jsstr) (ix : Indexer) (w : World)
  : option (UrlResult * Indexer * World) :=
  let ix' := {| isIndexing := isIndexing ix;
                currentProgress := currentProgress ix;
                requests := S (requests ix) |} in
  match scrape (requests ix) url with
  | Throw e =>
      Some ({| success := false; chunks := 0; errors := [message e] |}, ix', w)
  | Ok scrapedDoc =>
      match processDocument md5 fuel cfg scrapedDoc with
      | None => None
      | Some docChunks =>
          if (length docChunks =? 0)%nat
          then Some ({| success := false; chunks := 0; errors := [noContent] |}, ix', w)
          else
            match indexDocuments embed docChunks w with
            | (Ok _, w') =>
                Some ({| success := true; chunks := length docChunks; errors := [] |},
                      ix', w')
            | (Throw e, w') =>
                Some ({| success := false; chunks := 0; errors := [message e] |},
                      ix', w')
            end
      end
  end.

(** The tally of one URL in the loop of [indexUrls]. *)
Definition tally (url : jsstr) (result : UrlResult) (results : BulkResult)
  : BulkResult :=
  if success result
  then {| successful := S (successful results);
          failed := failed results;
          bulk_totalChunks := bulk_totalChunks results + chunks result;
          bulk_errors := bulk_errors results |}
  else {| successful := successful results;
          failed := S (failed results);
          bulk_totalChunks := bulk_totalChunks results;
          bulk_errors := bulk_errors results ++ [(url, errors result)] |}.

(** The two assignments to [currentProgress] that end the loop body. *)
Definition advance (results : BulkResult) (ix : Indexer) : Indexer :=
  {| isIndexing := isIndexing ix;
     currentProgress :=
       {| status := status (currentProgress ix);
          totalUrls := totalUrls (currentProgress ix);
          processedUrls := S (processedUrls (currentProgress ix));
          progress_totalChunks := bulk_totalChunks results;
          progress_errors := progress_errors (currentProgress ix) |};
     requests := requests ix |}.

(** The [for] loop of [indexUrls].  Its inner [catch] cannot be entered,
    since [indexUrl] returns a report for every exception. *)
Fixpoint bulkLoop (fuel : nat) (urls : list jsstr) (results : BulkResult)
    (ix : Indexer) (w : World) : option (BulkResult * Indexer * World) :=
  match urls with
  | [] => Some (results, ix, w)
  | url :: rest =>
      match indexUrl fuel url ix w with
      | None => None
      | Some (result, ix1, w1) =>
          let results' := tally url result results in
          bulkLoop fuel rest results' (advance results' ix1) w1
      end
  end.

Definition indexUrls (fuel : nat) (urls : list jsstr) (ix : Indexer) (w : World)
  : option (BulkOutcome * Indexer * World) :=
  if isIndexing ix then Some (AlreadyIndexing, ix, w)
  else
    let started :=
      {| isIndexing := true;
         currentProgress := {| status := lit "running"; totalUrls := length urls;
                               processedUrls := 0; progress_totalChunks := 0;
                               progress_errors := [] |};
         requests := requests ix |} in
    let empty := {| successful := 0; failed := 0; bulk_totalChunks := 0;
                    bulk_errors := [] |} in
    match bulkLoop fuel urls empty started w with
    | None => None
    | Some (results, ix1, w1) =>
        Some (Finished results,
              {| isIndexing := false;
                 currentProgress :=
                   {| status := lit "completed";
                      totalUrls := totalUrls (currentProgress ix1);
                      processedUrls := processedUrls (currentProgress ix1);
                      progress_totalChunks := progress_totalChunks (currentProgress ix1);
                      progress_errors := bulk_errors results |};
                 requests := requests ix1 |},
              w1)
    end.

End WithServices.

(** The part of [removeDocument] that runs before its first [await]: the
    search for the id and the two splices. *)
Definition spliceDocument (docId : jsstr) : M unit :=
  s <- getStore ;;
  match findIndex docId (documents s) with
  | None => ret tt
  | Some i => setStore (splicePair i s)
  end.

Fixpoint spliceAll (toRemove : list Chunk) : M unit :=
  match toRemove with
  | [] => ret tt
  | doc :: rest => spliceDocument (id doc) ;;; spliceAll rest
  end.

(** [removeByUrl], up to its return.  It calls [removeDocument] for every
    chunk of the URL without awaiting it, so each call has done its splices
    when the next one starts, and the writes of the snapshot are still
    pending when the count is returned. *)
Definition removeByUrl (u : jsstr) : M nat :=
  s <- getStore ;;
  let toRemove := filter (fun doc => url doc = u) (documents s) in
  spliceAll toRemove ;;; ret (length toRemove).

(** The names of the properties of [Object.prototype], which every plain
    object inherits. *)
Definition objectPrototypeNames : list jsstr :=
  map lit ["constructor"; "hasOwnProperty"; "isPrototypeOf";
           "propertyIsEnumerable"; "toLocaleString"; "toString"; "valueOf";
           "__defineGetter__"; "__defineSetter__"; "__lookupGetter__";
           "__lookupSetter__"; "__proto__"].

(** What a property of the plain object [byCategory] holds: a count, or,
    under a name of [Object.prototype], a string (the text of the inherited
    value followed by a [1] for each document counted). *)
Inductive Entry :=
| Count (n : nat)
| NotACount.

Definition countOf (e : Entry) : nat :=
  match e with Count n => n | NotACount => 0%nat end.

(** [byCategory[doc.category] = (byCategory[doc.category] || 0) + 1].  The
    read finds the object's own property or else the inherited one, which is
    a function or an object: it is truthy, and [+ 1] turns it into a string.
    The write creates an own property, except under [__proto__], whose
    inherited setter ignores a string. *)
Definition countCategory (byCategory : gmap jsstr Entry) (doc : Chunk)
  : gmap jsstr Entry :=
  let key := category doc in
  match byCategory !! key with
  | Some (Count n) => <[key := Count (n + 1)]> byCategory
  | Some NotACount => <[key := NotACount]> byCategory
  | None =>
      if bool_decide (key ∈ objectPrototypeNames)
      then if bool_decide (key = lit "__proto__") then byCategory
           else <[key := NotACount]> byCategory
      else <[key := Count 1]> byCategory
  end.

(** The two counts [getStats] adds to the statistics of the store. *)
Definition byCategory (allDocs : list Chunk) : gmap jsstr Entry :=
  fold_left countCategory allDocs ∅.

Definition uniqueUrls (allDocs : list Chunk) : nat :=
  size (list_to_set (map url allDocs) : gset jsstr).

(** The characters [.] does not match. *)
Definition isLineTerminator (c : ascii) : bool :=
  ((code c =? 10) || (code c =? 13))%N.

Definition locOpen : jsstr := lit "<loc>".
Definition locClose : jsstr := lit "</loc>".

(** The match of [(.*?)<\/loc>] at the start of [s]: the shortest run of
    characters other than line terminators that is followed by the closing
    tag. *)
Fixpoint locBody (s : jsstr) : option jsstr :=
  if startsWith locClose s then Some []
  else match s with
       | [] => None
       | c :: s' =>
           if isLineTerminator c then None
           else match locBody s' with
                | Some body => Some (c :: body)
                | None => None
                end
       end.

(** [Array.from(html.matchAll(/<loc>(.*?)<\/loc>/g), match => match[1])]:
    the matches from left to right, each search starting where the last
    match ended; [skip] counts the characters still covered by it. *)
Fixpoint locs (skip : nat) (html : jsstr) : list jsstr :=
  match html with
  | [] => []
  | _ :: rest =>
      match skip with
      | S k => locs k rest
      | O =>
          if startsWith locOpen html then
            match locBody (drop (length locOpen) html) with
            | Some body =>
                body :: locs (length locOpen + length body + length locClose - 1) rest
            | None => locs 0 rest
            end
          else locs 0 rest
      end
  end.

(** [parseSitemap] on the text [fetchHtml] returned. *)
Definition parseSitemap (html : jsstr) : list jsstr := locs 0 html.

End IndexingService.

(* ===================================================================== *)
(** * Notions used to state the properties *)
(* ===================================================================== *)

Module ChunkerExamples.

Import DocumentProcessor.

(** A document of 1000 letters, longer than the default [chunkSize]. *)
Definition longText : jsstr := repeat "a"%char 1000.

(** A document of 60 code units that ends in a space. *)
Definition paddedDoc : ScrapedDoc :=
  {| sd_title := lit "Returns";
     sd_content := repeat "a"%char 59 ++ lit " ";
     sd_url := lit "https://example.com/faq";
     sd_scrapedAt := lit "2024-01-01T00:00:00.000Z";
     sd_description := lit "Return policy" |}.


End ChunkerExamples.

Module StoreInvariant.

Import DocumentProcessor VectorStore.

(** The index correspondence of the two arrays. *)
Definition consistent (s : Store) : Prop :=
  length (documents s) = length (embeddings s).

(** The same correspondence in what [load] would install from the file. *)
Definition fileConsistent (f : File) : Prop :=
  match f with
  | Parsed data =>
      length (default [] (snap_documents data))
      = length (default [] (snap_embeddings data))
  | _ => True
  end.

(** The invariant of the store together with its snapshot file. *)
Definition sound (w : World) : Prop :=
  consistent (store w) /\ fileConsistent (file (disk w)).

(** Hoare triples for [M]: from a world satisfying [P], a normal return
    satisfies [Q] and an exception leaves a world satisfying [E]. *)
Definition triple {A} (P : World -> Prop) (m : M A)
    (Q : A -> World -> Prop) (E : World -> Prop) : Prop :=
  forall w, P w ->
    match m w with
    | (Ok a, w') => Q a w'
    | (Throw _, w') => E w'
    end.

(** A computation keeps [P] whatever its outcome. *)
Definition keeps {A} (P : World -> Prop) (m : M A) : Prop :=
  triple P m (fun _ => P) P.

(** The public operations of the store. *)
Inductive operation :=
| OpInitialize
| OpIndexDocuments (docs : list Chunk)
| OpSearch (query : jsstr) (topK : Z)
| OpRemoveDocument (docId : jsstr)
| OpClear
| OpSave
| OpLoad.

Definition discard {A} (m : M A) : M unit := bind m (fun _ => ret tt).

Definition run (embed : jsstr -> result (list float)) (op : operation) : M unit :=
  match op with
  | OpInitialize => initialize
  | OpIndexDocuments docs => indexDocuments embed docs
  | OpSearch q k => discard (search embed q k)
  | OpRemoveDocument docId => discard (removeDocument docId)
  | OpClear => clear
  | OpSave => save
  | OpLoad => load
  end.

(** The world a process starts in: a fresh store over the disk as it is. *)
Definition boot (d : Disk) : World :=
  {| store := emptyStore; disk := d; trace := [] |}.

(** What can happen to a running system: an operation is called (and returns
    or throws), the process restarts over the same disk, or the disk becomes
    writable or read-only. *)
Inductive step (embed : jsstr -> result (list float)) : World -> World -> Prop :=
| step_call op w : step embed w (snd (run embed op w))
| step_restart w : step embed w (boot (disk w))
| step_chmod b w :
    step embed w {| store := store w;
                    disk := {| file := file (disk w); writable := b |};
                    trace := trace w |}.

(** The worlds reachable from a start over a disk that holds no snapshot, an
    unreadable one, or one whose two arrays have equal length. *)
Inductive reachable (embed : jsstr -> result (list float)) : World -> Prop :=
| reach_boot d : fileConsistent (file d) -> reachable embed (boot d)
| reach_step w w' : reachable embed w -> step embed w w' -> reachable embed w'.






(** The world [initialize] leaves behind. *)
Definition afterInitialize (w : World) : World :=
  if initialized (store w) then w
  else {| store := markInitialized
                     match file (disk w) with
                     | Parsed data => installSnapshot data (store w)
                     | _ => store w
                     end;
          disk := disk w;
          trace := trace w ++ [ReadFile] |}.

(** The world after the pair of [c] was appended and the batch marked
    indexed, before [save]. *)
Definition appended (c : Chunk) (e : list float) (w0 : World) : World :=
  {| store := {| documents := documents (store w0) ++ [c];
                 embeddings := embeddings (store w0) ++ [e];
                 isIndexed := true;
                 initialized := initialized (store w0) |};
     disk := disk w0;
     trace := trace w0 ++ [Embed (textToEmbed c)] |}.

(** The events a computation adds to the trace. *)
Definition emitted {A} (m : M A) (w : World) : list event :=
  drop (length (trace w)) (trace (snd (m w))).

Definition isEmbed (e : event) : bool :=
  match e with Embed _ => true | _ => false end.

Definition isRetrieval (e : event) : bool :=
  match e with Embed _ | ReadFile | WriteFile => true | _ => false end.

(** Unfolds the monad operations in a goal. *)
Ltac run_M :=
  repeat (unfold bind, ret, getStore, setStore, emit, liftResult, tryCatch,
            throw, discard; simpl).

(** Sample data: a chunk, a second chunk, unit embeddings and a model that
    embeds every text as the first unit vector. *)
Definition sampleChunk : Chunk :=
  {| id := lit "0a1b2c3d4e5f-chunk-0";
     title := lit "Returns (Part 1/1)";
     content := lit "Items can be returned within 30 days of delivery.";
     chunk := 0; totalChunks := 1;
     url := lit "https://example.com/faq";
     category := lit "faq";
     scrapedAt := lit "2024-01-01T00:00:00.000Z";
     description := lit "Return policy";
     contentHash := lit "d41d8cd98f00b204e9800998ecf8427e" |}.

Definition otherChunk : Chunk :=
  {| id := lit "9f8e7d6c5b4a-chunk-0";
     title := lit "Shipping (Part 1/1)";
     content := lit "Orders ship within two business days.";
     chunk := 0; totalChunks := 1;
     url := lit "https://example.com/shipping";
     category := lit "general";
     scrapedAt := lit "2024-01-01T00:00:00.000Z";
     description := lit "Shipping";
     contentHash := lit "0cc175b9c0f1b6a831c399e269772661" |}.

Definition e1 : list float := [1%float; 0%float].
Definition e2 : list float := [0%float; 1%float].

Definition constantModel : jsstr -> result (list float) := fun _ => Ok e1.

(** A store holding the two sample chunks, over a writable disk with no
    snapshot yet. *)
Definition sampleWorld : World :=
  {| store := {| documents := [sampleChunk; otherChunk];
                 embeddings := [e1; e2];
                 isIndexed := true; initialized := true |};
     disk := {| file := Absent; writable := true |};
     trace := [] |}.

(** The snapshot [save] builds from a store. *)
Definition snapshotOf (s : Store) : Snapshot :=
  {| snap_documents := Some (documents s);
     snap_embeddings := Some (embeddings s);
     snap_isIndexed := Some (isIndexed s) |}.

End StoreInvariant.

Module TextShape.

(** The shape of a text whose whitespace is made of single spaces;
    [afterSpace] tells that the text follows a space. *)
Fixpoint singleSpaced (afterSpace : bool) (s : jsstr) : Prop :=
  match s with
  | [] => True
  | c :: s' =>
      if isWhitespace c
      then c = " "%char /\ afterSpace = false /\ singleSpaced true s'
      else singleSpaced false s'
  end.

(** The words of a text: its maximal runs of characters that are not
    whitespace, in order.  [word] holds the characters read of the current
    word, the last one first. *)
Fixpoint wordsFrom (word : jsstr) (s : jsstr) : list jsstr :=
  match s with
  | [] => match word with [] => [] | _ => [rev word] end
  | c :: s' =>
      if isWhitespace c
      then match word with
           | [] => wordsFrom [] s'
           | _ => rev word :: wordsFrom [] s'
           end
      else wordsFrom (c :: word) s'
  end.

Definition words (s : jsstr) : list jsstr := wordsFrom [] s.

(** The words written one after the other with one space between two. *)
Fixpoint unwords (ws : list jsstr) : jsstr :=
  match ws with
  | [] => []
  | w :: ws' =>
      match ws' with
      | [] => w
      | _ => w ++ " "%char :: unwords ws'
      end
  end.

End TextShape.

Module BulkIndexing.

Import DocumentProcessor VectorStore IndexingService.

Section WithServices.

Variable md5 : jsstr -> jsstr.
Variable embed : jsstr -> result (list float).
Variable scrape : nat -> jsstr -> result ScrapedDoc.
Variable message : error -> jsstr.
Variable cfg : Config.

(** The reports [indexUrl] gives for the URLs of a list when it is called
    for one after the other, each call starting from the service and the
    world the call before left, together with the world the last call
    leaves.  [None] when a call ran out of fuel. *)
Fixpoint reportsFrom (fuel : nat) (urls : list jsstr) (ix : Indexer) (w : World)
  : option (list UrlResult * World) :=
  match urls with
  | [] => Some ([], w)
  | url :: rest =>
      match indexUrl md5 embed scrape message cfg fuel url ix w with
      | None => None
      | Some (r, ix1, w1) =>
          match reportsFrom fuel rest ix1 w1 with
          | None => None
          | Some (rs, w') => Some (r :: rs, w')
          end
      end
  end.

(** The entry of [errors] for a URL whose report is a failure. *)
Definition errorEntry (entry : jsstr * UrlResult) : option (jsstr * list jsstr) :=
  if success entry.2 then None else Some (entry.1, errors entry.2).

End WithServices.

End BulkIndexing.

Module SearchSpec.

Import DocumentProcessor VectorStore StoreInvariant.

(** None of the similarity scores of a search is NaN. *)
Definition scoresOrdered (embed : jsstr -> result (list float)) (q : jsstr)
    (w : World) : Prop :=
  forall queryEmbedding scores,
    embed q = Ok queryEmbedding ->
    scoreAll queryEmbedding 0 (embeddings (store (afterInitialize w))) = Ok scores ->
    Forall (fun r => is_nan (score r) = false) scores.

(** [a] may stand before [b] in a ranking: its score is not lower. *)
Definition notLower (a b : Scored) : Prop := (score b <=? score a)%float = true.

(** [a] may stand before [b] in a stable ranking: its score is strictly
    higher, or it comes from an earlier position of the store. *)
Definition ranksBefore (a b : Scored) : Prop :=
  (score b <? score a)%float = true \/ (index a < index b)%nat.

End SearchSpec.

Module RoutingSpec.

Import DocumentProcessor VectorStore RAGPipeline StoreInvariant.

(** Single words that a casual pattern accepts on their own. *)
Definition casualTokens : list string :=
  ["hi"; "hello"; "hey"; "sup"; "yo"; "greeting"; "thank"; "thx"; "cheers";
   "bye"; "goodbye"; "later"; "cya"; "ok"; "okay"; "cool"; "nice"; "great";
   "awesome"; "sure"].

(** The statement that a fallback answer quotes its top-ranked chunk: the
    first source is that chunk and its content occurs in the answer. *)
Definition fallbackQuotesTopChunk (embed : jsstr -> result (list float))
    (o : Ollama) (q : jsstr) (options : Options) (w : World) : Prop :=
  forall resp w',
    query embed o q options w = (Ok resp, w') ->
    generationMethod (metadata resp) = lit "fallback" ->
    exists top rest,
      sources resp = toSource top :: rest
      /\ includes (answer resp) (content (doc top)) = true.

(** A backend whose health check fails. *)
Definition offlineBackend : Ollama :=
  {| available := false;
     chat := fun _ => Throw ChatError;
     modelName := lit "deepseek-v3.1:671b-cloud" |}.

(** A backend that is up and answers every prompt with the same text. *)
Definition onlineBackend : Ollama :=
  {| available := true;
     chat := fun _ => Ok (lit "Hello! How can I help?");
     modelName := lit "deepseek-v3.1:671b-cloud" |}.

Definition defaultOptions : Options := {| topK := None; includeThinking := false |}.

Definition policyQuestion : jsstr := lit "What is your return policy?".

Definition casualQuestion : jsstr := lit "  OK, what is your return policy?".

End RoutingSpec.

(* ===================================================================== *)
(** * Binary64 arithmetic facts *)
(* ===================================================================== *)

(** Facts about the primitive binary64 operations the services use,
    obtained from their specification over [spec_float]. *)
Module FloatFacts.

Abbreviation fexp := (SpecFloat.fexp prec emax).
Abbreviation emin := (SpecFloat.emin prec emax).

Lemma emin_value : emin = -1074.
Proof. reflexivity. Qed.

Lemma fexp_value k : fexp k = Z.max (k - 53) (-1074).
Proof. reflexivity. Qed.

Lemma digits2_pos_bounds p :
  2 ^ (Zpos (digits2_pos p) - 1) <= Zpos p < 2 ^ Zpos (digits2_pos p).
Proof.
  induction p as [p IH|p IH|]; simpl digits2_pos.
  - rewrite Pos2Z.inj_succ.
    replace (Z.succ (Zpos (digits2_pos p)) - 1) with (Zpos (digits2_pos p)) by lia.
    rewrite Z.pow_succ_r by lia.
    assert (2 ^ Zpos (digits2_pos p) = 2 * 2 ^ (Zpos (digits2_pos p) - 1)) as E.
    { rewrite <- Z.pow_succ_r by lia. f_equal. lia. }
    lia.
  - rewrite Pos2Z.inj_succ.
    replace (Z.succ (Zpos (digits2_pos p)) - 1) with (Zpos (digits2_pos p)) by lia.
    rewrite Z.pow_succ_r by lia.
    assert (2 ^ Zpos (digits2_pos p) = 2 * 2 ^ (Zpos (digits2_pos p) - 1)) as E.
    { rewrite <- Z.pow_succ_r by lia. f_equal. lia. }
    lia.
  - simpl. lia.
Qed.

Lemma iter_xO d m : Zpos (Pos.iter xO m d) = Zpos m * 2 ^ Zpos d.
Proof.
  induction d as [|d IH] using Pos.peano_ind.
  - simpl. lia.
  - rewrite Pos.iter_succ, Pos2Z.inj_succ, Z.pow_succ_r by lia.
    rewrite Pos2Z.inj_xO, IH. lia.
Qed.

(** Aligning a mantissa to a smaller exponent multiplies it by the power of
    two in between. *)
Lemma shl_align_value m e e' :
  e' <= e -> Zpos (fst (shl_align m e e')) = Zpos m * 2 ^ (e - e').
Proof.
  intros H. unfold shl_align.
  destruct (e' - e) as [|d|d] eqn:E; simpl fst.
  - replace (e - e') with 0 by lia. lia.
  - lia.
  - rewrite iter_xO. f_equal. f_equal. lia.
Qed.

Lemma shl_align_exp m e e' : e' <= e -> snd (shl_align m e e') = e'.
Proof.
  intros H. unfold shl_align.
  destruct (e' - e) as [|d|d] eqn:E; simpl snd; lia.
Qed.

Lemma shl_align_keep m e e' : e <= e' -> shl_align m e e' = (m, e).
Proof.
  intros H. unfold shl_align. destruct (e' - e) as [|d|d] eqn:E; try reflexivity. lia.
Qed.

Lemma shr_1_m mrs : 0 <= shr_m mrs -> shr_m (shr_1 mrs) = shr_m mrs / 2.
Proof.
  destruct mrs as [m r s]. simpl. intros H.
  destruct m as [|[p|p|]|p]; cbn [shr_m shr_1]; try reflexivity; try lia.
  - apply Z.div_unique with 1; lia.
  - apply Z.div_unique with 0; lia.
Qed.

Lemma iter_shr_m n mrs :
  0 <= shr_m mrs -> shr_m (SpecFloat.iter_pos shr_1 n mrs) = shr_m mrs / 2 ^ Zpos n.
Proof.
  revert mrs. induction n as [n IH|n IH|]; intros mrs H; simpl SpecFloat.iter_pos.
  - assert (0 <= shr_m (shr_1 mrs)) as H1
      by (rewrite shr_1_m by exact H; apply Z.div_pos; lia).
    assert (0 <= shr_m (SpecFloat.iter_pos shr_1 n (shr_1 mrs))) as H2
      by (rewrite IH by exact H1; apply Z.div_pos; [exact H1|apply Z.pow_pos_nonneg; lia]).
    rewrite IH by exact H2. rewrite IH by exact H1. rewrite shr_1_m by exact H.
    rewrite !Z.div_div by (try apply Z.pow_pos_nonneg; lia).
    f_equal. rewrite (Pos2Z.inj_xI n).
    replace (2 * Zpos n + 1) with (1 + Zpos n + Zpos n) by lia.
    rewrite (Z.pow_add_r 2 (1 + Zpos n) (Zpos n)) by lia.
    rewrite (Z.pow_add_r 2 1 (Zpos n)) by lia. lia.
  - assert (0 <= shr_m (SpecFloat.iter_pos shr_1 n mrs)) as H2
      by (rewrite IH by exact H; apply Z.div_pos; [exact H|apply Z.pow_pos_nonneg; lia]).
    rewrite IH by exact H2. rewrite IH by exact H.
    rewrite !Z.div_div by (try apply Z.pow_pos_nonneg; lia).
    f_equal. rewrite (Pos2Z.inj_xO n).
    replace (2 * Zpos n) with (Zpos n + Zpos n) by lia.
    rewrite (Z.pow_add_r 2 (Zpos n) (Zpos n)) by lia. lia.
  - rewrite shr_1_m by exact H. reflexivity.
Qed.

Lemma shr_m_of_loc m l : shr_m (shr_record_of_loc m l) = m.
Proof. destruct l as [|[| |]]; reflexivity. Qed.

(** Rounding a positive mantissa at an exponent not below [emin] never
    shifts all of its digits out. *)
Lemma shr_fexp_pos m e l :
  0 < m -> emin <= e ->
  0 < shr_m (fst (shr_fexp prec emax m e l))
  /\ emin <= snd (shr_fexp prec emax m e l).
Proof.
  intros Hm He. unfold shr_fexp, shr.
  destruct m as [|p|p]; try lia. simpl Zdigits2.
  pose proof (digits2_pos_bounds p) as [Hlo _].
  destruct (fexp (Zpos (digits2_pos p) + e) - e) as [|n|n] eqn:En; simpl fst; simpl snd;
    rewrite ?shr_m_of_loc; try (split; lia).
  rewrite iter_shr_m by (rewrite shr_m_of_loc; lia). rewrite shr_m_of_loc.
  split; [|lia].
  rewrite fexp_value in En. rewrite emin_value in He.
  apply Z.div_str_pos. split; [apply Z.pow_pos_nonneg; lia|].
  apply Z.le_trans with (2 ^ (Zpos (digits2_pos p) - 1)); [|exact Hlo].
  apply Z.pow_le_mono_r; lia.
Qed.

Lemma round_nearest_even_ge m l : m <= round_nearest_even m l.
Proof.
  unfold round_nearest_even. destruct l as [|[| |]]; try lia.
  destruct (Z.even m); lia.
Qed.

(** The sign of a rounded positive mantissa is the sign it was given: the
    result is finite or infinite with that sign, never zero and never NaN. *)
Lemma binary_round_aux_sign s m e l :
  0 < m -> emin <= e ->
  match binary_round_aux prec emax s m e l with
  | S754_finite s' _ _ | S754_infinity s' => s' = s
  | _ => False
  end.
Proof.
  intros Hm He. unfold binary_round_aux.
  pose proof (shr_fexp_pos m e l Hm He) as [H1 H1'].
  destruct (shr_fexp prec emax m e l) as [mrs' e']. simpl in H1, H1'.
  pose proof (round_nearest_even_ge (shr_m mrs') (loc_of_shr_record mrs')) as Hr.
  set (m2 := round_nearest_even (shr_m mrs') (loc_of_shr_record mrs')) in *.
  assert (0 < m2) as Hm2 by lia.
  pose proof (shr_fexp_pos m2 e' loc_Exact Hm2 H1') as [H2 _].
  destruct (shr_fexp prec emax m2 e' loc_Exact) as [mrs'' e'']. simpl in H2.
  destruct (shr_m mrs'') as [|p|p]; try lia.
  destruct (e'' <=? emax - prec); reflexivity.
Qed.

Lemma fexp_ge_emin k : emin <= fexp k.
Proof. rewrite fexp_value, emin_value. lia. Qed.

Lemma binary_round_sign s m e :
  emin <= e ->
  match binary_round prec emax s m e with
  | S754_finite s' _ _ | S754_infinity s' => s' = s
  | _ => False
  end.
Proof.
  intros He. unfold binary_round.
  set (e' := fexp (Zpos (digits2_pos m) + e)).
  pose proof (fexp_ge_emin (Zpos (digits2_pos m) + e)) as Hf. fold e' in Hf.
  destruct (Z_le_gt_dec e' e) as [Hle|Hgt].
  - pose proof (shl_align_exp m e e' Hle) as Hx.
    destruct (shl_align m e e') as [mz ez]. simpl in Hx. subst ez.
    apply binary_round_aux_sign; lia.
  - rewrite shl_align_keep by lia. apply binary_round_aux_sign; lia.
Qed.

(** Whatever the mantissa and the exponent, rounding with a negative sign
    gives nothing above zero. *)
Lemma binary_round_neg_not_above_zero m e :
  SFltb (S754_zero false) (binary_round prec emax true m e) = false.
Proof.
  unfold binary_round. destruct (shl_align m e _) as [mz ez].
  unfold binary_round_aux.
  destruct (shr_fexp prec emax (Zpos mz) ez loc_Exact) as [mrs' e'].
  destruct (shr_fexp prec emax _ e' loc_Exact) as [mrs'' e''].
  destruct (shr_m mrs'') as [|p|p]; try reflexivity.
  destruct (e'' <=? emax - prec); reflexivity.
Qed.

(** A normalized integer is above zero exactly when the integer is. *)
Lemma binary_normalize_above_zero D e :
  emin <= e ->
  SFltb (S754_zero false) (binary_normalize prec emax D e false) = (0 <? D).
Proof.
  intros He. destruct D as [|p|p]; simpl binary_normalize.
  - reflexivity.
  - pose proof (binary_round_sign false p e He) as H.
    destruct (binary_round prec emax false p e) as [s|s| |s m' e'];
      try contradiction; subst s; reflexivity.
  - rewrite binary_round_neg_not_above_zero. reflexivity.
Qed.

(** ** Canonical representations *)

Lemma bounded_canonical m e :
  bounded prec emax m e = true ->
  fexp (Zpos (digits2_pos m) + e) = e.
Proof.
  unfold bounded, canonical_mantissa. intros H.
  apply andb_prop in H as [H _]. now apply Z.eqb_eq in H.
Qed.

(** Two canonical mantissas compare, once aligned, as their exponents and
    then their mantissas do. *)
Lemma aligned_lt m1 e1 m2 e2 :
  bounded prec emax m1 e1 = true -> bounded prec emax m2 e2 = true ->
  let ez := Z.min e1 e2 in
  (Zpos m1 * 2 ^ (e1 - ez) < Zpos m2 * 2 ^ (e2 - ez))
  <-> (e1 < e2 \/ (e1 = e2 /\ (m1 < m2)%positive)).
Proof.
  intros B1 B2 ez.
  apply bounded_canonical in B1. apply bounded_canonical in B2.
  rewrite fexp_value in B1, B2.
  pose proof (digits2_pos_bounds m1) as [L1 U1].
  pose proof (digits2_pos_bounds m2) as [L2 U2].
  destruct (Z.compare_spec e1 e2) as [Heq|Hlt|Hgt].
  - subst e2. unfold ez. rewrite Z.min_id, Z.sub_diag. simpl. lia.
  - unfold ez. rewrite Z.min_l by lia. rewrite Z.sub_diag, Z.mul_1_r.
    split; [intros _; now left|intros _].
    assert (Zpos (digits2_pos m2) = 53) as D2 by lia.
    assert (Zpos (digits2_pos m1) <= 53) as D1 by lia.
    rewrite D2 in L2.
    assert (Zpos m1 < 2 ^ 53) as Hm1.
    { eapply Z.lt_le_trans; [exact U1|]. apply Z.pow_le_mono_r; lia. }
    assert (2 ^ 1 <= 2 ^ (e2 - e1)) as Hp by (apply Z.pow_le_mono_r; lia).
    change (2 ^ 53) with (2 ^ (53 - 1) * 2 ^ 1) in Hm1.
    nia.
  - unfold ez. rewrite Z.min_r by lia. rewrite Z.sub_diag, Z.mul_1_r.
    split; [|intros [H|[H _]]; lia]. intros Hlt. exfalso.
    assert (Zpos (digits2_pos m1) = 53) as D1 by lia.
    assert (Zpos (digits2_pos m2) <= 53) as D2 by lia.
    rewrite D1 in L1.
    assert (Zpos m2 < 2 ^ 53) as Hm2.
    { eapply Z.lt_le_trans; [exact U2|]. apply Z.pow_le_mono_r; lia. }
    assert (2 ^ 1 <= 2 ^ (e1 - e2)) as Hp by (apply Z.pow_le_mono_r; lia).
    change (2 ^ 53) with (2 ^ (53 - 1) * 2 ^ 1) in Hm2.
    nia.
Qed.

Lemma bounded_emin m e : bounded prec emax m e = true -> emin <= e.
Proof.
  intros B. apply bounded_canonical in B.
  pose proof (fexp_ge_emin (Zpos (digits2_pos m) + e)). lia.
Qed.

(** The difference of two numbers is above zero exactly when the first is
    above the second, on the specification side. *)
Lemma SFsub_above_zero X Y :
  valid_binary X = true -> valid_binary Y = true ->
  SFltb (S754_zero false) (SFsub prec emax Y X) = SFltb X Y.
Proof.
  intros VX VY.
  destruct X as [sx|sx| |sx mx ex], Y as [sy|sy| |sy my ey];
    try reflexivity;
    try (destruct sx; try destruct sy; reflexivity);
    try (destruct sy; reflexivity).
  simpl in VX, VY.
  pose proof (bounded_emin _ _ VX) as Ex. pose proof (bounded_emin _ _ VY) as Ey.
  unfold SFsub. cbv zeta.
  rewrite binary_normalize_above_zero by lia.
  rewrite !shl_align_value by lia.
  pose proof (aligned_lt mx ex my ey VX VY) as Hxy.
  pose proof (aligned_lt my ey mx ex VY VX) as Hyx.
  cbv zeta in Hxy, Hyx. rewrite (Z.min_comm ex ey) in Hxy.
  set (ez := Z.min ey ex) in *.
  assert (0 < Zpos mx * 2 ^ (ex - ez)) as Px
    by (apply Z.mul_pos_pos; [lia|apply Z.pow_pos_nonneg; lia]).
  assert (0 < Zpos my * 2 ^ (ey - ez)) as Py
    by (apply Z.mul_pos_pos; [lia|apply Z.pow_pos_nonneg; lia]).
  unfold SFltb, SFcompare, cond_Zopp.
  change (Pos.compare_cont Eq mx my) with (Pos.compare mx my).
  destruct sx, sy.
  - (* both negative *)
    destruct (Z.compare_spec ex ey) as [He|He|He];
      [destruct (Pos.compare_spec mx my) as [Hm|Hm|Hm]| |]; cbn [CompOpp];
      first [apply Z.ltb_lt; lia | apply Z.ltb_ge; lia].
  - apply Z.ltb_lt. lia.
  - apply Z.ltb_ge. lia.
  - (* both positive *)
    destruct (Z.compare_spec ex ey) as [He|He|He];
      [destruct (Pos.compare_spec mx my) as [Hm|Hm|Hm]| |]; cbn [CompOpp];
      first [apply Z.ltb_lt; lia | apply Z.ltb_ge; lia].
Qed.

(** [0 < y - x] and [x < y] are the same test on binary64 numbers: a
    difference of two numbers is never rounded to zero and keeps its sign. *)
Lemma sub_above_zero (x y : float) : (0 <? y - x)%float = (x <? y)%float.
Proof.
  rewrite !FloatAxioms.ltb_spec, FloatAxioms.sub_spec.
  change (Prim2SF 0%float) with (S754_zero false).
  apply SFsub_above_zero; apply FloatAxioms.Prim2SF_valid.
Qed.

Lemma SFcompare_swap X Y : SFcompare Y X = option_map CompOpp (SFcompare X Y).
Proof.
  destruct X as [sx|sx| |sx mx ex], Y as [sy|sy| |sy my ey]; simpl;
    try reflexivity;
    try (destruct sx; try destruct sy; reflexivity);
    try (destruct sy; reflexivity).
  change (Pos.compare_cont Eq my mx) with (Pos.compare my mx).
  change (Pos.compare_cont Eq mx my) with (Pos.compare mx my).
  rewrite (Z.compare_antisym ex ey), (Pos.compare_antisym mx my).
  destruct sx, sy; simpl; try reflexivity;
    destruct (ex ?= ey); simpl; try reflexivity;
    now rewrite CompOpp_involutive.
Qed.

Lemma not_nan_spec x : is_nan x = false -> Prim2SF x <> S754_nan.
Proof.
  unfold is_nan. rewrite FloatAxioms.eqb_spec. intros H E. rewrite E in H. discriminate.
Qed.

Lemma compare_defined x y :
  is_nan x = false -> is_nan y = false ->
  exists c, SFcompare (Prim2SF x) (Prim2SF y) = Some c.
Proof.
  intros Hx Hy. apply not_nan_spec in Hx. apply not_nan_spec in Hy.
  destruct (Prim2SF x) as [sx|sx| |sx mx ex], (Prim2SF y) as [sy|sy| |sy my ey];
    simpl; try congruence; eauto.
Qed.

Lemma ltb_leb x y : (x <? y)%float = true -> (x <=? y)%float = true.
Proof.
  rewrite FloatAxioms.ltb_spec, FloatAxioms.leb_spec. unfold SFltb, SFleb.
  destruct (SFcompare _ _) as [[| |]|]; congruence.
Qed.

(** Numbers other than NaN are totally ordered. *)
Lemma not_ltb_leb x y :
  is_nan x = false -> is_nan y = false ->
  (x <? y)%float = false -> (y <=? x)%float = true.
Proof.
  intros Hx Hy. destruct (compare_defined x y Hx Hy) as [c Hc].
  rewrite FloatAxioms.ltb_spec, FloatAxioms.leb_spec. unfold SFltb, SFleb.
  rewrite (SFcompare_swap (Prim2SF x) (Prim2SF y)), Hc.
  destruct c; simpl; congruence.
Qed.

Lemma eqb_not_ltb x y : (x =? y)%float = true -> (y <? x)%float = false.
Proof.
  rewrite FloatAxioms.eqb_spec, FloatAxioms.ltb_spec. unfold SFeqb, SFltb.
  rewrite (SFcompare_swap (Prim2SF x) (Prim2SF y)).
  destruct (SFcompare (Prim2SF x) (Prim2SF y)) as [[| |]|]; simpl; congruence.
Qed.

Lemma SFmul_comm X Y : SFmul prec emax X Y = SFmul prec emax Y X.
Proof.
  destruct X as [sx|sx| |sx mx ex], Y as [sy|sy| |sy my ey]; simpl;
    rewrite ?(xorb_comm sx sy); try reflexivity.
  now rewrite Pos.mul_comm, Z.add_comm.
Qed.

(** Multiplication of binary64 numbers is commutative. *)
Lemma mul_comm (x y : float) : (x * y)%float = (y * x)%float.
Proof.
  apply FloatAxioms.Prim2SF_inj. rewrite !FloatAxioms.mul_spec. unfold SF64mul. apply SFmul_comm.
Qed.

Lemma SFdiv_self s m e :
  SFdiv prec emax (S754_finite s m e) (S754_finite s m e) = Prim2SF 1%float.
Proof.
  unfold SFdiv, SFdiv_core_binary.
  replace (Zdigits2 (Zpos m) + e - (Zdigits2 (Zpos m) + e)) with 0 by lia.
  replace (e - e) with 0 by lia.
  change (Z.min (fexp 0) 0) with (-53). cbv zeta.
  change (0 - -53) with 53. cbv iota.
  rewrite Z.shiftl_mul_pow2 by lia.
  assert (Z.div_eucl (Zpos m * 2 ^ 53) (Zpos m) = (2 ^ 53, 0)) as ->.
  { pose proof (Z.div_mul (2 ^ 53) (Zpos m)) as Hq.
    pose proof (Z.mod_mul (2 ^ 53) (Zpos m)) as Hr.
    rewrite (Z.mul_comm (2 ^ 53)) in Hq, Hr.
    unfold Z.div, Z.modulo in Hq, Hr.
    destruct (Z.div_eucl (Zpos m * 2 ^ 53) (Zpos m)) as [q r].
    simpl in Hq, Hr. rewrite Hq, Hr by lia. reflexivity. }
  rewrite xorb_nilpotent.
  assert (new_location (Zpos m) 0 = loc_Exact) as ->.
  { unfold new_location, new_location_even, new_location_odd.
    destruct (Z.even (Zpos m)); reflexivity. }
  vm_compute. reflexivity.
Qed.

Lemma finite_nonzero_spec x :
  is_finite x = true -> (x =? 0)%float = false ->
  exists s m e, Prim2SF x = S754_finite s m e.
Proof.
  unfold is_finite, is_nan, is_infinity.
  rewrite !FloatAxioms.eqb_spec, FloatAxioms.abs_spec.
  change (Prim2SF 0%float) with (S754_zero false).
  change (Prim2SF infinity) with (S754_infinity false).
  destruct (Prim2SF x) as [sx|sx| |sx mx ex]; simpl; try discriminate; eauto.
  destruct sx; discriminate.
Qed.

(** A finite number other than zero divided by itself is exactly one. *)
Lemma div_self x :
  is_finite x = true -> (x =? 0)%float = false -> (x / x)%float = 1%float.
Proof.
  intros Hf Hz. destruct (finite_nonzero_spec x Hf Hz) as (s & m & e & E).
  apply FloatAxioms.Prim2SF_inj. rewrite FloatAxioms.div_spec, E. apply SFdiv_self.
Qed.

Lemma SFleb_trans X Y Z :
  SFleb X Y = true -> SFleb Y Z = true -> SFleb X Z = true.
Proof.
  unfold SFleb, SFcompare.
  destruct X as [sx|sx| |sx mx ex], Y as [sy|sy| |sy my ey], Z as [sz|sz| |sz mz ez];
    try discriminate; try reflexivity;
    repeat match goal with s : bool |- _ => destruct s end;
    try discriminate; try reflexivity;
    change (Pos.compare_cont Eq ?a ?b) with (Pos.compare a b);
    destruct (Z.compare_spec ex ey), (Z.compare_spec ey ez), (Z.compare_spec ex ez);
    try lia; try discriminate; try reflexivity;
    destruct (Pos.compare_spec mx my), (Pos.compare_spec my mz),
             (Pos.compare_spec mx mz);
    try lia; try discriminate; try reflexivity.
Qed.

Lemma leb_trans x y z :
  (x <=? y)%float = true -> (y <=? z)%float = true -> (x <=? z)%float = true.
Proof. rewrite !FloatAxioms.leb_spec. apply SFleb_trans. Qed.

(** ** Rounding *)

Lemma digits2_pos_unique p k :
  2 ^ (k - 1) <= Zpos p < 2 ^ k -> Zpos (digits2_pos p) = k.
Proof.
  intros [Hlo Hhi].
  pose proof (digits2_pos_bounds p) as [Blo Bhi].
  assert (0 < k) as Hk.
  { destruct (Z_lt_le_dec 0 k) as [H|H]; [exact H|].
    assert (2 ^ k <= 1)
      by (destruct (Z.eq_dec k 0) as [->|]; [simpl; lia|rewrite Z.pow_neg_r; lia]).
    lia. }
  destruct (Z.lt_trichotomy (Zpos (digits2_pos p)) k) as [H|[H|H]]; [|exact H|].
  - assert (2 ^ Zpos (digits2_pos p) <= 2 ^ (k - 1)) by (apply Z.pow_le_mono_r; lia). lia.
  - assert (2 ^ k <= 2 ^ (Zpos (digits2_pos p) - 1)) by (apply Z.pow_le_mono_r; lia). lia.
Qed.

Lemma round_nearest_even_le m l : round_nearest_even m l <= m + 1.
Proof.
  unfold round_nearest_even. destruct l as [|[| |]]; try lia.
  destruct (Z.even m); lia.
Qed.

Lemma loc_of_shr_record_of_loc m l : loc_of_shr_record (shr_record_of_loc m l) = l.
Proof. destruct l as [|[| |]]; reflexivity. Qed.

(** Rounding a mantissa of at least 53 digits in the normal range. *)
Lemma binary_round_aux_normal p ex lx :
  let d := Zpos (digits2_pos p) in
  let t := Zpos p / 2 ^ (d - 53) in
  let e1 := d + ex - 53 in
  53 <= d -> -1074 <= e1 ->
  exists m2,
    2 ^ 52 <= t < 2 ^ 53
    /\ t <= m2 <= t + 1
    /\ (d = 53 -> m2 = round_nearest_even (Zpos p) lx)
    /\ binary_round_aux prec emax false (Zpos p) ex lx
       = if m2 <? 2 ^ 53
         then (if e1 <=? 971 then S754_finite false (Z.to_pos m2) e1
               else S754_infinity false)
         else (if e1 + 1 <=? 971 then S754_finite false (Z.to_pos (2 ^ 52)) (e1 + 1)
               else S754_infinity false).
Proof.
  intros d t e1 Hd He1.
  pose proof (digits2_pos_bounds p) as [Blo Bhi]. fold d in Blo, Bhi.
  assert (2 ^ 52 <= t < 2 ^ 53) as Ht.
  { unfold t.
    assert (0 < 2 ^ (d - 53)) as Hpos by (apply Z.pow_pos_nonneg; lia).
    assert (2 ^ (d - 1) = 2 ^ 52 * 2 ^ (d - 53)) as E1
      by (rewrite <- Z.pow_add_r by lia; f_equal; lia).
    assert (2 ^ d = 2 ^ 53 * 2 ^ (d - 53)) as E2
      by (rewrite <- Z.pow_add_r by lia; f_equal; lia).
    split.
    - apply Z.div_le_lower_bound; [exact Hpos|]. rewrite Z.mul_comm. lia.
    - apply Z.div_lt_upper_bound; [exact Hpos|]. rewrite Z.mul_comm. lia. }
  unfold binary_round_aux.
  assert (exists mrs', shr_fexp prec emax (Zpos p) ex lx = (mrs', e1)
                       /\ shr_m mrs' = t
                       /\ (d = 53 -> loc_of_shr_record mrs' = lx)) as (mrs' & -> & Hm & Hl).
  { unfold shr_fexp, shr. cbn [Zdigits2]. fold d.
    rewrite fexp_value. replace (Z.max (d + ex - 53) (-1074)) with e1 by (unfold e1; lia).
    destruct (e1 - ex) as [|n|n] eqn:En.
    - exists (shr_record_of_loc (Zpos p) lx).
      assert (d = 53) as Hd53 by (unfold e1 in En; lia).
      split; [f_equal; unfold e1 in *; lia|]. rewrite shr_m_of_loc.
      split; [unfold t; rewrite Hd53; simpl; now rewrite Z.div_1_r|].
      intros _. apply loc_of_shr_record_of_loc.
    - exists (SpecFloat.iter_pos shr_1 n (shr_record_of_loc (Zpos p) lx)).
      split; [f_equal; lia|].
      rewrite iter_shr_m by (rewrite shr_m_of_loc; lia). rewrite shr_m_of_loc.
      split; [unfold t; f_equal; f_equal; unfold e1 in En; lia|].
      intros Hd53. unfold e1 in En. lia.
    - unfold e1 in En. lia. }
  set (m2 := round_nearest_even (shr_m mrs') (loc_of_shr_record mrs')).
  exists m2.
  pose proof (round_nearest_even_ge (shr_m mrs') (loc_of_shr_record mrs')) as Hge.
  pose proof (round_nearest_even_le (shr_m mrs') (loc_of_shr_record mrs')) as Hle.
  fold m2 in Hge, Hle. rewrite Hm in Hge, Hle.
  split; [exact Ht|]. split; [lia|]. split.
  { intros Hd53. unfold m2. rewrite (Hl Hd53), Hm. unfold t. rewrite Hd53. simpl.
    now rewrite Z.div_1_r. }
  destruct (m2 <? 2 ^ 53) eqn:Elt.
  - apply Z.ltb_lt in Elt.
    destruct m2 as [|q|q] eqn:Em2; try lia.
    assert (Zpos (digits2_pos q) = 53) as Dq by (apply digits2_pos_unique; lia).
    unfold shr_fexp, shr. cbn [Zdigits2]. rewrite Dq, fexp_value.
    replace (Z.max (53 + e1 - 53) (-1074) - e1) with 0 by lia.
    cbn [shr_m shr_record_of_loc]. reflexivity.
  - apply Z.ltb_ge in Elt.
    assert (m2 = 2 ^ 53) as E53 by lia.
    rewrite E53.
    unfold shr_fexp, shr. change (Zdigits2 (2 ^ 53)) with 54. rewrite fexp_value.
    replace (Z.max (54 + e1 - 53) (-1074) - e1) with 1 by lia.
    cbn. reflexivity.
Qed.

Lemma iter_pos_nat {A} (f : A -> A) p : forall x,
  SpecFloat.iter_pos f p x = Nat.iter (Pos.to_nat p) f x.
Proof.
  induction p as [p IH|p IH|]; intros x; simpl SpecFloat.iter_pos.
  - rewrite !IH, Pos2Nat.inj_xI.
    replace (S (2 * Pos.to_nat p)) with (Pos.to_nat p + S (Pos.to_nat p))%nat by lia.
    rewrite Nat.iter_add. f_equal. simpl. now rewrite Nat.iter_swap.
  - rewrite !IH, Pos2Nat.inj_xO.
    replace (2 * Pos.to_nat p)%nat with (Pos.to_nat p + Pos.to_nat p)%nat by lia.
    now rewrite Nat.iter_add.
  - reflexivity.
Qed.

(** The record after [k] shifts of the mantissa [M]: the quotient by [2^k],
    whether the remainder reaches one half, and whether it is neither zero
    nor one half. *)
Lemma iter_shr_record M k :
  0 <= M ->
  let rec := Nat.iter k shr_1 {| shr_m := M; shr_r := false; shr_s := false |} in
  let rem := M mod 2 ^ Z.of_nat k in
  shr_m rec = M / 2 ^ Z.of_nat k
  /\ (shr_r rec = true <-> (0 < Z.of_nat k /\ 2 ^ (Z.of_nat k - 1) <= rem))
  /\ (shr_s rec = true <-> (rem <> 0 /\ rem <> 2 ^ (Z.of_nat k - 1))).
Proof.
  intros HM. induction k as [|k IH]; cbv zeta.
  - simpl. rewrite Z.div_1_r, Z.mod_1_r. repeat split; try discriminate; try lia.
  - cbv zeta in IH. destruct IH as (Hm & Hr & Hs).
    rewrite Nat2Z.inj_succ.
    replace (Z.succ (Z.of_nat k) - 1) with (Z.of_nat k) by lia.
    set (K := Z.of_nat k) in *.
    assert (0 <= K) as HK by (unfold K; lia).
    assert (0 < 2 ^ K) as HpK by (apply Z.pow_pos_nonneg; lia).
    rewrite Z.pow_succ_r by exact HK.
    simpl Nat.iter.
    set (rec := Nat.iter k shr_1 {| shr_m := M; shr_r := false; shr_s := false |}) in *.
    set (q := M / 2 ^ K) in *. set (rem := M mod 2 ^ K) in *.
    pose proof (Z.div_mod M (2 ^ K) ltac:(lia)) as EM. fold q rem in EM.
    pose proof (Z.mod_pos_bound M (2 ^ K) HpK) as Hrem. fold rem in Hrem.
    assert (0 <= q) as Hq by (unfold q; apply Z.div_pos; lia).
    pose proof (Z.div_mod q 2 ltac:(lia)) as Eq.
    pose proof (Z.mod_pos_bound q 2 ltac:(lia)) as Hq2.
    assert (M / (2 * 2 ^ K) = q / 2) as Ediv.
    { symmetry. apply Z.div_unique with (rem + 2 ^ K * (q mod 2)); nia. }
    assert (M mod (2 * 2 ^ K) = rem + 2 ^ K * (q mod 2)) as Emod.
    { symmetry. apply Z.mod_unique with (q / 2); nia. }
    rewrite Ediv, Emod.
    destruct rec as [m r s]. cbn [shr_m shr_r shr_s] in *. subst m.
    assert (forall b, (r || s = b) -> (b = true <-> rem <> 0)) as Hsticky.
    { intros b <-. rewrite orb_true_iff, Hr, Hs. split.
      - intros [[Hk H]|[H _]]; [|exact H].
        assert (0 < 2 ^ (K - 1)) by (apply Z.pow_pos_nonneg; lia). lia.
      - intros H. destruct (Z.eq_dec rem (2 ^ (K - 1))) as [E|E]; [left|right; now split].
        split; [|lia].
        destruct (Z.eq_dec K 0) as [E0|E0]; [|lia].
        rewrite E0 in Hrem. simpl in Hrem. lia. }
    destruct q as [|[p|p|]|p] eqn:Eq'; try lia; cbn [shr_1 shr_m shr_r shr_s];
      pose proof (Hsticky (r || s) eq_refl) as Hst.
    + change (0 / 2) with 0. change (0 mod 2) with 0 in *.
      split; [reflexivity|]. split; [split; [discriminate|lia]|].
      rewrite Hst. lia.
    + assert (Z.pos p~1 mod 2 = 1) as E1
        by (symmetry; apply Z.mod_unique with (Zpos p); lia).
      assert (Z.pos p~1 / 2 = Zpos p) as E2
        by (symmetry; apply Z.div_unique with 1; lia).
      rewrite E1, E2. split; [reflexivity|]. split; [split; [intros _; lia|reflexivity]|].
      rewrite Hst. lia.
    + assert (Z.pos p~0 mod 2 = 0) as E1
        by (symmetry; apply Z.mod_unique with (Zpos p); lia).
      assert (Z.pos p~0 / 2 = Zpos p) as E2
        by (symmetry; apply Z.div_unique with 0; lia).
      rewrite E1, E2. split; [reflexivity|]. split; [split; [discriminate|lia]|].
      rewrite Hst. lia.
    + change (1 / 2) with 0. change (1 mod 2) with 1.
      split; [reflexivity|]. split; [split; [intros _; lia|reflexivity]|].
      rewrite Hst. lia.
Qed.

(** Shifting by [s] digits and rounding to nearest gives [m] when the
    mantissa is strictly within half a unit of [m * 2^s]. *)
Lemma shr_round_nearest M s m :
  0 <= M -> 0 <= m ->
  m * 2 ^ Zpos s - 2 ^ (Zpos s - 1) < M < m * 2 ^ Zpos s + 2 ^ (Zpos s - 1) ->
  let rec := SpecFloat.iter_pos shr_1 s (shr_record_of_loc M loc_Exact) in
  round_nearest_even (shr_m rec) (loc_of_shr_record rec) = m.
Proof.
  intros HM Hm Hnear. cbv zeta. rewrite iter_pos_nat. cbn [shr_record_of_loc].
  pose proof (iter_shr_record M (Pos.to_nat s) HM) as H. cbv zeta in H.
  rewrite positive_nat_Z in H. destruct H as (Hq & Hr & Hs).
  set (rec := Nat.iter (Pos.to_nat s) shr_1 _) in *.
  set (S := Zpos s) in *.
  assert (0 < 2 ^ (S - 1)) as Hh by (apply Z.pow_pos_nonneg; unfold S; lia).
  assert (2 ^ S = 2 * 2 ^ (S - 1)) as E2.
  { rewrite <- Z.pow_succ_r by (unfold S; lia). f_equal. lia. }
  pose proof (Z.div_mod M (2 ^ S) ltac:(lia)) as EM.
  pose proof (Z.mod_pos_bound M (2 ^ S) ltac:(lia)) as Hrem.
  set (q := M / 2 ^ S) in *. set (rem := M mod 2 ^ S) in *.
  destruct rec as [mq r st]. cbn [shr_m shr_r shr_s loc_of_shr_record] in *. subst mq.
  destruct (Z_le_gt_dec (m * 2 ^ S) M) as [Hge|Hlt].
  - assert (q = m) as Eq by nia.
    assert (rem < 2 ^ (S - 1)) as Hsmall by nia.
    assert (r = false) as ->.
    { destruct r; [|reflexivity]. destruct (proj1 Hr eq_refl). lia. }
    destruct st; simpl; exact Eq.
  - assert (q = m - 1) as Eq by nia.
    assert (2 ^ (S - 1) < rem) as Hbig by nia.
    assert (r = true) as -> by (apply Hr; split; [unfold S|]; lia).
    assert (st = true) as -> by (apply Hs; lia).
    simpl. lia.
Qed.

Lemma bounded_digits m e :
  bounded prec emax m e = true ->
  let d := Zpos (digits2_pos m) in
  1 <= d <= 53 /\ -1074 <= e <= 971 /\ (d < 53 -> e = -1074).
Proof.
  intros B d.
  pose proof (bounded_canonical m e B) as Hc. rewrite fexp_value in Hc. fold d in Hc.
  unfold bounded in B. apply andb_prop in B as [_ B]. apply Z.leb_le in B.
  change (emax - prec) with 971 in B.
  assert (0 < d) by (unfold d; lia). lia.
Qed.

(** The rounded square root of a positive number, normal or subnormal: a
    mantissa [a] of 53 digits whose square is within [a] of the radicand's
    mantissa, scaled to 105 or 106 digits. *)
Lemma SFsqrt_bounded m e :
  bounded prec emax m e = true ->
  let d := Zpos (digits2_pos m) in
  let e' := Z.div2 (d + e + 1) - 53 in
  let s := e - 2 * e' in
  exists a,
    SFsqrt prec emax (S754_finite false m e) = S754_finite false (Z.to_pos a) e'
    /\ 2 ^ 52 <= a < 2 ^ 53
    /\ 105 <= d + s <= 106
    /\ a * a - a <= Zpos m * 2 ^ s <= a * a + a.
Proof.
  intros B d e' s. destruct (bounded_digits m e B) as (Hd & He & Hsub). fold d in Hd, Hsub.
  pose proof (digits2_pos_bounds m) as [Blo Bhi]. fold d in Blo, Bhi.
  set (h := Z.div2 (d + e + 1)) in *.
  assert (2 * h <= d + e + 1 <= 2 * h + 1) as Hh.
  { unfold h. rewrite Z.div2_div. pose proof (Z.div_mod (d + e + 1) 2 ltac:(lia)).
    pose proof (Z.mod_pos_bound (d + e + 1) 2 ltac:(lia)). lia. }
  assert (2 * Z.div2 e <= e <= 2 * Z.div2 e + 1) as Hh2.
  { rewrite Z.div2_div. pose proof (Z.div_mod e 2 ltac:(lia)).
    pose proof (Z.mod_pos_bound e 2 ltac:(lia)). lia. }
  assert (105 <= d + s <= 106) as Hs by (unfold s, e'; lia).
  unfold SFsqrt, SFsqrt_core_binary. cbn [Zdigits2]. fold d h.
  rewrite fexp_value.
  replace (Z.min (Z.max (h - 53) (-1074)) (Z.div2 e)) with e' by (unfold e'; lia).
  cbv zeta. fold s.
  assert (match s with Z.pos _ => Z.shiftl (Zpos m) s | 0 => Zpos m | Z.neg _ => 0 end
          = Zpos m * 2 ^ s) as ->.
  { destruct s as [|ps|ps] eqn:Es; try lia. apply Z.shiftl_mul_pow2. lia. }
  set (m' := Zpos m * 2 ^ s).
  assert (0 < 2 ^ s) as Hps by (apply Z.pow_pos_nonneg; lia).
  assert (2 ^ 104 <= m' /\ m' <= 2 ^ 106 - 2 ^ 53) as Hm'.
  { unfold m'.
    assert (2 ^ (d - 1) * 2 ^ s = 2 ^ (d + s - 1)) as E1
      by (rewrite <- Z.pow_add_r by lia; f_equal; lia).
    assert (2 ^ d * 2 ^ s = 2 ^ (d + s)) as E2
      by (rewrite <- Z.pow_add_r by lia; f_equal; lia).
    assert (2 ^ 104 <= 2 ^ (d + s - 1)) by (apply Z.pow_le_mono_r; lia).
    split; [nia|].
    assert (Zpos m * 2 ^ s <= 2 ^ (d + s) - 2 ^ s) by nia.
    destruct (Z.eq_dec (d + s) 106) as [E|E].
    - rewrite E in *. assert (2 ^ 53 <= 2 ^ s) by (apply Z.pow_le_mono_r; lia). lia.
    - assert (d + s = 105) as E' by lia. rewrite E' in *. lia. }
  pose proof (Z.sqrtrem_spec m' ltac:(lia)) as Hsq.
  destruct (Z.sqrtrem m') as [q r]. destruct Hsq as [Hqr Hr].
  assert (2 ^ 52 <= q < 2 ^ 53) as Hq by nia.
  destruct q as [|pq|pq] eqn:Eq; try lia.
  set (l := if r =? 0 then loc_Exact else loc_Inexact (if r <=? Zpos pq then Lt else Gt)).
  assert (Zpos (digits2_pos pq) = 53) as Dq by (apply digits2_pos_unique; lia).
  destruct (binary_round_aux_normal pq e' l) as (m2 & _ & Hm2 & Hrnd & ->);
    [lia|unfold e'; lia|].
  rewrite Dq in *. change (2 ^ (53 - 53)) with 1 in Hm2. rewrite Z.div_1_r in Hm2.
  specialize (Hrnd eq_refl).
  replace (53 + e' - 53) with e' by lia.
  assert (m2 * m2 - m2 <= m' <= m2 * m2 + m2 /\ m2 < 2 ^ 53) as [Hnear Hlt].
  { subst m2 l. unfold round_nearest_even.
    destruct (r =? 0) eqn:Er0; [apply Z.eqb_eq in Er0; nia|].
    apply Z.eqb_neq in Er0.
    destruct (r <=? Zpos pq) eqn:Erq; [apply Z.leb_le in Erq; nia|].
    apply Z.leb_gt in Erq.
    split; [nia|].
    destruct (Z_lt_le_dec (Zpos pq + 1) (2 ^ 53)) as [H|H]; [exact H|exfalso].
    assert (Zpos pq = 2 ^ 53 - 1) as Hpq by lia.
    rewrite Hpq in *. lia. }
  exists m2.
  replace (m2 <? 2 ^ 53) with true by (symmetry; apply Z.ltb_lt; lia).
  replace (e' <=? 971) with true by (symmetry; apply Z.leb_le; unfold e'; lia).
  split; [reflexivity|]. split; [lia|]. split; [exact Hs|exact Hnear].
Qed.

(** A canonical mantissa of at least [2^52] has 53 digits. *)
Lemma normal_digits m e :
  bounded prec emax m e = true -> 2 ^ 52 <= Zpos m ->
  Zpos (digits2_pos m) = 53 /\ Zpos m < 2 ^ 53 /\ -1074 <= e <= 971.
Proof.
  intros B Hm.
  pose proof (bounded_canonical m e B) as Hc. rewrite fexp_value in Hc.
  pose proof (digits2_pos_bounds m) as [Blo Bhi].
  assert (53 <= Zpos (digits2_pos m)) as Hd.
  { destruct (Z_lt_le_dec (Zpos (digits2_pos m)) 53) as [H|H]; [|exact H].
    assert (2 ^ Zpos (digits2_pos m) <= 2 ^ 52) by (apply Z.pow_le_mono_r; lia). lia. }
  assert (Zpos (digits2_pos m) = 53) as D by lia.
  rewrite D in Bhi. split; [exact D|]. split; [exact Bhi|].
  unfold bounded in B. apply andb_prop in B as [_ B]. apply Z.leb_le in B.
  change (emax - prec) with 971 in B. lia.
Qed.

(** The rounded square root of a normal number. *)
Lemma SFsqrt_normal m e :
  bounded prec emax m e = true -> 2 ^ 52 <= Zpos m ->
  exists a,
    let e' := Z.div2 e - 26 in
    SFsqrt prec emax (S754_finite false m e) = S754_finite false (Z.to_pos a) e'
    /\ 2 ^ 52 <= a < 2 ^ 53
    /\ 52 <= e - 2 * e' <= 53
    /\ a * a - a <= Zpos m * 2 ^ (e - 2 * e') <= a * a + a.
Proof.
  intros B Hm. destruct (normal_digits m e B Hm) as (D & _ & _).
  destruct (SFsqrt_bounded m e B) as (a & Hsqrt & Ha & Hs & Hnear).
  cbv zeta in Hsqrt, Hs, Hnear. rewrite D in Hsqrt, Hs, Hnear.
  assert (Z.div2 (53 + e + 1) - 53 = Z.div2 e - 26) as E.
  { rewrite !Z.div2_div. replace (53 + e + 1) with (e + 27 * 2) by lia.
    rewrite Z.div_add by lia. lia. }
  rewrite E in Hsqrt, Hs, Hnear.
  exists a. cbv zeta. split; [exact Hsqrt|]. split; [exact Ha|].
  split; [lia|exact Hnear].
Qed.

Lemma rounded_near t m2 X p :
  0 < X -> t <= m2 <= t + 1 -> t * X <= p < (t + 1) * X ->
  m2 * X - X <= p <= m2 * X + X.
Proof.
  intros HX Hm Hp. assert (m2 = t \/ m2 = t + 1) as [-> | ->] by lia; lia.
Qed.

Lemma scaled_ge t m2 X : 0 < X -> 2 ^ 52 <= t -> t <= m2 -> 2 ^ 52 * X <= m2 * X.
Proof. intros HX Ht Hm. apply Z.mul_le_mono_nonneg_r; lia. Qed.

(** The rounded square of a number with a 53-digit mantissa, away from the
    ends of the exponent range: the result is finite, and its mantissa,
    scaled to the unit of the exact square, is within one unit in the last
    place of the exact square. *)
Lemma SFmul_square a e :
  2 ^ 52 <= a < 2 ^ 53 -> -563 <= e <= 459 ->
  exists mp ep ulp,
    SFmul prec emax (S754_finite false (Z.to_pos a) e) (S754_finite false (Z.to_pos a) e)
    = S754_finite false mp ep
    /\ 2 ^ 52 <= Zpos mp < 2 ^ 53
    /\ 52 <= ep - 2 * e <= 54
    /\ 0 < ulp
    /\ 2 ^ 52 * ulp <= Zpos mp * 2 ^ (ep - 2 * e)
    /\ Zpos mp * 2 ^ (ep - 2 * e) - ulp <= a * a <= Zpos mp * 2 ^ (ep - 2 * e) + ulp.
Proof.
  intros Ha He. unfold SFmul. cbn [xorb].
  destruct a as [|pa|pa] eqn:Ea; try lia. rewrite Pos2Z.id.
  set (p := (pa * pa)%positive).
  assert (Zpos p = Zpos pa * Zpos pa) as Hp by reflexivity.
  assert (2 ^ 104 <= Zpos p < 2 ^ 106) as Hp2 by nia.
  set (d := Zpos (digits2_pos p)).
  pose proof (digits2_pos_bounds p) as [Blo Bhi]. fold d in Blo, Bhi.
  assert (d = 105 \/ d = 106) as Hd.
  { destruct (Z_lt_le_dec d 105) as [H|H].
    - assert (2 ^ d <= 2 ^ 104) by (apply Z.pow_le_mono_r; lia). lia.
    - destruct (Z_lt_le_dec 106 d) as [H'|H']; [|lia].
      assert (2 ^ 106 <= 2 ^ (d - 1)) by (apply Z.pow_le_mono_r; lia). lia. }
  destruct (binary_round_aux_normal p (e + e) loc_Exact) as (m2 & Ht & Hm2 & _ & ->);
    fold d; [lia|lia|].
  fold d in Ht, Hm2.
  set (k := d - 53) in *.
  set (t := Zpos p / 2 ^ k) in *.
  assert (0 < 2 ^ k) as Hk by (apply Z.pow_pos_nonneg; lia).
  assert (t * 2 ^ k <= Zpos p < (t + 1) * 2 ^ k) as Hdiv.
  { unfold t. pose proof (Z.div_mod (Zpos p) (2 ^ k) ltac:(lia)) as E.
    pose proof (Z.mod_pos_bound (Zpos p) (2 ^ k) Hk). nia. }
  replace (d + (e + e) - 53) with (k + 2 * e) by (unfold k; lia).
  destruct (m2 <? 2 ^ 53) eqn:Elt.
  - apply Z.ltb_lt in Elt.
    replace (k + 2 * e <=? 971) with true by (symmetry; apply Z.leb_le; unfold k; lia).
    exists (Z.to_pos m2), (k + 2 * e), (2 ^ k).
    rewrite Z2Pos.id by lia.
    replace (k + 2 * e - 2 * e) with k by lia.
    split; [reflexivity|]. split; [lia|]. split; [unfold k; lia|].
    split; [exact Hk|]. split; [apply (scaled_ge t); lia|]. rewrite <- Hp.
    apply (rounded_near t); [exact Hk|lia|exact Hdiv].
  - apply Z.ltb_ge in Elt.
    assert (m2 = 2 ^ 53) as E53 by lia.
    assert (d = 105) as Hd105.
    { destruct Hd as [H|H]; [exact H|exfalso].
      assert (k = 53) as Hk53 by (unfold k; lia).
      assert (t = 2 ^ 53 - 1) as Ht' by lia.
      rewrite Hk53, Ht' in Hdiv.
      assert (Zpos pa <= 2 ^ 53 - 1) by lia.
      assert (Zpos p <= (2 ^ 53 - 1) * (2 ^ 53 - 1)) by nia.
      lia. }
    replace (k + 2 * e + 1 <=? 971) with true
      by (symmetry; apply Z.leb_le; unfold k; lia).
    exists (Z.to_pos (2 ^ 52)), (k + 2 * e + 1), (2 ^ k).
    rewrite Z2Pos.id by lia.
    replace (k + 2 * e + 1 - 2 * e) with (k + 1) by lia.
    rewrite Z.pow_add_r by (unfold k; lia). change (2 ^ 1) with 2.
    split; [reflexivity|]. split; [lia|]. split; [unfold k; lia|].
    split; [exact Hk|].
    replace (2 ^ 52 * (2 ^ k * 2)) with (2 ^ 53 * 2 ^ k) by lia. rewrite <- E53.
    split; [apply (scaled_ge t); lia|]. rewrite <- Hp.
    apply (rounded_near t); [exact Hk|lia|exact Hdiv].
Qed.

(** The rounded quotient of two numbers with 53-digit mantissas whose
    exponents differ by at most two. *)
Lemma SFdiv_normal m e mp ep :
  2 ^ 52 <= Zpos m < 2 ^ 53 -> 2 ^ 52 <= Zpos mp < 2 ^ 53 ->
  -2 <= e - ep <= 2 ->
  exists mr er ulp,
    SFdiv prec emax (S754_finite false m e) (S754_finite false mp ep)
    = S754_finite false mr er
    /\ 2 ^ 52 <= Zpos mr < 2 ^ 53
    /\ 0 <= er - (e - ep - 53) <= 2
    /\ 0 < ulp
    /\ 2 ^ 52 * ulp <= Zpos mr * 2 ^ (er - (e - ep - 53))
    /\ (Zpos mr * 2 ^ (er - (e - ep - 53)) - ulp) * Zpos mp
       <= Zpos m * 2 ^ 53
       <= (Zpos mr * 2 ^ (er - (e - ep - 53)) + ulp) * Zpos mp.
Proof.
  intros Hm Hmp He. unfold SFdiv, SFdiv_core_binary. cbn [xorb Zdigits2].
  rewrite (digits2_pos_unique m 53), (digits2_pos_unique mp 53) by lia.
  rewrite fexp_value.
  replace (Z.min (Z.max (53 + e - (53 + ep) - 53) (-1074)) (e - ep)) with (e - ep - 53)
    by lia.
  replace (e - ep - (e - ep - 53)) with 53 by lia. cbv iota zeta.
  rewrite Z.shiftl_mul_pow2 by lia.
  set (m' := Zpos m * 2 ^ 53).
  pose proof (Z_div_mod m' (Zpos mp) ltac:(lia)) as Hdm.
  destruct (Z.div_eucl m' (Zpos mp)) as [q r]. destruct Hdm as [Hqr Hr].
  assert (2 ^ 105 <= m' < 2 ^ 106) as Hm' by (unfold m'; lia).
  assert (2 ^ 52 <= q < 2 ^ 54) as Hq by nia.
  destruct q as [|pq|pq] eqn:Eq; try lia.
  set (d := Zpos (digits2_pos pq)).
  pose proof (digits2_pos_bounds pq) as [Blo Bhi]. fold d in Blo, Bhi.
  assert (d = 53 \/ d = 54) as Hd.
  { destruct (Z_lt_le_dec d 53) as [H|H].
    - assert (2 ^ d <= 2 ^ 52) by (apply Z.pow_le_mono_r; lia). lia.
    - destruct (Z_lt_le_dec 54 d) as [H'|H']; [|lia].
      assert (2 ^ 54 <= 2 ^ (d - 1)) by (apply Z.pow_le_mono_r; lia). lia. }
  destruct (binary_round_aux_normal pq (e - ep - 53) (new_location (Zpos mp) r))
    as (m2 & Ht & Hm2 & _ & ->); fold d; [lia|lia|].
  fold d in Ht, Hm2.
  set (k := d - 53) in *.
  set (t := Zpos pq / 2 ^ k) in *.
  assert (0 < 2 ^ k) as Hk by (apply Z.pow_pos_nonneg; lia).
  assert (t * 2 ^ k <= Zpos pq /\ Zpos pq + 1 <= (t + 1) * 2 ^ k) as Hdiv.
  { unfold t. pose proof (Z.div_mod (Zpos pq) (2 ^ k) ltac:(lia)) as E.
    pose proof (Z.mod_pos_bound (Zpos pq) (2 ^ k) Hk). nia. }
  replace (d + (e - ep - 53) - 53) with (k + (e - ep - 53)) by (unfold k; lia).
  assert (t * 2 ^ k * Zpos mp <= m' <= (t + 1) * 2 ^ k * Zpos mp) as Hx by nia.
  destruct (m2 <? 2 ^ 53) eqn:Elt.
  - apply Z.ltb_lt in Elt.
    replace (k + (e - ep - 53) <=? 971) with true
      by (symmetry; apply Z.leb_le; unfold k; lia).
    exists (Z.to_pos m2), (k + (e - ep - 53)), (2 ^ k).
    rewrite Z2Pos.id by lia.
    replace (k + (e - ep - 53) - (e - ep - 53)) with k by lia.
    split; [reflexivity|]. split; [lia|]. split; [unfold k; lia|].
    split; [exact Hk|]. split; [apply (scaled_ge t); lia|]. fold m'.
    assert (m2 = t \/ m2 = t + 1) as [-> | ->] by lia; nia.
  - apply Z.ltb_ge in Elt.
    assert (m2 = 2 ^ 53) as E53 by lia.
    replace (k + (e - ep - 53) + 1 <=? 971) with true
      by (symmetry; apply Z.leb_le; unfold k; lia).
    exists (Z.to_pos (2 ^ 52)), (k + (e - ep - 53) + 1), (2 ^ k).
    rewrite Z2Pos.id by lia.
    replace (k + (e - ep - 53) + 1 - (e - ep - 53)) with (k + 1) by lia.
    rewrite Z.pow_add_r by (unfold k; lia). change (2 ^ 1) with 2.
    split; [reflexivity|]. split; [lia|]. split; [unfold k; lia|].
    split; [exact Hk|].
    replace (2 ^ 52 * (2 ^ k * 2)) with (2 ^ 53 * 2 ^ k) by lia. rewrite <- E53.
    split; [apply (scaled_ge t); lia|]. fold m'.
    assert (m2 = t \/ m2 = t + 1) as [-> | ->] by lia; nia.
Qed.

(** A quantity within [ulp] of [x], where [2^52 * ulp <= x]: relative error
    at most [2^-52], without division. *)
Lemma relative_error x y ulp :
  0 < ulp -> 2 ^ 52 * ulp <= x -> x - ulp <= y <= x + ulp ->
  (2 ^ 52 - 1) * x <= 2 ^ 52 * y <= (2 ^ 52 + 1) * x.
Proof. intros. lia. Qed.

(** The three roundings of [n / (sqrt n * sqrt n)] together: the result,
    scaled, lies between [(1 - u)^2 / (1 + u)] and [(1 + u)^2 / (1 - u)]
    for [u = 2^-52]. *)
Lemma self_quotient_bounds a M B U Y V MP N53 S2 Kp :
  2 ^ 52 <= a ->
  a * a - a <= M <= a * a + a ->
  0 < U -> 2 ^ 52 * U <= B -> B - U <= a * a <= B + U ->
  0 < V -> 2 ^ 52 * V <= Y -> (Y - V) * MP <= N53 <= (Y + V) * MP ->
  0 < MP -> 0 < S2 -> 0 < Kp ->
  forall Mn, M = Mn * S2 -> N53 = Mn * 2 ^ 53 -> B = MP * Kp ->
  (2 ^ 52 - 1) * 2 ^ 52 * (Y * S2) <= (2 ^ 52 + 1) * (2 ^ 52 + 1) * (2 ^ 53 * Kp)
  /\ (2 ^ 52 - 1) * (2 ^ 52 - 1) * (2 ^ 53 * Kp) <= (2 ^ 52 + 1) * 2 ^ 52 * (Y * S2).
Proof.
  intros Ha HM HU HUB HB HV HVY HD HMP HS2 HKp Mn EM EN EB.
  set (w := 2 ^ 52) in *.
  assert (0 < w) as Hw by (unfold w; lia).
  (* sqrt: relative error of a * a with respect to M *)
  assert ((w - 1) * (a * a) <= w * M <= (w + 1) * (a * a)) as H1 by nia.
  (* product *)
  assert ((w - 1) * B <= w * (a * a) <= (w + 1) * B) as H2
    by (apply (relative_error B (a * a) U); assumption).
  (* quotient *)
  assert ((w - 1) * (Y * MP) <= w * N53 <= (w + 1) * (Y * MP)) as H3 by nia.
  assert (0 <= B) as HB0 by nia.
  assert (0 <= Y) as HY0 by nia.
  assert (0 <= a * a) as Haa by nia.
  assert (0 <= M) as HM0 by nia.
  assert (0 <= Mn) as HMn by nia.
  (* w^2 M between (w-1)^2 B and (w+1)^2 B *)
  assert ((w - 1) * (w - 1) * B <= w * w * M <= (w + 1) * (w + 1) * B) as H12.
  { split.
    - apply Z.le_trans with ((w - 1) * (w * (a * a))); [nia|nia].
    - apply Z.le_trans with ((w + 1) * (w * (a * a))); [nia|nia]. }
  subst M N53 B.
  split.
  - (* (w-1) w Y S2 MP <= w^2 Mn 2^53 S2 ... <= (w+1)^2 2^53 MP Kp *)
    apply (Z.mul_le_mono_pos_r _ _ (w * MP)); [nia|].
    apply Z.le_trans with (w * w * (Mn * S2) * (w * 2 ^ 53)).
    + replace ((w - 1) * w * (Y * S2) * (w * MP))
        with ((w - 1) * (Y * MP) * (w * w * S2)) by ring.
      replace (w * w * (Mn * S2) * (w * 2 ^ 53))
        with (w * (Mn * 2 ^ 53) * (w * w * S2)) by ring.
      apply Z.mul_le_mono_nonneg_r; [nia|apply H3].
    + replace ((w + 1) * (w + 1) * (2 ^ 53 * Kp) * (w * MP))
        with ((w + 1) * (w + 1) * (MP * Kp) * (w * 2 ^ 53)) by ring.
      apply Z.mul_le_mono_nonneg_r; [nia|apply H12].
  - apply (Z.mul_le_mono_pos_r _ _ (w * MP)); [nia|].
    apply Z.le_trans with (w * w * (Mn * S2) * (w * 2 ^ 53)).
    + replace ((w - 1) * (w - 1) * (2 ^ 53 * Kp) * (w * MP))
        with ((w - 1) * (w - 1) * (MP * Kp) * (w * 2 ^ 53)) by ring.
      apply Z.mul_le_mono_nonneg_r; [nia|apply H12].
    + replace ((w + 1) * w * (Y * S2) * (w * MP))
        with ((w + 1) * (Y * MP) * (w * w * S2)) by ring.
      replace (w * w * (Mn * S2) * (w * 2 ^ 53))
        with (w * (Mn * 2 ^ 53) * (w * w * S2)) by ring.
      apply Z.mul_le_mono_nonneg_r; [nia|apply H3].
Qed.

(** [n / (sqrt n * sqrt n)] on the specification side, for a normal [n]: the
    result is one of the four numbers from 1 to [1 + 3 * 2^-52] or one of
    the five numbers from [1 - 5 * 2^-53] to [1 - 2^-53]. *)
Lemma SF_self_quotient m e :
  bounded prec emax m e = true -> 2 ^ 52 <= Zpos m ->
  let n := S754_finite false m e in
  exists mr er,
    SFdiv prec emax n (SFmul prec emax (SFsqrt prec emax n) (SFsqrt prec emax n))
    = S754_finite false mr er
    /\ ((er = -52 /\ 2 ^ 52 <= Zpos mr <= 2 ^ 52 + 3)
        \/ (er = -53 /\ 2 ^ 53 - 5 <= Zpos mr < 2 ^ 53)).
Proof.
  intros B Hm n.
  destruct (normal_digits m e B Hm) as (_ & Hhi & He).
  destruct (SFsqrt_normal m e B Hm) as (a & Hsqrt & Ha & Hs & HS).
  cbv zeta in Hsqrt, Hs, HS.
  set (e' := Z.div2 e - 26) in *.
  assert (-563 <= e' <= 459) as He'.
  { unfold e'. rewrite Z.div2_div.
    pose proof (Z.div_mod e 2 ltac:(lia)). pose proof (Z.mod_pos_bound e 2 ltac:(lia)).
    lia. }
  destruct (SFmul_square a e' Ha He') as (mp & ep & U & Hmul & Hmp & Hkp & HU & HUB & HB).
  destruct (SFdiv_normal m e mp ep ltac:(lia) Hmp ltac:(lia))
    as (mr & er & V & Hdiv & Hmr & Hk3 & HV & HVY & HD).
  exists mr, er. unfold n. rewrite Hsqrt, Hmul, Hdiv. split; [reflexivity|].
  set (s := e - 2 * e') in *. set (kp := ep - 2 * e') in *.
  set (k3 := er - (e - ep - 53)) in *.
  assert (er = k3 + s - kp - 53) as Her by (unfold k3, s, kp; lia).
  assert (0 < 2 ^ s) as Hps by (apply Z.pow_pos_nonneg; lia).
  assert (0 < 2 ^ kp) as Hpk by (apply Z.pow_pos_nonneg; lia).
  destruct (self_quotient_bounds a (Zpos m * 2 ^ s) (Zpos mp * 2 ^ kp) U
              (Zpos mr * 2 ^ k3) V (Zpos mp) (Zpos m * 2 ^ 53) (2 ^ s) (2 ^ kp)
              ltac:(lia) HS HU HUB HB HV HVY HD ltac:(lia) Hps Hpk
              (Zpos m) eq_refl eq_refl eq_refl) as [Hup Hlo].
  clear HS HB HD HUB HVY Hsqrt Hmul Hdiv.
  assert (s = 52 \/ s = 53) as Es by lia.
  assert (kp = 52 \/ kp = 53 \/ kp = 54) as Ek by lia.
  assert (k3 = 0 \/ k3 = 1 \/ k3 = 2) as E3 by lia.
  clearbody s kp k3.
  destruct Es as [-> | ->], Ek as [-> | [-> | ->]], E3 as [-> | [-> | ->]];
    subst er; lia.
Qed.

(** The square of the rounded root of a subnormal number rounds back to the
    number. *)
Lemma SFsqrt_square_subnormal m e :
  bounded prec emax m e = true -> Zpos m < 2 ^ 52 ->
  let n := S754_finite false m e in
  SFmul prec emax (SFsqrt prec emax n) (SFsqrt prec emax n) = n.
Proof.
  intros B Hm n. unfold n.
  destruct (bounded_digits m e B) as (Hd & He & Hsub).
  destruct (SFsqrt_bounded m e B) as (a & -> & Ha & Hs & Hnear).
  set (d := Zpos (digits2_pos m)) in *.
  pose proof (digits2_pos_bounds m) as [Blo Bhi]. fold d in Blo, Bhi.
  assert (d <= 52) as Hd52.
  { destruct (Z_le_gt_dec d 52) as [H|H]; [exact H|].
    assert (2 ^ 52 <= 2 ^ (d - 1)) by (apply Z.pow_le_mono_r; lia). lia. }
  assert (e = -1074) as -> by (apply Hsub; lia).
  set (e' := Z.div2 (d + -1074 + 1) - 53) in *.
  set (s := -1074 - 2 * e') in *.
  assert (54 <= s) as Hs54.
  { assert (2 * Z.div2 (d + -1074 + 1) <= d + -1074 + 1 <= 2 * Z.div2 (d + -1074 + 1) + 1) as Hh.
    { rewrite Z.div2_div. pose proof (Z.div_mod (d + -1074 + 1) 2 ltac:(lia)).
      pose proof (Z.mod_pos_bound (d + -1074 + 1) 2 ltac:(lia)). lia. }
    destruct (Z.eq_dec d 52) as [E|E]; [|lia].
    (* d = 52: d - 1073 is odd *)
    unfold s, e'. rewrite E. change (Z.div2 (52 + -1074 + 1)) with (-511). lia. }
  unfold SFmul. cbn [xorb].
  destruct a as [|pa|pa] eqn:Ea; try lia. rewrite Pos2Z.id.
  set (p := (pa * pa)%positive).
  assert (Zpos p = Zpos pa * Zpos pa) as Hp by reflexivity.
  assert (2 ^ 104 <= Zpos p < 2 ^ 106) as Hp2 by nia.
  set (D := Zpos (digits2_pos p)).
  pose proof (digits2_pos_bounds p) as [Plo Phi]. fold D in Plo, Phi.
  assert (D <= 106) as HD.
  { destruct (Z_le_gt_dec D 106) as [H|H]; [exact H|].
    assert (2 ^ 106 <= 2 ^ (D - 1)) by (apply Z.pow_le_mono_r; lia). lia. }
  assert (0 < 2 ^ (s - 1)) as Hh by (apply Z.pow_pos_nonneg; lia).
  assert (2 ^ 53 <= 2 ^ (s - 1)) as Hhalf by (apply Z.pow_le_mono_r; lia).
  unfold binary_round_aux, shr_fexp at 1, shr. cbn [Zdigits2]. fold D.
  rewrite fexp_value.
  replace (Z.max (D + (e' + e') - 53) (-1074) - (e' + e')) with s by (unfold s; lia).
  destruct s as [|ps|ps] eqn:Es; try lia.
  pose proof (shr_round_nearest (Zpos p) ps (Zpos m) ltac:(lia) ltac:(lia)) as Hrnd.
  cbv zeta in Hrnd. rewrite Hrnd by (rewrite Hp; nia).
  replace (e' + e' + Zpos ps) with (-1074) by lia.
  unfold shr_fexp, shr. cbn [Zdigits2]. fold d. rewrite fexp_value.
  replace (Z.max (d + -1074 - 53) (-1074) - -1074) with 0 by lia.
  cbn [shr_record_of_loc shr_m]. reflexivity.
Qed.

(** A finite number above zero is positive with a canonical mantissa. *)
Lemma positive_spec (n : float) :
  is_finite n = true -> (0 <? n)%float = true ->
  exists m e, Prim2SF n = S754_finite false m e /\ bounded prec emax m e = true.
Proof.
  intros Hf Hlt.
  pose proof (FloatAxioms.Prim2SF_valid n) as Hv.
  rewrite FloatAxioms.ltb_spec in Hlt.
  change (Prim2SF 0%float) with (S754_zero false) in Hlt.
  unfold is_finite, is_nan, is_infinity in Hf.
  rewrite !FloatAxioms.eqb_spec, FloatAxioms.abs_spec in Hf.
  destruct (Prim2SF n) as [s|s| |s m e]; try discriminate.
  - destruct s; discriminate.
  - destruct s; [discriminate|]. exists m, e. split; [reflexivity|exact Hv].
Qed.

End FloatFacts.

(* ===================================================================== *)
(** * Properties of the chunker *)
(* ===================================================================== *)

Module DocumentProcessorFacts.

Import DocumentProcessor ChunkerExamples.

(** One pass through the loop body: when the first window yields a non-empty
    chunk and the next start index does not exceed that chunk's length, the
    [break] fires and the chunk is the whole result. *)
Lemma chunkText_breaks_after_first_window fuel cfg text :
  chunkSize cfg < len text ->
  let endIndex := windowEnd cfg text 0 in
  let c := trim (substring text 0 endIndex) in
  0 < len c ->
  endIndex - chunkOverlap cfg <= len c ->
  chunkText (S fuel) cfg text = Some [c].
Proof.
  intros Hlong endIndex c Hne Hstop.
  unfold chunkText.
  destruct (len text <=? chunkSize cfg) eqn:E; [apply Z.leb_le in E; lia|].
  simpl.
  destruct (0 <? len text) eqn:E0.
  2:{ apply Z.ltb_ge in E0.
      destruct text as [|x text]; [|unfold len in E0; simpl in E0; lia].
      subst c. unfold substring in Hne. rewrite drop_nil, take_nil in Hne.
      vm_compute in Hne. discriminate. }
  simpl. fold endIndex. fold c.
  replace (0 <? len c) with true by (symmetry; now apply Z.ltb_lt).
  simpl. unfold stopsLoop. simpl.
  replace (endIndex - chunkOverlap cfg <=? len c) with true
    by (symmetry; now apply Z.leb_le).
  reflexivity.
Qed.

(** ** Texts without whitespace *)

Lemma startsWith_whitespace_free pat s :
  Exists (fun c => isWhitespace c = true) pat ->
  Forall (fun c => isWhitespace c = false) s ->
  startsWith pat s = false.
Proof.
  intros Hpat. revert s. induction Hpat as [p pat Hp|p pat Hpat IH]; intros s Hs.
  - destruct s as [|c s]; simpl; [reflexivity|].
    apply Forall_cons in Hs as [Hc _].
    destruct (decide (p = c)) as [->|]; [congruence|reflexivity].
  - destruct s as [|c s]; simpl; [reflexivity|].
    apply Forall_cons in Hs as [_ Hs].
    destruct (decide (p = c)); [now apply IH|reflexivity].
Qed.

Lemma lastIndexOfFrom_whitespace_free pat s : forall i acc,
  Exists (fun c => isWhitespace c = true) pat ->
  Forall (fun c => isWhitespace c = false) s ->
  lastIndexOfFrom pat s i acc = acc.
Proof.
  induction s as [|c s IH]; intros i acc Hpat Hs; simpl.
  - destruct pat; [inversion Hpat|reflexivity].
  - rewrite (startsWith_whitespace_free pat (c :: s) Hpat Hs).
    apply Forall_cons in Hs as [_ Hs]. now apply IH.
Qed.

Lemma lastSentenceEnd_whitespace_free s :
  Forall (fun c => isWhitespace c = false) s -> lastSentenceEnd s = -1.
Proof.
  intros Hs. unfold lastSentenceEnd, lastIndexOf.
  rewrite !lastIndexOfFrom_whitespace_free; try exact Hs; try reflexivity.
  - apply Exists_cons_hd. reflexivity.
  - apply Exists_cons_tl, Exists_cons_hd. reflexivity.
  - apply Exists_cons_tl, Exists_cons_hd. reflexivity.
  - apply Exists_cons_tl, Exists_cons_hd. reflexivity.
Qed.

Lemma trimStart_whitespace_free s :
  Forall (fun c => isWhitespace c = false) s -> trimStart s = s.
Proof. destruct 1 as [|c s Hc _]; simpl; [reflexivity|now rewrite Hc]. Qed.

Lemma trim_whitespace_free s :
  Forall (fun c => isWhitespace c = false) s -> trim s = s.
Proof.
  intros Hs. unfold trim, trimEnd. rewrite (trimStart_whitespace_free s Hs).
  rewrite trimStart_whitespace_free; [apply rev_involutive|].
  rewrite Forall_forall in *. intros c Hc. apply Hs.
  apply list_elem_of_In. apply in_rev. now apply list_elem_of_In.
Qed.

Lemma substring_prefix s n :
  0 <= n <= len s -> substring s 0 n = take (Z.to_nat n) s.
Proof.
  intros Hn. unfold substring, clamp, len in *.
  replace (Z.to_nat (Z.min (Z.max 0 0) (Z.of_nat (length s)))) with 0%nat by lia.
  replace (Z.to_nat (Z.min (Z.max n 0) (Z.of_nat (length s)))) with (Z.to_nat n) by lia.
  rewrite Nat.max_0_l, Nat.min_0_l, Nat.sub_0_r. reflexivity.
Qed.

(** On a text without whitespace that is longer than [chunkSize], whatever
    its length, the result is the first [chunkSize] characters and nothing
    else. *)
Lemma chunkText_keeps_only_first_window fuel cfg text :
  0 < chunkSize cfg -> 0 <= chunkOverlap cfg ->
  chunkSize cfg < len text ->
  Forall (fun c => isWhitespace c = false) text ->
  chunkText (S fuel) cfg text = Some [take (Z.to_nat (chunkSize cfg)) text].
Proof.
  intros Hsize Hov Hlong Hws.
  assert (Forall (fun c => isWhitespace c = false)
            (take (Z.to_nat (chunkSize cfg)) text)) as Hws'
    by (now apply Forall_take).
  assert (windowEnd cfg text 0 = chunkSize cfg) as Hend.
  { unfold windowEnd. rewrite Z.add_0_l.
    replace (chunkSize cfg <? len text) with true by (symmetry; now apply Z.ltb_lt).
    rewrite substring_prefix by lia.
    rewrite (lastSentenceEnd_whitespace_free _ Hws').
    replace (chunkSize cfg <? 2 * -1) with false by (symmetry; apply Z.ltb_ge; lia).
    reflexivity. }
  assert (trim (substring text 0 (windowEnd cfg text 0))
          = take (Z.to_nat (chunkSize cfg)) text) as Hchunk.
  { rewrite Hend, substring_prefix by lia. now apply trim_whitespace_free. }
  assert (len (take (Z.to_nat (chunkSize cfg)) text) = chunkSize cfg) as Hlen.
  { unfold len in *. rewrite length_take. lia. }
  rewrite <- Hchunk.
  apply chunkText_breaks_after_first_window; [exact Hlong| |]; rewrite Hchunk, Hlen;
    [lia|rewrite Hend; lia].
Qed.


(** C1: on a 1000-letter document with the default configuration the loop
    stops after its first window, so the result is the single chunk of the
    first 800 letters and the last 200 letters are in no chunk; the chunks do
    not cover the input. *)
Theorem chunkText_loses_tail : forall fuel,
  chunkSize defaultConfig < len longText
  /\ chunkText (S fuel) defaultConfig longText = Some [repeat "a"%char 800]
  /\ (length (repeat "a"%char 800) < length longText)%nat.
Proof.
  intros fuel. split; [vm_compute; reflexivity|]. split.
  - rewrite chunkText_keeps_only_first_window;
      [reflexivity|reflexivity|discriminate|reflexivity|].
    unfold longText. apply Forall_forall. intros c Hc.
    apply list_elem_of_In, repeat_spec in Hc. now subst c.
  - vm_compute. lia.
Qed.

End DocumentProcessorFacts.

(* ===================================================================== *)
(** * Properties of the vector store *)
(* ===================================================================== *)

Module VectorStoreFacts.

Import DocumentProcessor VectorStore StoreInvariant.

(** ** Initialization and loading *)

Lemma initialize_run w : initialize w = (Ok tt, afterInitialize w).
Proof.
  unfold initialize, afterInitialize. run_M.
  destruct (initialized (store w)); [reflexivity|].
  unfold load, readSnapshot, setInitialized. run_M.
  destruct (file (disk w)); reflexivity.
Qed.

Lemma initialize_never_throws w : fst (initialize w) = Ok tt.
Proof. now rewrite initialize_run. Qed.

Lemma load_run w :
  load w =
  let w' := {| store := store w; disk := disk w; trace := trace w ++ [ReadFile] |} in
  match file (disk w) with
  | Absent => (Throw ENOENT, w')
  | Unreadable => (Throw ReadError, w')
  | Unparsable => (Throw ParseError, w')
  | Parsed data =>
      (Ok tt, {| store := installSnapshot data (store w); disk := disk w;
                 trace := trace w ++ [ReadFile] |})
  end.
Proof.
  unfold load, readSnapshot. run_M. destruct (file (disk w)); reflexivity.
Qed.

(** A failing [load] assigns none of the store's fields. *)
Lemma load_failure_keeps_store w e :
  fst (load w) = Throw e -> store (snd (load w)) = store w.
Proof. rewrite load_run. destruct (file (disk w)); simpl; congruence. Qed.

(** [load] itself rethrows every failure, the missing file included. *)
Lemma load_throws_iff_no_snapshot w :
  (exists e, fst (load w) = Throw e) <-> (forall data, file (disk w) <> Parsed data).
Proof.
  rewrite load_run. destruct (file (disk w)); simpl; split;
    try (intros _; eexists; reflexivity); try congruence.
  - intros [e He]. discriminate.
  - intros H. now destruct (H data).
Qed.

(** With no snapshot file the first [initialize] leaves the store empty. *)
Lemma initialize_cold_start b :
  initialize (boot {| file := Absent; writable := b |})
  = (Ok tt, {| store := markInitialized emptyStore;
               disk := {| file := Absent; writable := b |};
               trace := [ReadFile] |}).
Proof. now rewrite initialize_run. Qed.

(** C8: when the snapshot file exists but cannot be read or parsed, [load]
    throws, yet [initialize] returns normally with the store left empty and
    marked initialized: the failure is swallowed like a missing file, not
    surfaced to the caller of [initialize]. *)
Theorem initialize_swallows_load_failures : forall f b,
  f = Unparsable \/ f = Unreadable ->
  let w := boot {| file := f; writable := b |} in
  (exists e, fst (load w) = Throw e /\ e <> ENOENT)
  /\ fst (initialize w) = Ok tt
  /\ store (snd (initialize w)) = markInitialized emptyStore.
Proof.
  intros f b Hf w. rewrite initialize_run. subst w.
  destruct Hf as [-> | ->]; (split; [eexists; split; [reflexivity|discriminate]|]);
    split; reflexivity.
Qed.

Lemma initialize_swallows_load_failures_witness :
  let w := boot {| file := Unparsable; writable := true |} in
  (exists e, fst (load w) = Throw e /\ e <> ENOENT)
  /\ fst (initialize w) = Ok tt
  /\ store (snd (initialize w)) = markInitialized emptyStore.
Proof. apply (initialize_swallows_load_failures Unparsable true). now left. Defined.

(** ** The invariant *)

Lemma triple_ret {A} (P : World -> Prop) (a : A) E :
  triple P (ret a) (fun _ => P) E.
Proof. intros w Hw. exact Hw. Qed.

Lemma triple_bind {A B} P (m : M A) (k : A -> M B) Q R E :
  triple P m Q E -> (forall a, triple (Q a) (k a) R E) ->
  triple P (bind m k) R E.
Proof.
  intros Hm Hk w Hw. unfold bind. specialize (Hm w Hw).
  destruct (m w) as [[a|e] w']; [apply (Hk a w' Hm)|exact Hm].
Qed.

Lemma triple_tryCatch {A} P (body : M A) handler Q E E' :
  triple P body Q E' -> (forall e, triple E' (handler e) Q E) ->
  triple P (tryCatch body handler) Q E.
Proof.
  intros Hb Hh w Hw. unfold tryCatch. specialize (Hb w Hw).
  destruct (body w) as [[a|e] w']; [exact Hb|apply (Hh e w' Hb)].
Qed.

Lemma triple_weaken {A} (P P' : World -> Prop) (m : M A) (Q Q' : A -> World -> Prop)
    (E E' : World -> Prop) :
  triple P' m Q' E' -> (forall w, P w -> P' w) ->
  (forall a w, Q' a w -> Q a w) -> (forall w, E' w -> E w) ->
  triple P m Q E.
Proof.
  intros H HP HQ HE w Hw. specialize (H w (HP w Hw)).
  destruct (m w) as [[a|e] w']; auto.
Qed.

Lemma keeps_snd {A} P (m : M A) w : keeps P m -> P w -> P (snd (m w)).
Proof.
  intros H Hw. specialize (H w Hw). destruct (m w) as [[a|e] w']; exact H.
Qed.

Lemma keeps_bind {A B} P (m : M A) (k : A -> M B) :
  keeps P m -> (forall a, keeps P (k a)) -> keeps P (bind m k).
Proof. intros Hm Hk. eapply triple_bind; [exact Hm|exact Hk]. Qed.

Lemma consistent_delete i s : consistent s -> consistent (splicePair i s).
Proof.
  unfold consistent, splicePair. simpl. intros H.
  destruct (decide (i < length (documents s))%nat) as [Hi|Hi].
  - rewrite !length_delete; [lia| |]; apply lookup_lt_is_Some; lia.
  - rewrite !delete_take_drop, !drop_ge, !take_ge by lia. now rewrite !app_nil_r.
Qed.

Lemma keeps_save : keeps sound save.
Proof.
  intros w [Hs Hf]. unfold save, writeSnapshot. run_M.
  destruct (writable (disk w)); simpl; split; simpl; auto.
Qed.

Lemma keeps_initialize : keeps sound initialize.
Proof.
  intros w [Hs Hf]. rewrite initialize_run. unfold afterInitialize.
  destruct (initialized (store w)); [now split|].
  split; simpl; [|exact Hf].
  destruct (file (disk w)); simpl in *; auto.
Qed.

Lemma keeps_load : keeps sound load.
Proof.
  intros w [Hs Hf]. rewrite load_run.
  destruct (file (disk w)) eqn:E; simpl; split; simpl; rewrite ?E; auto.
Qed.

Lemma keeps_pushPair d e : keeps sound (pushPair d e).
Proof.
  intros w [Hs Hf]. unfold pushPair. run_M. split; simpl; [|exact Hf].
  unfold consistent in *. simpl. rewrite !length_app. simpl. lia.
Qed.

Lemma keeps_generateEmbedding embed text (P : World -> Prop) :
  (forall w e, P w -> P {| store := store w; disk := disk w; trace := trace w ++ [e] |}) ->
  keeps P (generateEmbedding embed text).
Proof.
  intros HP w Hw. unfold generateEmbedding. run_M.
  destruct (embed text); apply HP, Hw.
Qed.

Lemma sound_emit w e :
  sound w -> sound {| store := store w; disk := disk w; trace := trace w ++ [e] |}.
Proof. intros [? ?]; now split. Qed.

Lemma keeps_indexLoop embed newDocs : keeps sound (indexLoop embed newDocs).
Proof.
  induction newDocs as [|d rest IH]; simpl.
  - intros w Hw. exact Hw.
  - apply keeps_bind; [apply keeps_generateEmbedding; intros; now apply sound_emit|].
    intros e. apply keeps_bind; [apply keeps_pushPair|]. intros _. exact IH.
Qed.

Lemma keeps_setIsIndexed b : keeps sound (setIsIndexed b).
Proof. intros w [Hs Hf]. unfold setIsIndexed. run_M. now split. Qed.

Lemma keeps_getStore (P : World -> Prop) : keeps P getStore.
Proof. intros w Hw. exact Hw. Qed.

Lemma keeps_indexDocuments embed docs : keeps sound (indexDocuments embed docs).
Proof.
  unfold indexDocuments.
  apply keeps_bind; [apply keeps_initialize|]. intros _.
  apply keeps_bind; [apply keeps_getStore|]. intros s.
  destruct (length (newDocsOf s docs) =? 0)%nat; [intros w Hw; exact Hw|].
  apply keeps_bind; [apply keeps_indexLoop|]. intros _.
  apply keeps_bind; [apply keeps_setIsIndexed|]. intros _. apply keeps_save.
Qed.

Lemma keeps_search embed q k : keeps sound (search embed q k).
Proof.
  unfold search.
  apply keeps_bind; [apply keeps_initialize|]. intros _.
  apply keeps_bind; [apply keeps_getStore|]. intros s.
  destruct (negb (isIndexed s) || (length (documents s) =? 0)%nat);
    [intros w Hw; exact Hw|].
  apply keeps_bind; [apply keeps_generateEmbedding; intros; now apply sound_emit|].
  intros qe. apply keeps_bind.
  - intros w Hw. unfold liftResult. destruct (scoreAll _ _ _); exact Hw.
  - intros scores w Hw. exact Hw.
Qed.

Lemma keeps_removeDocument docId : keeps sound (removeDocument docId).
Proof.
  intros w [Hs Hf]. unfold removeDocument. run_M.
  destruct (findIndex docId (documents (store w))) as [i|]; simpl; [|now split].
  unfold save, writeSnapshot. run_M.
  pose proof (consistent_delete i _ Hs) as Hd.
  destruct (writable (disk w)); simpl; split; simpl; auto.
Qed.

Lemma keeps_clear : keeps sound clear.
Proof.
  intros w [Hs Hf]. unfold clear, save, writeSnapshot. run_M.
  destruct (writable (disk w)); simpl; split; simpl; auto; reflexivity.
Qed.

Lemma keeps_discard {A} P (m : M A) : keeps P m -> keeps P (discard m).
Proof. intros H. apply keeps_bind; [exact H|]. intros a w Hw. exact Hw. Qed.

(** Every operation keeps the invariant, whether it returns or throws. *)
Lemma run_keeps_sound embed op : keeps sound (run embed op).
Proof.
  destruct op; simpl.
  - apply keeps_initialize.
  - apply keeps_indexDocuments.
  - apply keeps_discard, keeps_search.
  - apply keeps_discard, keeps_removeDocument.
  - apply keeps_clear.
  - apply keeps_save.
  - apply keeps_load.
Qed.

Lemma reachable_sound embed w : reachable embed w -> sound w.
Proof.
  induction 1 as [d Hd|w w' Hr IH Hstep].
  - split; [reflexivity|exact Hd].
  - destruct Hstep as [op w|w|b w].
    + apply keeps_snd; [apply run_keeps_sound|exact IH].
    + destruct IH as [_ Hf]. split; [reflexivity|exact Hf].
    + destruct IH as [Hs Hf]. now split.
Qed.

(** ** The pairing of documents and embeddings *)

Section Pairing.
Variable embed : jsstr -> result (list float).

















End Pairing.



(** ** Incremental indexing *)

Lemma afterInitialize_initialized w : initialized (store (afterInitialize w)) = true.
Proof.
  unfold afterInitialize. destruct (initialized (store w)) eqn:E; [exact E|reflexivity].
Qed.

Lemma afterInitialize_idem w : initialized (store w) = true -> afterInitialize w = w.
Proof. unfold afterInitialize. now intros ->. Qed.

(** [indexDocuments] on a one-chunk batch, case by case. *)
Lemma indexDocuments_single embed c w :
  let w0 := afterInitialize w in
  indexDocuments embed [c] w =
  if decide (id c ∈ existingIds (store w0)) then (Ok tt, w0)
  else match embed (textToEmbed c) with
       | Throw e =>
           (Throw e, {| store := store w0; disk := disk w0;
                        trace := trace w0 ++ [Embed (textToEmbed c)] |})
       | Ok e => save (appended c e w0)
       end.
Proof.
  intros w0. unfold indexDocuments. run_M. rewrite initialize_run. fold w0.
  unfold newDocsOf. rewrite filter_cons, filter_nil.
  destruct (decide (id c ∈ existingIds (store w0))) as [Hin|Hout].
  - rewrite decide_False by (intros H; now apply H). reflexivity.
  - rewrite decide_True by exact Hout. simpl.
    unfold generateEmbedding, pushPair, setIsIndexed. run_M.
    destruct (embed (textToEmbed c)) as [e|err]; reflexivity.
Qed.

Lemma save_store w : store (snd (save w)) = store w.
Proof.
  unfold save, writeSnapshot. run_M. now destruct (writable (disk w)).
Qed.

Lemma save_trace w : trace (snd (save w)) = trace w ++ [WriteFile].
Proof.
  unfold save, writeSnapshot. run_M. now destruct (writable (disk w)).
Qed.

Lemma elem_of_existingIds s x : x ∈ existingIds s <-> x ∈ map id (documents s).
Proof. unfold existingIds. apply elem_of_list_to_set. Qed.

(** A batch whose only chunk has an id already in the store changes nothing:
    no embedding is requested, nothing is appended and nothing is written. *)
Lemma indexDocuments_skips_known embed c w :
  initialized (store w) = true ->
  id c ∈ map id (documents (store w)) ->
  indexDocuments embed [c] w = (Ok tt, w).
Proof.
  intros Hi Hin. rewrite indexDocuments_single, afterInitialize_idem by exact Hi.
  rewrite decide_True by (now apply elem_of_existingIds). reflexivity.
Qed.

(** C5: index a one-chunk batch [c], then a one-chunk batch [c'] with the
    same id.  The first call adds at most one document to the store as it
    stands after initialization; if [c] is then in the store (as it is
    whenever the first call returned normally) the second call returns
    without touching the world at all: nothing is embedded, appended or
    written.  In every case the two calls together add at most one
    document, and exactly one when the id was new and its text could be
    embedded. *)
Theorem reingestion_is_idempotent embed (c c' : Chunk) (w : World) :
  id c' = id c ->
  let w0 := afterInitialize w in
  let w1 := snd (indexDocuments embed [c] w) in
  let w2 := snd (indexDocuments embed [c'] w1) in
  (totalDocuments (store w1) <= totalDocuments (store w0) + 1)%nat
  /\ (fst (indexDocuments embed [c] w) = Ok tt ->
      id c ∈ map id (documents (store w1)))
  /\ (id c ∈ map id (documents (store w1)) ->
      indexDocuments embed [c'] w1 = (Ok tt, w1)
      /\ totalDocuments (store w2) = totalDocuments (store w1)
      /\ totalEmbeddings (store w2) = totalEmbeddings (store w1)
      /\ emitted (indexDocuments embed [c']) w1 = [])
  /\ (totalDocuments (store w2) <= totalDocuments (store w0) + 1)%nat
  /\ (id c ∉ map id (documents (store w0)) ->
      forall e, embed (textToEmbed c) = Ok e ->
      documents (store w1) = documents (store w0) ++ [c]
      /\ embeddings (store w1) = embeddings (store w0) ++ [e]
      /\ totalDocuments (store w2) = (totalDocuments (store w0) + 1)%nat).
Proof.
  intros Hid w0 w1 w2.
  assert (initialized (store w1) = true) as Hinit1.
  { unfold w1. rewrite indexDocuments_single. fold w0.
    pose proof (afterInitialize_initialized w) as H0. fold w0 in H0.
    destruct (decide _); [exact H0|].
    destruct (embed (textToEmbed c)); [|exact H0].
    rewrite save_store. exact H0. }
  assert (id c ∈ map id (documents (store w1)) ->
          indexDocuments embed [c'] w1 = (Ok tt, w1)) as Hskip.
  { intros Hin. apply indexDocuments_skips_known; [exact Hinit1|]. now rewrite Hid. }
  assert (totalDocuments (store w1) <= totalDocuments (store w0) + 1)%nat as H1.
  { unfold w1. rewrite indexDocuments_single. fold w0.
    destruct (decide _); [simpl; lia|].
    destruct (embed (textToEmbed c)); [|simpl; lia].
    rewrite save_store. unfold totalDocuments. simpl. rewrite length_app. simpl. lia. }
  assert (fst (indexDocuments embed [c] w) = Ok tt ->
          id c ∈ map id (documents (store w1))) as Hin1.
  { unfold w1. rewrite indexDocuments_single. fold w0.
    destruct (decide _) as [Hin|Hout]; [intros _; now apply elem_of_existingIds|].
    destruct (embed (textToEmbed c)); [|discriminate].
    intros _. rewrite save_store. simpl. rewrite map_app.
    apply elem_of_app. right. simpl. apply list_elem_of_singleton. reflexivity. }
  split; [exact H1|]. split; [exact Hin1|]. split; [|split].
  - intros Hin. specialize (Hskip Hin). split; [exact Hskip|].
    unfold w2. rewrite Hskip. simpl. repeat split.
    unfold emitted. rewrite Hskip. simpl. apply drop_all.
  - destruct (decide (id c ∈ map id (documents (store w1)))) as [Hin|Hout].
    + unfold w2. rewrite (Hskip Hin). simpl. exact H1.
    + (* the first call did not add [c]: the store is as after initialization *)
      assert (documents (store w1) = documents (store w0)) as Hsame.
      { unfold w1. rewrite indexDocuments_single. fold w0.
        destruct (decide _) as [Hin'|Hout']; [reflexivity|].
        destruct (embed (textToEmbed c)) eqn:Ee; [|reflexivity].
        exfalso. apply Hout. unfold w1. rewrite indexDocuments_single. fold w0.
        rewrite decide_False by exact Hout'. rewrite Ee, save_store. simpl.
        rewrite map_app. apply elem_of_app. right. apply list_elem_of_singleton.
        reflexivity. }
      unfold w2. rewrite indexDocuments_single.
      rewrite (afterInitialize_idem w1 Hinit1).
      destruct (decide _); [simpl; exact H1|].
      destruct (embed (textToEmbed c')); [|simpl; exact H1].
      rewrite save_store. unfold totalDocuments. simpl.
      rewrite length_app, Hsame. simpl. lia.
  - intros Hout e He.
    assert (store w1 = store (appended c e w0)) as Hw1.
    { unfold w1. rewrite indexDocuments_single. fold w0.
      rewrite decide_False by (now rewrite elem_of_existingIds).
      rewrite He. apply save_store. }
    rewrite Hw1. split; [reflexivity|]. split; [reflexivity|].
    assert (id c ∈ map id (documents (store w1))) as Hin.
    { rewrite Hw1. simpl. rewrite map_app. apply elem_of_app. right.
      apply list_elem_of_singleton. reflexivity. }
    unfold w2. rewrite (Hskip Hin). simpl. rewrite Hw1.
    unfold totalDocuments. simpl. rewrite length_app. simpl. lia.
Qed.

Lemma reingestion_is_idempotent_witness :
  let embed := constantModel in
  let c := sampleChunk in
  let w := boot {| file := Absent; writable := true |} in
  let w0 := afterInitialize w in
  let w1 := snd (indexDocuments embed [c] w) in
  let w2 := snd (indexDocuments embed [c] w1) in
  (totalDocuments (store w1) <= totalDocuments (store w0) + 1)%nat
  /\ (fst (indexDocuments embed [c] w) = Ok tt ->
      id c ∈ map id (documents (store w1)))
  /\ (id c ∈ map id (documents (store w1)) ->
      indexDocuments embed [c] w1 = (Ok tt, w1)
      /\ totalDocuments (store w2) = totalDocuments (store w1)
      /\ totalEmbeddings (store w2) = totalEmbeddings (store w1)
      /\ emitted (indexDocuments embed [c]) w1 = [])
  /\ (totalDocuments (store w2) <= totalDocuments (store w0) + 1)%nat
  /\ (id c ∉ map id (documents (store w0)) ->
      forall e, embed (textToEmbed c) = Ok e ->
      documents (store w1) = documents (store w0) ++ [c]
      /\ embeddings (store w1) = embeddings (store w0) ++ [e]
      /\ totalDocuments (store w2) = (totalDocuments (store w0) + 1)%nat).
Proof.
  apply (reingestion_is_idempotent constantModel sampleChunk sampleChunk
           (boot {| file := Absent; writable := true |})).
  reflexivity.
Defined.

(** ** Removal *)

Lemma findIndex_Some docId docs i :
  findIndex docId docs = Some i <->
  exists d, docs !! i = Some d /\ id d = docId
            /\ forall j y, docs !! j = Some y -> (j < i)%nat -> id y <> docId.
Proof.
  unfold findIndex. split.
  - intros H. apply fmap_Some in H as [[i' d] [Hf Hi]]. simpl in Hi. subst i'.
    apply list_find_Some in Hf. exists d. exact Hf.
  - intros [d Hd]. apply fmap_Some. exists (i, d). split; [|reflexivity].
    apply list_find_Some. exact Hd.
Qed.

Lemma findIndex_None docId docs :
  findIndex docId docs = None <-> docId ∉ map id docs.
Proof.
  unfold findIndex. rewrite fmap_None, list_find_None, Forall_forall. split.
  - intros H Hin. apply list_elem_of_fmap in Hin as [d [Hd Hin]].
    apply (H d Hin). now symmetry.
  - intros H d Hin Hd. apply H. apply list_elem_of_fmap. exists d. now split.
Qed.

(** C6: in a store whose two arrays have equal length, removing an id that
    is present deletes the document and the embedding at the first index
    holding that id, so both counts drop by exactly one, and the call
    returns true once the snapshot is written (a failing write surfaces its
    error after the pair is gone); removing an absent id returns false and
    leaves the world as it was. *)
Theorem removeDocument_removes_the_pair docId w :
  consistent (store w) ->
  (docId ∈ map id (documents (store w)) ->
     exists i d,
       findIndex docId (documents (store w)) = Some i
       /\ documents (store w) !! i = Some d /\ id d = docId
       /\ let w' := snd (removeDocument docId w) in
          documents (store w') = delete i (documents (store w))
          /\ embeddings (store w') = delete i (embeddings (store w))
          /\ (totalDocuments (store w') + 1 = totalDocuments (store w))%nat
          /\ (totalEmbeddings (store w') + 1 = totalEmbeddings (store w))%nat
          /\ fst (removeDocument docId w)
             = if writable (disk w) then Ok true else Throw WriteError)
  /\ (docId ∉ map id (documents (store w)) ->
      removeDocument docId w = (Ok false, w)).
Proof.
  intros Hs. split.
  - intros Hin.
    destruct (findIndex docId (documents (store w))) as [i|] eqn:Ef.
    2:{ apply findIndex_None in Ef. contradiction. }
    pose proof Ef as Ef'. apply findIndex_Some in Ef' as [d (Hd & Hid & _)].
    exists i, d. split; [reflexivity|]. split; [exact Hd|]. split; [exact Hid|].
    assert (i < length (documents (store w)))%nat as Hi
      by (apply lookup_lt_is_Some; eauto).
    unfold removeDocument. run_M. rewrite Ef. simpl.
    unfold save, writeSnapshot. run_M. unfold consistent in Hs.
    unfold totalDocuments, totalEmbeddings.
    destruct (writable (disk w)); simpl;
      (split; [reflexivity|]); (split; [reflexivity|]);
      rewrite !length_delete by (apply lookup_lt_is_Some; lia);
      (split; [lia|]); (split; [lia|reflexivity]).
  - intros Hout. apply findIndex_None in Hout.
    unfold removeDocument. run_M. rewrite Hout. now destruct w.
Qed.

Lemma removeDocument_removes_the_pair_witness :
  let docId := id otherChunk in
  let w := sampleWorld in
  (docId ∈ map id (documents (store w)) ->
     exists i d,
       findIndex docId (documents (store w)) = Some i
       /\ documents (store w) !! i = Some d /\ id d = docId
       /\ let w' := snd (removeDocument docId w) in
          documents (store w') = delete i (documents (store w))
          /\ embeddings (store w') = delete i (embeddings (store w))
          /\ (totalDocuments (store w') + 1 = totalDocuments (store w))%nat
          /\ (totalEmbeddings (store w') + 1 = totalEmbeddings (store w))%nat
          /\ fst (removeDocument docId w)
             = if writable (disk w) then Ok true else Throw WriteError)
  /\ (docId ∉ map id (documents (store w)) ->
      removeDocument docId w = (Ok false, w)).
Proof.
  apply (removeDocument_removes_the_pair (id otherChunk) sampleWorld).
  reflexivity.
Defined.

End VectorStoreFacts.

(* ===================================================================== *)
(** * Properties of search *)
(* ===================================================================== *)

Module SearchFacts.

Import DocumentProcessor VectorStore StoreInvariant SearchSpec.
Import FloatFacts VectorStoreFacts.

Lemma search_run embed q k w :
  search embed q k w =
  let w0 := afterInitialize w in
  let s := store w0 in
  if negb (isIndexed s) || (length (documents s) =? 0)%nat then (Ok [], w0)
  else
    let w1 := {| store := s; disk := disk w0; trace := trace w0 ++ [Embed q] |} in
    match embed q with
    | Throw e => (Throw e, w1)
    | Ok queryEmbedding =>
        match scoreAll queryEmbedding 0 (embeddings s) with
        | Throw e => (Throw e, w1)
        | Ok scores => (Ok (map (toHit s) (sliceTo (sortScores scores) k)), w1)
        end
    end.
Proof.
  unfold search. unfold bind at 1. rewrite initialize_run. cbv zeta.
  unfold bind at 1. unfold getStore at 1.
  destruct (negb _ || _); [reflexivity|].
  unfold generateEmbedding. run_M.
  destruct (embed q) as [qe|e]; [|reflexivity].
  destruct (scoreAll qe 0 _); reflexivity.
Qed.

(** ** The slice *)

Lemma sliceTo_length {A} (l : list A) k :
  0 <= k -> Z.of_nat (length (sliceTo l k)) <= k.
Proof.
  intros Hk. unfold sliceTo.
  destruct (k <? 0) eqn:E; [apply Z.ltb_lt in E; lia|].
  rewrite length_take. lia.
Qed.

Lemma sliceTo_prefix {A} (l : list A) k : exists rest, l = sliceTo l k ++ rest.
Proof. unfold sliceTo. eexists. symmetry. apply take_drop. Qed.

(** ** The sort *)

Lemma sortsAfter_ltb x y : sortsAfter x y = (score x <? score y)%float.
Proof. unfold sortsAfter, compareScores. apply sub_above_zero. Qed.

Lemma insertSorted_perm x l : insertSorted x l ≡ₚ x :: l.
Proof.
  induction l as [|y l IH]; simpl; [reflexivity|].
  destruct (sortsAfter x y); [|reflexivity].
  rewrite IH. apply Permutation_swap.
Qed.

Lemma sortScores_perm l : sortScores l ≡ₚ l.
Proof.
  induction l as [|x l IH]; simpl; [reflexivity|].
  rewrite insertSorted_perm. now rewrite IH.
Qed.

Lemma insertSorted_notLower x l :
  is_nan (score x) = false ->
  Forall (fun r => is_nan (score r) = false) l ->
  StronglySorted notLower l ->
  StronglySorted notLower (insertSorted x l).
Proof.
  intros Hx Hl Hs. induction Hs as [|y l Hs IH Hy]; simpl.
  - repeat constructor.
  - apply Forall_cons in Hl as [Hny Hl].
    rewrite sortsAfter_ltb. destruct (score x <? score y)%float eqn:E.
    + constructor; [now apply IH|].
      rewrite (insertSorted_perm x l). constructor; [|exact Hy].
      unfold notLower. now apply ltb_leb.
    + assert (notLower x y) as Hxy by (now apply not_ltb_leb).
      constructor; [now constructor|].
      constructor; [exact Hxy|].
      eapply Forall_impl; [exact Hy|]. intros z Hz. unfold notLower in *.
      now apply leb_trans with (score y).
Qed.

Lemma sortScores_notLower l :
  Forall (fun r => is_nan (score r) = false) l ->
  StronglySorted notLower (sortScores l).
Proof.
  induction l as [|x l IH]; intros H; simpl; [constructor|].
  apply Forall_cons in H as [Hx Hl].
  apply insertSorted_notLower; [exact Hx| |now apply IH].
  now rewrite sortScores_perm.
Qed.

Lemma insertSorted_ranksBefore x l :
  Forall (fun z => (index x < index z)%nat) l ->
  StronglySorted ranksBefore l ->
  StronglySorted ranksBefore (insertSorted x l).
Proof.
  intros Hx Hs. induction Hs as [|y l Hs IH Hy]; simpl.
  - repeat constructor.
  - apply Forall_cons in Hx as [Hxy Hx].
    rewrite sortsAfter_ltb. destruct (score x <? score y)%float eqn:E.
    + constructor; [now apply IH|].
      rewrite (insertSorted_perm x l). constructor; [now left|exact Hy].
    + constructor; [now constructor|].
      constructor; [now right|].
      eapply Forall_impl; [exact Hx|]. intros z Hz. now right.
Qed.

Lemma sortScores_ranksBefore l :
  StronglySorted (fun a b => (index a < index b)%nat) l ->
  StronglySorted ranksBefore (sortScores l).
Proof.
  induction 1 as [|x l Hs IH Hx]; simpl; [constructor|].
  apply insertSorted_ranksBefore; [|exact IH].
  now rewrite sortScores_perm.
Qed.

Lemma scoreAll_indices qe : forall embs i scores,
  scoreAll qe i embs = Ok scores ->
  Forall (fun r => (i <= index r)%nat) scores
  /\ StronglySorted (fun a b => (index a < index b)%nat) scores.
Proof.
  induction embs as [|e embs IH]; intros i scores H; simpl in H.
  - injection H as <-. split; constructor.
  - destruct (EmbeddingService.cosineSimilarity qe e) as [sc|]; [|discriminate].
    destruct (scoreAll qe (S i) embs) as [l|] eqn:E; [|discriminate].
    injection H as <-. destruct (IH (S i) l E) as [Hge Hs].
    split.
    + constructor; [simpl; lia|].
      eapply Forall_impl; [exact Hge|]. simpl. intros; lia.
    + constructor; [exact Hs|].
      eapply Forall_impl; [exact Hge|]. simpl. intros; lia.
Qed.

Lemma StronglySorted_app_l {A} (R : A -> A -> Prop) l1 l2 :
  StronglySorted R (l1 ++ l2) -> StronglySorted R l1.
Proof.
  induction l1 as [|x l1 IH]; simpl; intros H; [constructor|].
  apply StronglySorted_inv in H as [Hs Hx].
  constructor; [now apply IH|]. now apply Forall_app in Hx as [Hx _].
Qed.

Lemma StronglySorted_lookup {A} (R : A -> A -> Prop) l :
  StronglySorted R l ->
  forall i j a b, l !! i = Some a -> l !! j = Some b -> (i < j)%nat -> R a b.
Proof.
  induction 1 as [|x l Hs IH Hx]; intros i j a b Hi Hj Hlt.
  - discriminate.
  - destruct j as [|j]; [lia|]. simpl in Hj. destruct i as [|i].
    + simpl in Hi. injection Hi as <-.
      rewrite Forall_forall in Hx. apply Hx.
      eapply list_elem_of_lookup_2; eauto.
    + simpl in Hi. apply (IH i j); auto. lia.
Qed.

Lemma StronglySorted_map {A B} (f : A -> B) (R : A -> A -> Prop) (S : B -> B -> Prop) l :
  (forall a b, R a b -> S (f a) (f b)) ->
  StronglySorted R l -> StronglySorted S (map f l).
Proof.
  intros HRS. induction 1 as [|x l Hs IH Hx]; simpl; constructor; [exact IH|].
  apply Forall_map. eapply Forall_impl; [exact Hx|]. intros b Hb. now apply HRS.
Qed.

(** What a returning [search] returns: nothing, or the first entries of the
    sorted scores. *)
Lemma search_returns embed q k w hits :
  fst (search embed q k w) = Ok hits ->
  hits = []
  \/ exists queryEmbedding scores,
       embed q = Ok queryEmbedding
       /\ scoreAll queryEmbedding 0 (embeddings (store (afterInitialize w))) = Ok scores
       /\ hits = map (toHit (store (afterInitialize w))) (sliceTo (sortScores scores) k).
Proof.
  rewrite search_run. cbv zeta.
  destruct (negb _ || _); [simpl; intros [= <-]; now left|].
  destruct (embed q) as [qe|e]; [|discriminate].
  destruct (scoreAll qe 0 _) as [scores|e] eqn:Es; [|discriminate].
  simpl. intros [= <-]. right. now exists qe, scores.
Qed.

(** A returning [search] returns at most [k] results, for [k] not
    negative. *)
Lemma search_at_most_k embed q k w hits :
  0 <= k -> fst (search embed q k w) = Ok hits -> Z.of_nat (length hits) <= k.
Proof.
  intros Hk H. apply search_returns in H as [->|(qe & scores & _ & _ & ->)].
  - simpl. lia.
  - rewrite length_map. now apply sliceTo_length.
Qed.

(** C3: for a non-negative [k] and similarity scores none of which is NaN,
    [search] on a store without documents returns the empty list (and does
    not throw), and whenever it returns it returns at most [k] results, in
    non-increasing order of score; the results are the first entries of a
    ranking of the stored embeddings in which entries of equal score keep
    the order of their positions in the store. *)
Theorem search_returns_ranked_top_k embed q k w :
  0 <= k ->
  scoresOrdered embed q w ->
  let w0 := afterInitialize w in
  (documents (store w0) = [] -> search embed q k w = (Ok [], w0))
  /\ forall hits,
       fst (search embed q k w) = Ok hits ->
       Z.of_nat (length hits) <= k
       /\ StronglySorted
            (fun h1 h2 => (hitScore h2 <=? hitScore h1)%float = true) hits
       /\ exists ranked,
            hits = map (toHit (store w0)) ranked
            /\ forall i j a b,
                 ranked !! i = Some a -> ranked !! j = Some b -> (i < j)%nat ->
                 (score a =? score b)%float = true ->
                 (index a < index b)%nat.
Proof.
  intros Hk Hord w0. split.
  - intros Hempty. rewrite search_run. fold w0. cbv zeta. rewrite Hempty. simpl.
    now rewrite orb_true_r.
  - intros hits. rewrite search_run. fold w0. cbv zeta.
    destruct (negb _ || _).
    { simpl. intros [= <-]. split; [simpl; lia|]. split; [constructor|].
      exists []. split; [reflexivity|]. intros i j a b Hi. discriminate. }
    destruct (embed q) as [qe|e] eqn:Eq; [|discriminate].
    destruct (scoreAll qe 0 (embeddings (store w0))) as [scores|e] eqn:Es;
      [|discriminate].
    simpl. intros [= <-].
    pose proof (Hord qe scores Eq Es) as Hnan.
    destruct (sliceTo_prefix (sortScores scores) k) as [rest Hrest].
    split; [rewrite length_map; now apply sliceTo_length|]. split.
    + apply (StronglySorted_map (toHit (store w0)) notLower); [auto|].
      apply StronglySorted_app_l with rest. rewrite <- Hrest.
      now apply sortScores_notLower.
    + exists (sliceTo (sortScores scores) k). split; [reflexivity|].
      intros i j a b Hi Hj Hlt Heq.
      assert (StronglySorted ranksBefore (sliceTo (sortScores scores) k)) as Hst.
      { apply StronglySorted_app_l with rest. rewrite <- Hrest.
        apply sortScores_ranksBefore.
        exact (proj2 (scoreAll_indices qe _ 0%nat scores Es)). }
      destruct (StronglySorted_lookup _ _ Hst i j a b Hi Hj Hlt) as [Hgt|Hidx];
        [|exact Hidx].
      rewrite (eqb_not_ltb _ _ Heq) in Hgt. discriminate.
Qed.

Lemma sample_scores_ordered : scoresOrdered constantModel (lit "return policy") sampleWorld.
Proof.
  intros qe scores Hq Hs. injection Hq as <-.
  vm_compute in Hs. injection Hs as <-. repeat constructor.
Qed.

Lemma search_returns_ranked_top_k_witness :
  let q := lit "return policy" in
  let w0 := afterInitialize sampleWorld in
  (documents (store w0) = [] -> search constantModel q 1 sampleWorld = (Ok [], w0))
  /\ forall hits,
       fst (search constantModel q 1 sampleWorld) = Ok hits ->
       Z.of_nat (length hits) <= 1
       /\ StronglySorted
            (fun h1 h2 => (hitScore h2 <=? hitScore h1)%float = true) hits
       /\ exists ranked,
            hits = map (toHit (store w0)) ranked
            /\ forall i j a b,
                 ranked !! i = Some a -> ranked !! j = Some b -> (i < j)%nat ->
                 (score a =? score b)%float = true ->
                 (index a < index b)%nat.
Proof.
  apply (search_returns_ranked_top_k constantModel (lit "return policy") 1 sampleWorld).
  - lia.
  - exact sample_scores_ordered.
Defined.

End SearchFacts.

(* ===================================================================== *)
(** * Properties of the pattern matcher *)
(* ===================================================================== *)

Module RegexFacts.

Import Regex.

Lemma matches_nil_nullable r s : matches r s -> s = [] -> nullable r = true.
Proof.
  induction 1 as [|c x H|x H|r1 r2 s1 s2 H1 IH1 H2 IH2|r1 r2 s H IH|r1 r2 s H IH
                 |r|r s1 s2 H1 IH1 H2 IH2]; intros Hs; simpl; try reflexivity;
    try discriminate.
  - apply app_eq_nil in Hs as [-> ->]. now rewrite IH1, IH2.
  - now rewrite IH.
  - rewrite IH by exact Hs. apply orb_true_r.
Qed.

Lemma nullable_matches r : nullable r = true <-> matches r [].
Proof.
  split; [|intros H; now apply (matches_nil_nullable r [])].
  induction r as [| |c| |r1 IH1 r2 IH2|r1 IH1 r2 IH2|r IH]; simpl; intros H;
    try discriminate.
  - constructor.
  - apply andb_prop in H as [H1 H2].
    change (@nil ascii) with (@nil ascii ++ []). constructor; auto.
  - apply orb_prop in H as [H|H]; [apply m_alt_l|apply m_alt_r]; auto.
  - constructor.
Qed.

Lemma matches_deriv_cons r s' :
  matches r s' -> forall x s, s' = x :: s -> matches (deriv x r) s.
Proof.
  induction 1 as [|c x0 H|x0 H|r1 r2 s1 s2 H1 IH1 H2 IH2|r1 r2 s0 H IH|r1 r2 s0 H IH
                 |r|r s1 s2 H1 IH1 H2 IH2]; intros x s Hs; simpl.
  - discriminate.
  - injection Hs as -> <-. rewrite H. constructor.
  - injection Hs as -> <-. rewrite H. constructor.
  - destruct s1 as [|y s1'].
    + simpl in Hs. subst s2.
      rewrite (matches_nil_nullable r1 [] H1 eq_refl).
      apply m_alt_r. now apply IH2.
    + simpl in Hs. injection Hs as -> <-.
      assert (matches (Seq (deriv x r1) r2) (s1' ++ s2)) as Hseq
        by (constructor; [now apply IH1|exact H2]).
      destruct (nullable r1); [now apply m_alt_l|exact Hseq].
  - apply m_alt_l. now apply IH.
  - apply m_alt_r. now apply IH.
  - discriminate.
  - destruct s1 as [|y s1'].
    + simpl in Hs. now apply IH2.
    + simpl in Hs. injection Hs as -> <-. constructor; [now apply IH1|exact H2].
Qed.

Lemma deriv_matches_cons r : forall x s, matches (deriv x r) s -> matches r (x :: s).
Proof.
  induction r as [| |c| |r1 IH1 r2 IH2|r1 IH1 r2 IH2|r IH]; simpl; intros x s H.
  - inversion H.
  - inversion H.
  - destruct (chrMatches c x) eqn:E; inversion H; subst. now constructor.
  - destruct (isWhitespace x) eqn:E; inversion H; subst. now constructor.
  - assert (forall t, matches (Seq (deriv x r1) r2) t -> matches (Seq r1 r2) (x :: t))
      as Hseq.
    { intros t Ht. inversion Ht; subst.
      change (x :: s1 ++ s2) with ((x :: s1) ++ s2). constructor; auto. }
    destruct (nullable r1) eqn:En; [|now apply Hseq].
    inversion H; subst; [now apply Hseq|].
    change (x :: s) with ([] ++ x :: s).
    constructor; [now apply nullable_matches|now apply IH2].
  - inversion H; subst; [apply m_alt_l|apply m_alt_r]; auto.
  - inversion H; subst.
    change (x :: s1 ++ s2) with ((x :: s1) ++ s2). constructor; auto.
Qed.

Lemma matches_deriv r x s : matches (deriv x r) s <-> matches r (x :: s).
Proof.
  split; [apply deriv_matches_cons|]. intros H. now apply (matches_deriv_cons r (x :: s)).
Qed.

(** [test] decides whether a prefix of the string matches the pattern. *)
Lemma test_spec r s :
  test r s = true <-> exists prefix rest, s = prefix ++ rest /\ matches r prefix.
Proof.
  revert r. induction s as [|x s IH]; intros r; simpl.
  - rewrite orb_false_r, nullable_matches. split.
    + intros H. exists [], []. now split.
    + intros (p & rest & Hs & Hm). symmetry in Hs.
      apply app_eq_nil in Hs as [-> _]. exact Hm.
  - rewrite orb_true_iff, IH, nullable_matches. split.
    + intros [H|(p & rest & -> & Hm)].
      * exists [], (x :: s). now split.
      * exists (x :: p), rest. split; [reflexivity|]. now apply matches_deriv.
    + intros (p & rest & Hs & Hm). destruct p as [|y p].
      * now left.
      * simpl in Hs. injection Hs as <- ->. right.
        exists p, rest. split; [reflexivity|]. now apply matches_deriv.
Qed.

(** A match at the start survives any continuation of the string. *)
Lemma test_app r s rest : test r s = true -> test r (s ++ rest) = true.
Proof.
  rewrite !test_spec. intros (p & t & -> & Hm).
  exists p, (t ++ rest). split; [now rewrite app_assoc|exact Hm].
Qed.

End RegexFacts.

(* ===================================================================== *)
(** * Properties of cosineSimilarity *)
(* ===================================================================== *)

Module EmbeddingFacts.

Import EmbeddingService FloatFacts.

Local Open Scope float_scope.

Lemma accumulate_swap a : forall b d na nb,
  accumulate b a d nb na
  = let '(d', na', nb') := accumulate a b d na nb in (d', nb', na').
Proof.
  induction a as [|x a IH]; intros [|y b] d na nb; simpl; try reflexivity.
  rewrite (mul_comm y x). apply IH.
Qed.

Lemma cosineSimilarity_comm a b : cosineSimilarity a b = cosineSimilarity b a.
Proof.
  unfold cosineSimilarity. rewrite (Nat.eqb_sym (length b) (length a)).
  destruct (length a =? length b)%nat; simpl; [|reflexivity].
  rewrite (accumulate_swap a b).
  destruct (accumulate a b 0 0 0) as [[d na] nb].
  rewrite (orb_comm (nb =? 0) (na =? 0)), (mul_comm (sqrt nb) (sqrt na)).
  reflexivity.
Qed.

Lemma accumulate_self v : forall n,
  accumulate v v n n n
  = (fold_left (fun acc x => acc + x * x) v n,
     fold_left (fun acc x => acc + x * x) v n,
     fold_left (fun acc x => acc + x * x) v n).
Proof. induction v as [|x v IH]; intros n; simpl; [reflexivity|apply IH]. Qed.

Lemma cosineSimilarity_self v :
  cosineSimilarity v v
  = Ok (let n := squaredNorm v in
        if n =? 0 then 0 else n / (sqrt n * sqrt n)).
Proof.
  unfold cosineSimilarity, squaredNorm. rewrite Nat.eqb_refl. simpl.
  rewrite accumulate_self. cbv zeta. rewrite orb_diag.
  now destruct (_ =? 0).
Qed.

(** When the sum of squares is finite, not zero and the rounded square of
    its rounded root, the similarity of a vector with itself is exactly 1. *)
Lemma cosineSimilarity_self_exact v :
  let n := squaredNorm v in
  is_finite n = true /\ (n =? 0) = false /\ sqrt n * sqrt n = n ->
  cosineSimilarity v v = Ok 1.
Proof.
  intros n (Hf & Hz & Hs). rewrite cosineSimilarity_self. subst n. cbv zeta.
  rewrite Hz, Hs. f_equal. now apply div_self.
Qed.

(** When the sum of squares has overflowed, the similarity of a vector with
    itself is NaN. *)
Lemma cosineSimilarity_self_overflowed v :
  squaredNorm v = infinity -> cosineSimilarity v v = Ok nan.
Proof. intros H. rewrite cosineSimilarity_self, H. reflexivity. Qed.

Lemma cosineSimilarity_self_zero v :
  (squaredNorm v =? 0) = true -> cosineSimilarity v v = Ok 0.
Proof. intros H. rewrite cosineSimilarity_self. cbv zeta. now rewrite H. Qed.

(** For a finite [n] above zero, [n / (sqrt n * sqrt n)] is within three
    units in the last place of 1. *)
Lemma self_quotient_near1 (n : float) :
  is_finite n = true -> (0 <? n)%float = true ->
  near1 0x1.8p-51 (n / (sqrt n * sqrt n)) = true.
Proof.
  intros Hf Hlt. destruct (positive_spec n Hf Hlt) as (m & e & En & B).
  destruct (Z_le_gt_dec (2 ^ 52) (Zpos m)) as [Hm|Hm].
  - destruct (SF_self_quotient m e B Hm) as (mr & er & Hq & Hcases).
    cbv zeta in Hq.
    assert (Prim2SF (n / (sqrt n * sqrt n)) = S754_finite false mr er) as Hr.
    { rewrite FloatAxioms.div_spec, FloatAxioms.mul_spec, FloatAxioms.sqrt_spec, En.
      exact Hq. }
    rewrite <- (FloatAxioms.SF2Prim_Prim2SF (n / (sqrt n * sqrt n))), Hr.
    destruct Hcases as [[-> H]|[-> H]].
    + assert (mr = 4503599627370496 \/ mr = 4503599627370497
              \/ mr = 4503599627370498 \/ mr = 4503599627370499)%positive
        as [-> | [-> | [-> | ->]]] by lia; vm_compute; reflexivity.
    + assert (mr = 9007199254740987 \/ mr = 9007199254740988
              \/ mr = 9007199254740989 \/ mr = 9007199254740990
              \/ mr = 9007199254740991)%positive
        as [-> | [-> | [-> | [-> | ->]]]] by lia; vm_compute; reflexivity.
  - assert ((sqrt n * sqrt n)%float = n) as ->.
    { apply FloatAxioms.Prim2SF_inj.
      rewrite FloatAxioms.mul_spec, FloatAxioms.sqrt_spec, En.
      apply SFsqrt_square_subnormal; [exact B|lia]. }
    rewrite div_self; [reflexivity|exact Hf|].
    rewrite FloatAxioms.eqb_spec, En. reflexivity.
Qed.

Lemma cosineSimilarity_self_near1 v :
  let n := squaredNorm v in
  is_finite n = true -> (0 <? n)%float = true ->
  exists r, cosineSimilarity v v = Ok r /\ near1 0x1.8p-51 r = true.
Proof.
  intros n Hf Hlt. rewrite cosineSimilarity_self. fold n. cbv zeta.
  assert ((n =? 0)%float = false) as ->.
  { destruct (positive_spec n Hf Hlt) as (m & e & En & _).
    rewrite FloatAxioms.eqb_spec, En. reflexivity. }
  eexists. split; [reflexivity|]. now apply self_quotient_near1.
Qed.

(** C9 (amended): [cosineSimilarity] is symmetric in its arguments, for all
    vectors and exactly (for unequal lengths both calls throw).  For every
    vector whose accumulated sum of squares [n] is finite and above zero,
    the similarity of the vector with itself is within [3 * 2^-52] of 1, and
    it is exactly 1 whenever [n] is the rounded square of its rounded root.
    It is 0 when [n] is zero (a zero vector, or squares that underflow) and
    NaN when [n] has overflowed to infinity. *)
Theorem cosineSimilarity_symmetric_and_self :
  (forall a b, cosineSimilarity a b = cosineSimilarity b a)
  /\ (forall v, let n := squaredNorm v in
                is_finite n = true -> (0 <? n) = true ->
                exists r, cosineSimilarity v v = Ok r /\ near1 0x1.8p-51 r = true)
  /\ (forall v, let n := squaredNorm v in
                (is_finite n = true /\ (n =? 0) = false /\ sqrt n * sqrt n = n) ->
                cosineSimilarity v v = Ok 1)
  /\ (forall v, (squaredNorm v =? 0) = true -> cosineSimilarity v v = Ok 0)
  /\ (forall v, squaredNorm v = infinity -> cosineSimilarity v v = Ok nan).
Proof.
  split; [exact cosineSimilarity_comm|].
  split; [exact cosineSimilarity_self_near1|].
  split; [exact cosineSimilarity_self_exact|].
  split; [exact cosineSimilarity_self_zero|exact cosineSimilarity_self_overflowed].
Qed.

(** The vector (1, 1) has squared norm 2; the square of the rounded root of
    2 is above 2, and the similarity of the vector with itself is the
    number next below 1. *)
Lemma cosineSimilarity_symmetric_and_self_witness :
  let v := [1; 1] in
  is_finite (squaredNorm v) = true
  /\ (0 <? squaredNorm v) = true
  /\ cosineSimilarity v v = Ok 0x1.ffffffffffffep-1
  /\ near1 0x1.8p-51 0x1.ffffffffffffep-1 = true.
Proof.
  intros v.
  assert (is_finite (squaredNorm v) = true) as Hf by reflexivity.
  assert ((0 <? squaredNorm v) = true) as Hlt by reflexivity.
  split; [exact Hf|]. split; [exact Hlt|].
  destruct (proj1 (proj2 cosineSimilarity_symmetric_and_self) v Hf Hlt)
    as (r & Hr & Hn).
  assert (cosineSimilarity v v = Ok 0x1.ffffffffffffep-1) as Hv
    by (vm_compute; reflexivity).
  rewrite Hv in Hr. injection Hr as <-. split; [reflexivity|exact Hn].
Defined.

(** The vector (3, 4) has squared norm 25 and similarity exactly 1 with
    itself. *)
Example cosineSimilarity_3_4 :
  cosineSimilarity [3; 4] [3; 4] = Ok 1.
Proof.
  apply (cosineSimilarity_self_exact [3; 4]).
  vm_compute. repeat split.
Qed.

(** C9 as stated fails at the ends of the binary64 range: the one-component
    vector [2^600] is finite and not zero, but its squared norm overflows to
    infinity and its similarity with itself is NaN, which is within no
    tolerance of 1; for [2^-600] the squared norm underflows to zero and the
    similarity is 0. *)
Lemma cosineSimilarity_self_overflow :
  let big := [0x1p600] in
  let tiny := [0x1p-600] in
  (Forall (fun x => is_finite x = true /\ (x =? 0) = false) big
   /\ cosineSimilarity big big = Ok nan
   /\ forall tol, near1 tol nan = false)
  /\ (Forall (fun x => is_finite x = true /\ (x =? 0) = false) tiny
      /\ cosineSimilarity tiny tiny = Ok 0
      /\ near1 0x1p-20 0 = false).
Proof.
  split; split.
  - repeat constructor.
  - split; [vm_compute; reflexivity|].
    intros tol. unfold near1. rewrite FloatAxioms.leb_spec.
    change (Prim2SF (abs (nan - 1))) with S754_nan. reflexivity.
  - repeat constructor.
  - split; vm_compute; reflexivity.
Qed.

End EmbeddingFacts.

(* ===================================================================== *)
(** * Properties of the orchestrator *)
(* ===================================================================== *)

Module RAGPipelineFacts.

Import DocumentProcessor VectorStore Regex RAGPipeline StoreInvariant RoutingSpec.
Import RegexFacts VectorStoreFacts SearchFacts.

(** ** Classification *)

Lemma isCasualConversation_spec q :
  isCasualConversation q = true <->
  exists pattern prefix rest,
    pattern ∈ casualPatterns
    /\ toLowerCase (trim q) = prefix ++ rest
    /\ matches pattern prefix.
Proof.
  unfold isCasualConversation. rewrite existsb_exists. split.
  - intros (p & Hp & Ht). apply test_spec in Ht as (prefix & rest & Hs & Hm).
    exists p, prefix, rest. split; [now apply list_elem_of_In|]. now split.
  - intros (p & prefix & rest & Hp & Hs & Hm). exists p.
    split; [now apply list_elem_of_In|]. apply test_spec. now exists prefix, rest.
Qed.

Lemma casualTokens_accepted :
  forallb (fun t => existsb (fun p => test p (lit t)) casualPatterns) casualTokens
  = true.
Proof. vm_compute. reflexivity. Qed.

Lemma casual_prefix_is_casual q token rest :
  token ∈ casualTokens ->
  toLowerCase (trim q) = lit token ++ rest ->
  isCasualConversation q = true.
Proof.
  intros Hin Hq. unfold isCasualConversation. rewrite Hq.
  pose proof casualTokens_accepted as H. rewrite forallb_forall in H.
  specialize (H token (proj1 (list_elem_of_In _ _) Hin)).
  apply existsb_exists in H as (p & Hp & Ht).
  apply existsb_exists. exists p. split; [exact Hp|]. now apply test_app.
Qed.

(** ** The casual path *)

Lemma query_casual embed o q options w :
  isCasualConversation q = true ->
  available o = true ->
  query embed o q options w =
  (match chat o [(lit "user", q)] with
   | Ok text => Ok (casualResponse o text)
   | Throw e => Throw e
   end,
   {| store := store w; disk := disk w;
      trace := (trace w ++ [HealthCheck]) ++ [Chat [(lit "user", q)]] |}).
Proof.
  intros Hc Ha. unfold query, healthCheck, generate, chatCall. run_M.
  rewrite Hc, Ha. simpl. destruct (chat o _); reflexivity.
Qed.

(** C10: the classifier answers true exactly when one of the six patterns
    matches a prefix of the trimmed, lower-cased query; hence a query whose
    trimmed, lower-cased form begins with a casual token is casual whatever
    follows, and with the backend available [query] only checks the backend's
    health and sends it the raw query: the store and the disk are untouched,
    nothing is embedded or read, and the sources are empty. *)
Theorem casual_prefix_bypasses_retrieval embed o options w q token rest :
  token ∈ casualTokens ->
  toLowerCase (trim q) = lit token ++ rest ->
  available o = true ->
  (forall q', isCasualConversation q' = true <->
     exists pattern prefix suffix,
       pattern ∈ casualPatterns
       /\ toLowerCase (trim q') = prefix ++ suffix
       /\ matches pattern prefix)
  /\ isCasualConversation q = true
  /\ fst (query embed o q options w)
     = match chat o [(lit "user", q)] with
       | Ok text => Ok (casualResponse o text)
       | Throw e => Throw e
       end
  /\ store (snd (query embed o q options w)) = store w
  /\ disk (snd (query embed o q options w)) = disk w
  /\ emitted (query embed o q options) w = [HealthCheck; Chat [(lit "user", q)]]
  /\ (forall resp, fst (query embed o q options w) = Ok resp ->
        sources resp = []
        /\ documentsRetrieved (metadata resp) = 0%nat
        /\ generationMethod (metadata resp) = lit "direct-llm").
Proof.
  intros Hin Hq Ha.
  pose proof (casual_prefix_is_casual q token rest Hin Hq) as Hc.
  split; [exact isCasualConversation_spec|]. split; [exact Hc|].
  unfold emitted. rewrite (query_casual embed o q options w Hc Ha). simpl.
  split; [reflexivity|]. split; [reflexivity|]. split; [reflexivity|]. split.
  - rewrite <- app_assoc, drop_app_length. reflexivity.
  - intros resp Hr. destruct (chat o _); [|discriminate].
    injection Hr as <-. repeat split.
Qed.

Lemma casual_prefix_bypasses_retrieval_witness :
  let embed := constantModel in
  let o := onlineBackend in
  let options := defaultOptions in
  let w := sampleWorld in
  let q := casualQuestion in
  isCasualConversation q = true
  /\ fst (query embed o q options w)
     = match chat o [(lit "user", q)] with
       | Ok text => Ok (casualResponse o text)
       | Throw e => Throw e
       end
  /\ store (snd (query embed o q options w)) = store w
  /\ disk (snd (query embed o q options w)) = disk w
  /\ emitted (query embed o q options) w = [HealthCheck; Chat [(lit "user", q)]].
Proof.
  pose proof (casual_prefix_bypasses_retrieval constantModel onlineBackend
                defaultOptions sampleWorld casualQuestion "ok"
                (lit ", what is your return policy?")) as H.
  destruct H as (_ & H1 & H2 & H3 & H4 & H5 & _).
  - vm_compute. do 13 apply list_elem_of_further. apply list_elem_of_here.
  - vm_compute. reflexivity.
  - reflexivity.
  - repeat split; assumption.
Defined.

(** ** The knowledge path *)

Lemma startsWith_app s t : startsWith s (s ++ t) = true.
Proof.
  induction s as [|c s IH]; simpl; [reflexivity|].
  now rewrite decide_True by reflexivity.
Qed.

Lemma indexOfFrom_found pat pre post i :
  0 <= i -> indexOfFrom pat (pre ++ pat ++ post) i <> -1.
Proof.
  revert i. induction pre as [|c pre IH]; intros i Hi.
  - simpl. destruct (pat ++ post) eqn:E; simpl.
    + destruct pat; simpl; [lia|discriminate].
    + rewrite <- E, startsWith_app. lia.
  - simpl. destruct (startsWith pat (c :: pre ++ pat ++ post)); [lia|].
    apply IH. lia.
Qed.

Lemma includes_middle pre s post : includes (pre ++ s ++ post) s = true.
Proof.
  unfold includes, indexOf, clamp, len.
  replace (Z.to_nat (Z.min (Z.max 0 0) (Z.of_nat (length (pre ++ s ++ post))))) with 0%nat
    by lia.
  simpl. apply negb_true_iff, Z.eqb_neq. now apply indexOfFrom_found.
Qed.

(** The excerpt quotes the content of the document it is built from. *)
Lemma excerpt_quotes_content d : includes (excerpt d) (content d) = true.
Proof.
  unfold excerpt.
  rewrite (app_assoc (lit "Based on the available information:")).
  rewrite (app_assoc _ nl (lit "**" ++ _)).
  rewrite (app_assoc _ (lit "**") (title d ++ _)).
  rewrite (app_assoc _ (title d) (lit "**" ++ _)).
  rewrite (app_assoc _ (lit "**") (nl ++ _)).
  rewrite (app_assoc _ nl (nl ++ _)).
  rewrite (app_assoc _ nl (content d ++ _)).
  apply includes_middle.
Qed.

Lemma parseThinking_plain response :
  includes response openTag && includes response closeTag = false ->
  parseThinking response = (Null, response).
Proof. unfold parseThinking. now intros ->. Qed.

Lemma relevantDocs_spec retrieved item :
  item ∈ relevantDocs retrieved <->
  item ∈ retrieved /\ (relevanceThreshold <? rscore item)%float = true.
Proof.
  unfold relevantDocs, isRelevant. rewrite !list_elem_of_In, filter_In. tauto.
Qed.

Lemma answer_respond o options c response method used :
  answer (respond o options c response method used) = snd (parseThinking response)
  /\ sources (respond o options c response method used) = map toSource used
  /\ generationMethod (metadata (respond o options c response method used)) = method
  /\ documentsRetrieved (metadata (respond o options c response method used))
     = length used.
Proof. unfold respond. destruct (parseThinking response). repeat split. Qed.

Lemma readDocuments_length hits : forall retrieved,
  readDocuments hits = Ok retrieved -> length retrieved = length hits.
Proof.
  induction hits as [|h hits IH]; simpl; intros retrieved H.
  - now injection H as <-.
  - destruct (document h); [|discriminate].
    destruct (readDocuments hits) as [l|]; [|discriminate].
    injection H as <-. simpl. f_equal. now apply IH.
Qed.

(** C2 (amended): a non-casual query is answered from what
    [search(query, topK)] retrieved, at most [topK] documents for a [topK]
    that is not negative.  The relevant documents are those retrieved with a
    score above the threshold.  With the backend available
    and no relevant document, the answer is the backend's reply to the bare
    query, with method direct-llm and no sources; with relevant documents it
    is the reply to the context prompt, with method rag and the relevant
    documents as sources.  With the backend unavailable the method is
    fallback and the sources are all retrieved documents; the answer is then
    the excerpt quoting the top-ranked document when something was retrieved,
    and the fixed no-information sentence when nothing was. *)
Theorem knowledge_query_routing embed o q options w hits w1 retrieved :
  isCasualConversation q = false ->
  search embed q (effectiveTopK options) (snd (emit HealthCheck w)) = (Ok hits, w1) ->
  readDocuments hits = Ok retrieved ->
  let relevant := relevantDocs retrieved in
  let chatted messages :=
    {| store := store w1; disk := disk w1; trace := trace w1 ++ [Chat messages] |} in
  (0 <= effectiveTopK options ->
   Z.of_nat (length retrieved) <= effectiveTopK options)
  /\ (forall item, item ∈ relevant <->
     item ∈ retrieved /\ (relevanceThreshold <? rscore item)%float = true)
  /\ (available o = true -> relevant = [] ->
      forall text, chat o [(lit "user", q)] = Ok text ->
      exists resp,
        query embed o q options w = (Ok resp, chatted [(lit "user", q)])
        /\ generationMethod (metadata resp) = lit "direct-llm"
        /\ sources resp = []
        /\ answer resp = snd (parseThinking text))
  /\ (available o = true -> relevant <> [] ->
      forall text, chat o (ragMessages q relevant) = Ok text ->
      exists resp,
        query embed o q options w = (Ok resp, chatted (ragMessages q relevant))
        /\ generationMethod (metadata resp) = lit "rag"
        /\ sources resp = map toSource relevant
        /\ answer resp = snd (parseThinking text))
  /\ (available o = false ->
      exists resp,
        query embed o q options w = (Ok resp, w1)
        /\ generationMethod (metadata resp) = lit "fallback"
        /\ sources resp = map toSource retrieved
        /\ answer resp = snd (parseThinking (generateFallbackResponse q retrieved))
        /\ match retrieved with
           | [] => answer resp = noInformation
           | top :: _ =>
               generateFallbackResponse q retrieved = excerpt (doc top)
               /\ includes (excerpt (doc top)) (content (doc top)) = true
               /\ (includes (excerpt (doc top)) openTag
                   && includes (excerpt (doc top)) closeTag = false ->
                   answer resp = excerpt (doc top))
           end).
Proof.
  intros Hc Hs Hr relevant chatted.
  assert (forall k : list Hit -> M Response,
            bind (search embed q (effectiveTopK options)) k (snd (emit HealthCheck w))
            = k hits w1) as Hbind.
  { intros k. unfold bind. now rewrite Hs. }
  assert (query embed o q options w
          = (if (length relevant =? 0)%nat && available o then
               bind (generate o q) (fun response =>
                 ret (respond o options false response (lit "direct-llm") []))
             else if available o then
               bind (generateWithContext o q relevant) (fun response =>
                 ret (respond o options false response (lit "rag") relevant))
             else
               ret (respond o options false (generateFallbackResponse q retrieved)
                      (lit "fallback") retrieved)) w1) as Hq.
  { unfold query, healthCheck. rewrite Hc. simpl.
    unfold bind at 1. unfold bind at 1. simpl.
    rewrite Hbind. unfold bind at 1. unfold liftResult at 1. rewrite Hr.
    reflexivity. }
  split.
  { intros Hk. rewrite (readDocuments_length hits retrieved Hr).
    apply (search_at_most_k embed q _ (snd (emit HealthCheck w))); [exact Hk|].
    now rewrite Hs. }
  split; [apply relevantDocs_spec|]. split; [|split].
  - intros Ha Hrel text Ht. rewrite Hq, Hrel, Ha. simpl.
    unfold generate, chatCall. run_M. rewrite Ht.
    eexists. split; [reflexivity|].
    destruct (answer_respond o options false text (lit "direct-llm") [])
      as (H1 & H2 & H3 & _).
    now rewrite H1, H2, H3.
  - intros Ha Hrel text Ht. rewrite Hq, Ha.
    destruct relevant as [|r0 rs] eqn:Erel; [contradiction|]. simpl.
    unfold generateWithContext, chatCall. run_M. rewrite Ht.
    eexists. split; [reflexivity|].
    destruct (answer_respond o options false text (lit "rag") (r0 :: rs))
      as (H1 & H2 & H3 & _).
    now rewrite H1, H2, H3.
  - intros Ha. rewrite Hq, Ha, andb_false_r. unfold ret.
    eexists. split; [reflexivity|].
    destruct (answer_respond o options false (generateFallbackResponse q retrieved)
                (lit "fallback") retrieved) as (H1 & H2 & H3 & _).
    rewrite H1, H2, H3. repeat split.
    destruct retrieved as [|top rest]; simpl.
    + reflexivity.
    + split; [reflexivity|]. split; [apply excerpt_quotes_content|].
      intros Hplain. now rewrite parseThinking_plain.
Qed.

Lemma knowledge_query_routing_witness :
  let hits := [ {| document := Some sampleChunk; hitScore := 1%float |};
                {| document := Some otherChunk; hitScore := 0%float |} ] in
  let retrieved := [ {| doc := sampleChunk; rscore := 1%float |};
                     {| doc := otherChunk; rscore := 0%float |} ] in
  let w1 := {| store := store sampleWorld; disk := disk sampleWorld;
               trace := [HealthCheck; Embed policyQuestion] |} in
  (isCasualConversation policyQuestion = false
   /\ search constantModel policyQuestion (effectiveTopK defaultOptions)
        (snd (emit HealthCheck sampleWorld)) = (Ok hits, w1)
   /\ readDocuments hits = Ok retrieved)
  /\ exists resp,
       query constantModel offlineBackend policyQuestion defaultOptions sampleWorld
       = (Ok resp, w1)
       /\ generationMethod (metadata resp) = lit "fallback"
       /\ sources resp = map toSource retrieved
       /\ answer resp
          = snd (parseThinking (generateFallbackResponse policyQuestion retrieved)).
Proof.
  intros hits retrieved w1.
  assert (isCasualConversation policyQuestion = false) as H1
    by (vm_compute; reflexivity).
  assert (search constantModel policyQuestion (effectiveTopK defaultOptions)
            (snd (emit HealthCheck sampleWorld)) = (Ok hits, w1)) as H2
    by (vm_compute; reflexivity).
  assert (readDocuments hits = Ok retrieved) as H3 by reflexivity.
  split; [repeat split; assumption|].
  destruct (knowledge_query_routing constantModel offlineBackend policyQuestion
              defaultOptions sampleWorld hits w1 retrieved H1 H2 H3)
    as (_ & _ & _ & _ & Hfallback).
  destruct (Hfallback eq_refl) as (resp & Hq & Hm & Hsrc & Hans & _).
  exists resp. repeat split; assumption.
Defined.

(** C2 as stated fails where nothing was retrieved: on an empty store with
    the backend unavailable, a knowledge query is answered with method
    fallback by the fixed no-information sentence and an empty source list,
    so there is no top-ranked chunk for the answer to quote. *)
Lemma fallback_on_empty_store_quotes_nothing :
  let w := boot {| file := Absent; writable := true |} in
  isCasualConversation policyQuestion = false
  /\ fst (query constantModel offlineBackend policyQuestion defaultOptions w)
     = Ok {| answer := noInformation;
             thinking := Undefined;
             sources := [];
             metadata := {| generationMethod := lit "fallback";
                            documentsRetrieved := 0;
                            model := modelName offlineBackend;
                            queryType := lit "knowledge" |} |}
  /\ ~ fallbackQuotesTopChunk constantModel offlineBackend policyQuestion
         defaultOptions w.
Proof.
  intros w.
  assert (fst (query constantModel offlineBackend policyQuestion defaultOptions w)
          = Ok {| answer := noInformation;
                  thinking := Undefined;
                  sources := [];
                  metadata := {| generationMethod := lit "fallback";
                                 documentsRetrieved := 0;
                                 model := modelName offlineBackend;
                                 queryType := lit "knowledge" |} |}) as Hq
    by (vm_compute; reflexivity).
  split; [vm_compute; reflexivity|]. split; [exact Hq|].
  intros Hclaim.
  destruct (query constantModel offlineBackend policyQuestion defaultOptions w)
    as [r w'] eqn:E.
  simpl in Hq. subst r.
  destruct (Hclaim _ w' E eq_refl) as (top & rest & Hsrc & _).
  discriminate Hsrc.
Qed.

End RAGPipelineFacts.

(* ===================================================================== *)
(** * Further properties of the document processor *)
(* ===================================================================== *)

Module ChunkingFacts.

Import DocumentProcessor.

(** ** Strings *)

Lemma trimStart_suffix s : exists l, s = l ++ trimStart s.
Proof.
  induction s as [|c s [l IH]]; simpl; [now exists []|].
  destruct (isWhitespace c); [|now exists []].
  exists (c :: l). simpl. now rewrite <- IH.
Qed.

Lemma trim_infix s : exists l r, s = l ++ trim s ++ r.
Proof.
  unfold trim, trimEnd.
  destruct (trimStart_suffix s) as [l Hl].
  destruct (trimStart_suffix (rev (trimStart s))) as [r Hr].
  exists l, (rev r). rewrite <- rev_app_distr, <- Hr, rev_involutive. exact Hl.
Qed.

Lemma len_trim s : len (trim s) <= len s.
Proof.
  destruct (trim_infix s) as (l & r & H). unfold len.
  rewrite H at 2. rewrite !length_app. lia.
Qed.

Lemma trimStart_head s :
  match trimStart s with [] => True | c :: _ => isWhitespace c = false end.
Proof.
  induction s as [|c s IH]; simpl; [exact I|].
  destruct (isWhitespace c) eqn:E; [exact IH|exact E].
Qed.

Lemma trimStart_fixed s :
  match s with [] => True | c :: _ => isWhitespace c = false end -> trimStart s = s.
Proof. destruct s as [|c s]; simpl; [reflexivity|]. now intros ->. Qed.

Lemma trimStart_snoc l c :
  isWhitespace c = false -> trimStart (l ++ [c]) = trimStart l ++ [c].
Proof.
  intros Hc. induction l as [|x l IH]; simpl; [now rewrite Hc|].
  destruct (isWhitespace x); [exact IH|reflexivity].
Qed.

Lemma trimEnd_cons c s : isWhitespace c = false -> trimEnd (c :: s) = c :: trimEnd s.
Proof.
  intros Hc. unfold trimEnd. simpl. rewrite trimStart_snoc by exact Hc.
  rewrite rev_app_distr. reflexivity.
Qed.

Lemma trimStart_idem s : trimStart (trimStart s) = trimStart s.
Proof. apply trimStart_fixed, trimStart_head. Qed.

Lemma trimEnd_idem s : trimEnd (trimEnd s) = trimEnd s.
Proof. unfold trimEnd. now rewrite rev_involutive, trimStart_idem. Qed.

(** A trimmed string is left alone by [trim]. *)
Lemma trim_idem s : trim (trim s) = trim s.
Proof.
  unfold trim at 2 3.
  pose proof (trimStart_head s) as Hh.
  destruct (trimStart s) as [|c y] eqn:E; [reflexivity|].
  rewrite trimEnd_cons by exact Hh.
  unfold trim. simpl. rewrite Hh.
  rewrite trimEnd_cons by exact Hh. now rewrite trimEnd_idem.
Qed.

Lemma substring_infix s a b : exists l r, s = l ++ substring s a b ++ r.
Proof.
  unfold substring.
  set (m := Nat.min (clamp s a) (clamp s b)).
  set (n := (Nat.max (clamp s a) (clamp s b) - m)%nat).
  exists (take m s), (drop n (drop m s)).
  now rewrite (take_drop n), (take_drop m).
Qed.

Lemma len_substring s a b : a <= b -> len (substring s a b) <= b - a.
Proof.
  intros Hab. unfold substring, clamp, len. rewrite length_take, length_drop. lia.
Qed.

Lemma lastIndexOfFrom_bound pat s : forall i acc,
  pat <> [] ->
  lastIndexOfFrom pat s i acc = acc
  \/ i <= lastIndexOfFrom pat s i acc < i + len s.
Proof.
  induction s as [|c s IH]; intros i acc Hpat; simpl.
  - destruct pat; [contradiction|]. now left.
  - unfold len in *. simpl length.
    destruct (startsWith pat (c :: s)).
    + destruct (IH (i + 1) i Hpat) as [-> | H]; right; lia.
    + destruct (IH (i + 1) acc Hpat) as [-> | H]; [now left|right; lia].
Qed.

Lemma lastIndexOf_bound s pat : pat <> [] -> -1 <= lastIndexOf s pat < Z.max 0 (len s).
Proof.
  intros Hpat. unfold lastIndexOf.
  destruct (lastIndexOfFrom_bound pat s 0 (-1) Hpat) as [-> | H]; unfold len in *; lia.
Qed.

Lemma lastSentenceEnd_bound s : -1 <= lastSentenceEnd s < Z.max 0 (len s).
Proof.
  unfold lastSentenceEnd.
  pose proof (lastIndexOf_bound s (lit ". ")) as H1.
  pose proof (lastIndexOf_bound s (lit "! ")) as H2.
  pose proof (lastIndexOf_bound s (lit "? ")) as H3.
  pose proof (lastIndexOf_bound s [ascii_of_nat 10]) as H4.
  specialize (H1 ltac:(discriminate)). specialize (H2 ltac:(discriminate)).
  specialize (H3 ltac:(discriminate)). specialize (H4 ltac:(discriminate)).
  lia.
Qed.

(** ** The window *)

(** A window ends after its start and at most [chunkSize] further. *)
Lemma windowEnd_bounds cfg text startIndex :
  0 < chunkSize cfg ->
  startIndex < windowEnd cfg text startIndex <= startIndex + chunkSize cfg.
Proof.
  intros Hsize. unfold windowEnd.
  destruct (startIndex + chunkSize cfg <? len text); [|lia].
  set (window := substring text startIndex (startIndex + chunkSize cfg)).
  pose proof (lastSentenceEnd_bound window) as Hb.
  pose proof (len_substring text startIndex (startIndex + chunkSize cfg)) as Hl.
  fold window in Hl.
  destruct (chunkSize cfg <? 2 * lastSentenceEnd window) eqn:E; [|lia].
  apply Z.ltb_lt in E. lia.
Qed.

(** When a sentence boundary moves the end, the window is still longer than
    half of [chunkSize]. *)
Lemma windowEnd_half cfg text startIndex :
  0 < chunkSize cfg ->
  chunkSize cfg < 2 * (windowEnd cfg text startIndex - startIndex).
Proof.
  intros Hsize. unfold windowEnd.
  destruct (startIndex + chunkSize cfg <? len text); [|lia].
  destruct (chunkSize cfg <? 2 * _) eqn:E; [|lia].
  apply Z.ltb_lt in E. lia.
Qed.

(** ** Termination *)

Lemma chunkLoop_enough_fuel cfg text :
  0 < chunkSize cfg -> 2 * chunkOverlap cfg <= chunkSize cfg ->
  forall fuel startIndex chunks,
    len text - startIndex <= Z.of_nat fuel ->
    exists result, chunkLoop fuel cfg text startIndex chunks = Some result.
Proof.
  intros Hsize Hov. induction fuel as [|fuel IH]; intros s chunks Hfuel; simpl.
  - replace (s <? len text) with false by (symmetry; apply Z.ltb_ge; lia).
    simpl. eauto.
  - destruct (s <? len text); simpl; [|eauto].
    destruct (stopsLoop _ _); [eauto|].
    apply IH. pose proof (windowEnd_half cfg text s Hsize). lia.
Qed.

Lemma chunkLoop_more_fuel cfg text : forall fuel fuel' startIndex chunks result,
  chunkLoop fuel cfg text startIndex chunks = Some result ->
  (fuel <= fuel')%nat ->
  chunkLoop fuel' cfg text startIndex chunks = Some result.
Proof.
  induction fuel as [|fuel IH]; intros fuel' s chunks result H Hle.
  - simpl in H. destruct (negb (s <? len text)) eqn:E; [|discriminate].
    destruct fuel'; simpl; now rewrite E.
  - destruct fuel' as [|fuel']; [lia|]. simpl in *.
    destruct (negb (s <? len text)); [exact H|].
    destruct (stopsLoop _ _); [exact H|].
    apply (IH fuel'); [exact H|lia].
Qed.

Lemma chunkText_enough_fuel cfg text fuel :
  0 < chunkSize cfg -> 2 * chunkOverlap cfg <= chunkSize cfg ->
  len text <= Z.of_nat fuel ->
  exists chunks, chunkText fuel cfg text = Some chunks.
Proof.
  intros Hsize Hov Hfuel. unfold chunkText.
  destruct (len text <=? chunkSize cfg); [eauto|].
  apply chunkLoop_enough_fuel; [exact Hsize|exact Hov|lia].
Qed.

(** X1: [chunkText] returns on every text when the overlap is at most half of
    the chunk size (as with the defaults 800 and 200): the loop runs at most
    [text.length] times, and more fuel does not change the result. *)
Theorem chunkText_terminates cfg text :
  0 < chunkSize cfg -> 2 * chunkOverlap cfg <= chunkSize cfg ->
  exists chunks, forall fuel,
    (Z.to_nat (len text) <= fuel)%nat -> chunkText fuel cfg text = Some chunks.
Proof.
  intros Hsize Hov. unfold chunkText.
  destruct (len text <=? chunkSize cfg); [eauto|].
  destruct (chunkLoop_enough_fuel cfg text Hsize Hov (Z.to_nat (len text)) 0 [])
    as [result Hr]; [lia|].
  exists result. intros fuel Hfuel.
  apply (chunkLoop_more_fuel cfg text (Z.to_nat (len text))); assumption.
Qed.

Lemma chunkText_terminates_witness :
  exists chunks, forall fuel,
    (Z.to_nat (len ChunkerExamples.longText) <= fuel)%nat ->
    chunkText fuel defaultConfig ChunkerExamples.longText = Some chunks.
Proof.
  apply (chunkText_terminates defaultConfig ChunkerExamples.longText);
    [reflexivity|discriminate].
Defined.


(** ** A configuration under which the loop never ends *)

Lemma trimStart_whitespace s :
  Forall (fun c => isWhitespace c = true) s -> trimStart s = [].
Proof. induction 1 as [|c s Hc _ IH]; simpl; [reflexivity|now rewrite Hc]. Qed.

Lemma trim_whitespace s :
  Forall (fun c => isWhitespace c = true) s -> trim s = [].
Proof. intros H. unfold trim. now rewrite trimStart_whitespace. Qed.

Lemma substring_from_start s a b :
  a <= 0 -> substring s a b = take (clamp s b) s.
Proof.
  intros Ha. unfold substring.
  replace (clamp s a) with 0%nat by (unfold clamp, len; lia).
  now rewrite Nat.max_0_l, Nat.min_0_l, Nat.sub_0_r.
Qed.

Lemma chunkLoop_blank_start cfg text :
  0 < chunkSize cfg <= chunkOverlap cfg ->
  chunkSize cfg < len text ->
  Forall (fun c => isWhitespace c = true) (take (Z.to_nat (chunkSize cfg)) text) ->
  forall fuel startIndex,
    startIndex <= 0 -> chunkLoop fuel cfg text startIndex [] = None.
Proof.
  intros Hsize Hlong Hblank. induction fuel as [|fuel IH]; intros s Hs; simpl;
    (replace (s <? len text) with true by (symmetry; apply Z.ltb_lt; lia)); simpl;
    [reflexivity|].
  pose proof (windowEnd_bounds cfg text s ltac:(lia)) as He.
  set (e := windowEnd cfg text s) in *.
  assert (trim (substring text s e) = []) as Hempty.
  { apply trim_whitespace. rewrite substring_from_start by exact Hs.
    replace (clamp text e) with (Nat.min (clamp text e) (Z.to_nat (chunkSize cfg)))
      by (unfold clamp, len in *; lia).
    rewrite <- take_take. now apply Forall_take. }
  rewrite Hempty. simpl. apply IH. lia.
Qed.

(** X2: With an overlap that is not smaller than the chunk size, a long text
    whose first [chunkSize] characters are all whitespace keeps the loop
    running for ever: the window yields no chunk, the start index does not
    advance, and the guard at the end of the body needs a chunk to fire. *)
Theorem chunkText_blank_start_never_returns cfg text :
  0 < chunkSize cfg <= chunkOverlap cfg ->
  chunkSize cfg < len text ->
  Forall (fun c => isWhitespace c = true) (take (Z.to_nat (chunkSize cfg)) text) ->
  forall fuel, chunkText fuel cfg text = None.
Proof.
  intros Hsize Hlong Hblank fuel. unfold chunkText.
  replace (len text <=? chunkSize cfg) with false by (symmetry; apply Z.leb_gt; lia).
  now apply chunkLoop_blank_start.
Qed.

Lemma chunkText_blank_start_never_returns_witness :
  let cfg := {| chunkSize := 4; chunkOverlap := 4 |} in
  let text := lit "     late text" in
  chunkSize cfg < len text
  /\ forall fuel, chunkText fuel cfg text = None.
Proof.
  split; [reflexivity|].
  apply (chunkText_blank_start_never_returns
           {| chunkSize := 4; chunkOverlap := 4 |} (lit "     late text")).
  - split; [reflexivity|discriminate].
  - reflexivity.
  - repeat constructor.
Defined.

(** ** The chunks *)

Lemma chunkLoop_chunks cfg text (P : jsstr -> Prop) :
  (forall s e, s < e <= s + chunkSize cfg ->
     0 < len (trim (substring text s e)) -> P (trim (substring text s e))) ->
  0 < chunkSize cfg ->
  forall fuel startIndex chunks result,
    Forall P chunks ->
    chunkLoop fuel cfg text startIndex chunks = Some result ->
    Forall P result.
Proof.
  intros HP Hsize. induction fuel as [|fuel IH]; intros s chunks result Hc H; simpl in H.
  - destruct (negb (s <? len text)); [|discriminate]. now inversion H; subst.
  - destruct (negb (s <? len text)); [now inversion H; subst|].
    pose proof (windowEnd_bounds cfg text s Hsize) as He.
    set (e := windowEnd cfg text s) in *.
    assert (Forall P (if 0 <? len (trim (substring text s e))
                      then chunks ++ [trim (substring text s e)] else chunks)) as Hc'.
    { destruct (0 <? len (trim (substring text s e))) eqn:E; [|exact Hc].
      apply Forall_app. split; [exact Hc|]. constructor; [|constructor].
      apply HP; [exact He|]. now apply Z.ltb_lt. }
    destruct (stopsLoop _ _); [now inversion H; subst|].
    apply (IH _ _ _ Hc' H).
Qed.

(** X3: Every chunk cut from a text longer than [chunkSize] is non-empty, at most
    [chunkSize] characters long, free of whitespace at both ends, and occurs
    verbatim in the text; a text that is not longer is returned whole. *)
Theorem chunkText_chunks_well_formed fuel cfg text chunks :
  0 < chunkSize cfg ->
  chunkText fuel cfg text = Some chunks ->
  (chunkSize cfg < len text ->
   Forall (fun c => 0 < len c <= chunkSize cfg
                    /\ trim c = c
                    /\ includes text c = true) chunks)
  /\ (len text <= chunkSize cfg -> chunks = [text]).
Proof.
  intros Hsize H. unfold chunkText in H. split.
  - intros Hlong.
    replace (len text <=? chunkSize cfg) with false in H
      by (symmetry; apply Z.leb_gt; lia).
    refine (chunkLoop_chunks cfg text _ _ Hsize fuel 0 [] chunks (Forall_nil_2 _) H).
    intros s e He Hpos. split; [|split].
    + split; [exact Hpos|].
      pose proof (len_trim (substring text s e)).
      pose proof (len_substring text s e). lia.
    + apply trim_idem.
    + destruct (substring_infix text s e) as (l & r & Ht).
      destruct (trim_infix (substring text s e)) as (l' & r' & Hs).
      rewrite Ht at 1. rewrite Hs at 1.
      replace (l ++ (l' ++ trim (substring text s e) ++ r') ++ r)
        with ((l ++ l') ++ trim (substring text s e) ++ (r' ++ r))
        by (now rewrite <- !app_assoc).
      apply RAGPipelineFacts.includes_middle.
  - intros Hshort.
    replace (len text <=? chunkSize cfg) with true in H
      by (symmetry; apply Z.leb_le; lia).
    now inversion H.
Qed.

Lemma chunkText_chunks_well_formed_witness :
  let text := lit "First sentence here. Second one follows." in
  let cfg := {| chunkSize := 30; chunkOverlap := 5 |} in
  let chunks := [lit "First sentence here."] in
  (chunkSize cfg < len text ->
   Forall (fun c => 0 < len c <= chunkSize cfg
                    /\ trim c = c
                    /\ includes text c = true) chunks)
  /\ (len text <= chunkSize cfg -> chunks = [text]).
Proof.
  apply (chunkText_chunks_well_formed 5 {| chunkSize := 30; chunkOverlap := 5 |}
           (lit "First sentence here. Second one follows.")
           [lit "First sentence here."]); reflexivity.
Defined.

End ChunkingFacts.
(* ===================================================================== *)
(** * Chunk metadata, categories and deduplication *)
(* ===================================================================== *)

Module DocumentFacts.

Import DocumentProcessor.

(** ** Chunk ids *)

Lemma to_uint_nonnil n : Nat.to_uint n <> Decimal.Nil.
Proof.
  rewrite <- (Unsigned.of_to n), Unsigned.to_of. apply unorm_nonnil.
Qed.

(** The decimal rendering of an index determines the index. *)
Lemma ofNat_inj n m : ofNat n = ofNat m -> n = m.
Proof.
  unfold ofNat, lit. intros H.
  apply (f_equal string_of_list_ascii) in H.
  rewrite !string_of_list_ascii_of_string in H.
  apply (f_equal NilZero.uint_of_string) in H.
  rewrite !NilZero.usu in H by apply to_uint_nonnil.
  injection H. apply Unsigned.to_uint_inj.
Qed.

Section Hashing.

Variable md5 : jsstr -> jsstr.

Lemma processDocument_lookup fuel cfg doc chunks i c :
  processDocument md5 fuel cfg doc = Some chunks ->
  chunks !! i = Some c ->
  exists texts text,
    length texts = length chunks
    /\ texts !! i = Some text
    /\ c = makeChunk md5 doc (generateId md5 (sd_url doc)) (length texts) i text.
Proof.
  unfold processDocument. intros H Hi.
  destruct (len (sd_content doc) <? 50).
  - inversion H; subst. now rewrite lookup_nil in Hi.
  - destruct (chunkText fuel cfg (sd_content doc)) as [texts|]; [|discriminate].
    simpl in H. inversion H; subst. clear H.
    rewrite list_lookup_imap in Hi.
    destruct (texts !! i) as [text|] eqn:E; [|discriminate].
    simpl in Hi. inversion Hi; subst.
    exists texts, text. now rewrite length_imap.
Qed.

(** X4: The chunks of one document carry pairwise distinct ids, built from the
    hash of the URL and the position; each chunk records its position, the
    number of chunks, and the URL and category of the document; only the
    first one has the description.  A document of fewer than 50 characters
    gives no chunk. *)
Theorem processDocument_numbers_chunks fuel cfg doc chunks :
  processDocument md5 fuel cfg doc = Some chunks ->
  NoDup (map id chunks)
  /\ (forall i c, chunks !! i = Some c ->
        id c = generateId md5 (sd_url doc) ++ lit "-chunk-" ++ ofNat i
        /\ chunk c = i
        /\ totalChunks c = length chunks
        /\ url c = sd_url doc
        /\ category c = categorizeContent (sd_url doc) (sd_title doc) (sd_content doc)
        /\ description c = (if (i =? 0)%nat then sd_description doc else [])
        /\ contentHash c = generateHash md5 (content c))
  /\ (len (sd_content doc) < 50 -> chunks = []).
Proof.
  intros H.
  assert (forall i c, chunks !! i = Some c ->
            id c = generateId md5 (sd_url doc) ++ lit "-chunk-" ++ ofNat i) as Hid.
  { intros i c Hi.
    destruct (processDocument_lookup _ _ _ _ _ _ H Hi) as (texts & text & _ & _ & ->).
    reflexivity. }
  split; [|split].
  - apply NoDup_alt. intros i j x Hi Hj.
    rewrite list_lookup_fmap in Hi, Hj.
    destruct (chunks !! i) as [ci|] eqn:Ei; [|discriminate].
    destruct (chunks !! j) as [cj|] eqn:Ej; [|discriminate].
    simpl in Hi, Hj. inversion Hi as [Hi']. inversion Hj as [Hj'].
    rewrite (Hid i ci Ei) in Hi'. rewrite (Hid j cj Ej) in Hj'.
    rewrite <- Hj' in Hi'.
    apply app_inv_head, app_inv_head in Hi'. now apply ofNat_inj.
  - intros i c Hi.
    destruct (processDocument_lookup _ _ _ _ _ _ H Hi) as (texts & text & Hl & _ & ->).
    simpl. rewrite Hl. repeat split; reflexivity.
  - intros Hshort. unfold processDocument in H.
    replace (len (sd_content doc) <? 50) with true in H
      by (symmetry; now apply Z.ltb_lt).
    now inversion H.
Qed.

End Hashing.

Lemma processDocument_numbers_chunks_witness :
  let md5 := fun s : jsstr => s in
  let doc := ChunkerExamples.paddedDoc in
  exists chunks,
    processDocument md5 1 defaultConfig doc = Some chunks
    /\ NoDup (map id chunks)
    /\ (forall i c, chunks !! i = Some c ->
          id c = generateId md5 (sd_url doc) ++ lit "-chunk-" ++ ofNat i
          /\ chunk c = i
          /\ totalChunks c = length chunks
          /\ url c = sd_url doc
          /\ category c = categorizeContent (sd_url doc) (sd_title doc) (sd_content doc)
          /\ description c = (if (i =? 0)%nat then sd_description doc else [])
          /\ contentHash c = generateHash md5 (content c))
    /\ (len (sd_content doc) < 50 -> chunks = []).
Proof.
  eexists. split; [reflexivity|].
  apply (processDocument_numbers_chunks (fun s => s) 1 defaultConfig
           ChunkerExamples.paddedDoc).
  reflexivity.
Defined.

(** ** Categories *)

Lemma lowerChar_idem c : lowerChar (lowerChar c) = lowerChar c.
Proof.
  destruct c as [[] [] [] [] [] [] [] []]; vm_compute; reflexivity.
Qed.

Lemma toLowerCase_idem s : toLowerCase (toLowerCase s) = toLowerCase s.
Proof.
  unfold toLowerCase. rewrite List.map_map. apply List.map_ext. intros c. apply lowerChar_idem.
Qed.

Lemma substring_500_prefix s tail :
  500 <= len s -> substring (s ++ tail) 0 500 = substring s 0 500.
Proof.
  intros H. unfold substring, clamp, len in *. rewrite length_app.
  replace (Z.to_nat (Z.min (Z.max 0 0) (Z.of_nat (length s + length tail)))) with 0%nat by lia.
  replace (Z.to_nat (Z.min (Z.max 0 0) (Z.of_nat (length s)))) with 0%nat by lia.
  replace (Z.to_nat (Z.min (Z.max 500 0) (Z.of_nat (length s + length tail)))) with 500%nat by lia.
  replace (Z.to_nat (Z.min (Z.max 500 0) (Z.of_nat (length s)))) with 500%nat by lia.
  rewrite !Nat.max_0_l, !Nat.min_0_l, !Nat.sub_0_r.
  change (drop 0 (s ++ tail)) with (s ++ tail). change (drop 0 s) with s.
  rewrite take_app_le by lia. reflexivity.
Qed.

(** X5: The category is one of six names.  It does not depend on letter case
    in the URL or in the title; of the content it depends only on the
    lower-cased first 500 characters, so that text after them cannot change
    the category. *)
Theorem categorizeContent_reads_lowercase_prefix url title content :
  categorizeContent url title content
  ∈ map lit ["documentation"; "article"; "product"; "faq"; "support"; "general"]
  /\ categorizeContent (toLowerCase url) (toLowerCase title) content
     = categorizeContent url title content
  /\ (forall content',
        toLowerCase (substring content' 0 500) = toLowerCase (substring content 0 500) ->
        categorizeContent url title content' = categorizeContent url title content)
  /\ (forall tail, 500 <= len content ->
        categorizeContent url title (content ++ tail)
        = categorizeContent url title content).
Proof.
  split; [|split; [|split]].
  - unfold categorizeContent.
    repeat match goal with |- context [if ?b then _ else _] => destruct b end;
      apply list_elem_of_In; vm_compute; tauto.
  - unfold categorizeContent. now rewrite !toLowerCase_idem.
  - intros content' H. unfold categorizeContent. now rewrite H.
  - intros tail H. unfold categorizeContent. now rewrite substring_500_prefix.
Qed.

(** ** Short documents *)




(** ** Deduplication *)

Lemma dedupLoop_spec chunks : forall seen,
  sublist (dedupLoop seen chunks) chunks
  /\ NoDup (map contentHash (dedupLoop seen chunks))
  /\ (forall h, h ∈ map contentHash (dedupLoop seen chunks)
                <-> h ∈ map contentHash chunks /\ h ∉ seen).
Proof.
  induction chunks as [|c rest IH]; intros seen; simpl.
  - split; [constructor|]. split; [constructor|].
    intros h. rewrite elem_of_nil. tauto.
  - destruct (decide (contentHash c ∈ seen)) as [Hin|Hout].
    + destruct (IH seen) as (Hs & Hn & Hh). split; [now apply sublist_cons|].
      split; [exact Hn|]. intros h. rewrite Hh, elem_of_cons.
      split; [tauto|]. intros [[-> | H] Hns]; [contradiction|tauto].
    + destruct (IH ({[contentHash c]} ∪ seen)) as (Hs & Hn & Hh).
      split; [now apply sublist_skip|]. split.
      * simpl. apply NoDup_cons. split; [|exact Hn].
        rewrite Hh, not_elem_of_union, not_elem_of_singleton. tauto.
      * intros h. simpl. rewrite !elem_of_cons, Hh.
        rewrite not_elem_of_union, not_elem_of_singleton.
        destruct (decide (h = contentHash c)) as [->|Hne]; tauto.
Qed.

Lemma dedupLoop_first chunks : forall seen c,
  c ∈ dedupLoop seen chunks ->
  exists before after,
    chunks = before ++ c :: after
    /\ (contentHash c ∉ map contentHash before)
    /\ (contentHash c ∉ seen).
Proof.
  induction chunks as [|x rest IH]; intros seen c Hc; simpl in Hc.
  - now apply elem_of_nil in Hc.
  - destruct (decide (contentHash x ∈ seen)) as [Hin|Hout].
    + destruct (IH seen c Hc) as (before & after & -> & Hb & Hs).
      exists (x :: before), after. split; [reflexivity|]. split; [|exact Hs].
      simpl. rewrite not_elem_of_cons. split; [|exact Hb]. congruence.
    + apply elem_of_cons in Hc as [-> | Hc].
      * exists [], rest. split; [reflexivity|]. split; [|exact Hout].
        simpl. apply not_elem_of_nil.
      * destruct (IH _ c Hc) as (before & after & -> & Hb & Hs).
        apply not_elem_of_union in Hs as [Hx Hs].
        apply not_elem_of_singleton in Hx.
        exists (x :: before), after. split; [reflexivity|]. split; [|exact Hs].
        simpl. rewrite not_elem_of_cons. split; [exact Hx|exact Hb].
Qed.

Lemma dedupLoop_distinct chunks : forall seen,
  NoDup (map contentHash chunks) ->
  (forall h, h ∈ map contentHash chunks -> h ∉ seen) ->
  dedupLoop seen chunks = chunks.
Proof.
  induction chunks as [|c rest IH]; intros seen Hn Hs; simpl; [reflexivity|].
  simpl in Hn. apply NoDup_cons in Hn as [Hc Hn].
  rewrite decide_False by (apply Hs; simpl; apply elem_of_cons; now left).
  f_equal. apply IH; [exact Hn|].
  intros h Hh. apply not_elem_of_union. split.
  - apply not_elem_of_singleton. intros ->. contradiction.
  - apply Hs. simpl. apply elem_of_cons. now right.
Qed.

(** X6: [deduplicateChunks] keeps, in their order, exactly the chunks that are
    the first to carry their content hash: the result is a sub-list of its
    input with pairwise distinct hashes, no hash of the input is lost, and a
    second pass changes nothing. *)
Theorem deduplicateChunks_keeps_first_of_each_hash chunks :
  let kept := deduplicateChunks chunks in
  sublist kept chunks
  /\ NoDup (map contentHash kept)
  /\ (forall h, h ∈ map contentHash kept <-> h ∈ map contentHash chunks)
  /\ (forall c, c ∈ kept ->
        exists before after,
          chunks = before ++ c :: after
          /\ contentHash c ∉ map contentHash before)
  /\ deduplicateChunks kept = kept.
Proof.
  intros kept. unfold kept, deduplicateChunks.
  destruct (dedupLoop_spec chunks ∅) as (Hs & Hn & Hh).
  split; [exact Hs|]. split; [exact Hn|]. split; [|split].
  - intros h. rewrite Hh. split; [tauto|]. intros H. split; [exact H|].
    apply not_elem_of_empty.
  - intros c Hc. destruct (dedupLoop_first chunks ∅ c Hc) as (b & a & H1 & H2 & _).
    eauto.
  - apply dedupLoop_distinct; [exact Hn|]. intros h _. apply not_elem_of_empty.
Qed.

(** ** Several documents *)

Section Batches.
Variable md5 : jsstr -> jsstr.

Lemma processMultiple_from fuel cfg docs : forall acc per,
  Forall2 (fun doc docChunks => processDocument md5 fuel cfg doc = Some docChunks)
    docs per ->
  fold_left (fun acc doc =>
               allChunks ← acc;
               docChunks ← processDocument md5 fuel cfg doc;
               Some (allChunks ++ docChunks))
            docs (Some acc)
  = Some (acc ++ concat per).
Proof.
  induction docs as [|doc docs IH]; intros acc per H.
  - inversion H; subst. simpl. now rewrite app_nil_r.
  - inversion H as [|? docChunks ? per' Hd Hrest]; subst. simpl. rewrite Hd. simpl.
    rewrite (IH _ per' Hrest). now rewrite <- app_assoc.
Qed.

(** X7: [processMultiple] returns the chunks of its documents in the order of
    the documents, each document's chunks together; a document too short to
    be processed adds nothing. *)
Theorem processMultiple_concatenates fuel cfg scrapedDocs per :
  Forall2 (fun doc docChunks => processDocument md5 fuel cfg doc = Some docChunks)
    scrapedDocs per ->
  processMultiple md5 fuel cfg scrapedDocs = Some (concat per)
  /\ length per = length scrapedDocs
  /\ Forall2 (fun doc docChunks => len (sd_content doc) < 50 -> docChunks = [])
       scrapedDocs per.
Proof.
  intros H. split; [|split].
  - unfold processMultiple. now rewrite (processMultiple_from fuel cfg _ [] per H).
  - symmetry. eapply Forall2_length, H.
  - eapply Forall2_impl; [exact H|]. intros doc docChunks Hd Hshort.
    unfold processDocument in Hd.
    replace (len (sd_content doc) <? 50) with true in Hd
      by (symmetry; now apply Z.ltb_lt).
    now inversion Hd.
Qed.

End Batches.

Lemma processMultiple_concatenates_witness :
  let md5 := fun s : jsstr => s in
  let short := {| sd_title := lit "Empty"; sd_content := lit "Too short.";
                  sd_url := lit "https://example.com/empty";
                  sd_scrapedAt := lit "2024-01-01T00:00:00.000Z";
                  sd_description := [] |} in
  exists docChunks,
    processDocument md5 1 defaultConfig ChunkerExamples.paddedDoc = Some docChunks
    /\ processMultiple md5 1 defaultConfig [short; ChunkerExamples.paddedDoc]
       = Some docChunks.
Proof.
  intros md5 short.
  destruct (processDocument md5 1 defaultConfig ChunkerExamples.paddedDoc)
    as [docChunks|] eqn:Ep; [|vm_compute in Ep; discriminate].
  exists docChunks. split; [reflexivity|].
  destruct (processMultiple_concatenates md5 1 defaultConfig
              [short; ChunkerExamples.paddedDoc] [[]; docChunks]) as [H _].
  - constructor; [reflexivity|]. constructor; [exact Ep|constructor].
  - rewrite H. simpl. now rewrite app_nil_r.
Defined.

End DocumentFacts.
(* ===================================================================== *)
(** * Further properties of the vector store *)
(* ===================================================================== *)

Module StoreOperationFacts.

Import DocumentProcessor VectorStore StoreInvariant.
Import VectorStoreFacts SearchFacts.

(** ** Batches *)

(** A batch whose texts are all embedded is appended pair by pair. *)
Lemma indexLoop_ok embed newDocs : forall embs w,
  Forall2 (fun d e => embed (textToEmbed d) = Ok e) newDocs embs ->
  indexLoop embed newDocs w
  = (Ok tt,
     {| store := {| documents := documents (store w) ++ newDocs;
                    embeddings := embeddings (store w) ++ embs;
                    isIndexed := isIndexed (store w);
                    initialized := initialized (store w) |};
        disk := disk w;
        trace := trace w ++ map (fun d => Embed (textToEmbed d)) newDocs |}).
Proof.
  induction newDocs as [|d rest IH]; intros embs w H.
  - inversion H; subst. simpl. unfold ret. rewrite !app_nil_r.
    destruct w as [[] ? ?]; reflexivity.
  - inversion H as [|? e ? embs' He Hrest]; subst. simpl.
    unfold generateEmbedding, pushPair. run_M. rewrite He. simpl.
    rewrite (IH embs' _ Hrest). simpl. now rewrite <- !app_assoc.
Qed.

(** The first text that cannot be embedded ends the loop; the pairs appended
    before it stay. *)
Lemma indexLoop_fail embed done d rest err : forall embs w,
  Forall2 (fun d e => embed (textToEmbed d) = Ok e) done embs ->
  embed (textToEmbed d) = Throw err ->
  indexLoop embed (done ++ d :: rest) w
  = (Throw err,
     {| store := {| documents := documents (store w) ++ done;
                    embeddings := embeddings (store w) ++ embs;
                    isIndexed := isIndexed (store w);
                    initialized := initialized (store w) |};
        disk := disk w;
        trace := trace w ++ map (fun d => Embed (textToEmbed d)) (done ++ [d]) |}).
Proof.
  induction done as [|x done IH]; intros embs w H Hd.
  - inversion H; subst. simpl.
    unfold generateEmbedding. run_M. rewrite Hd. simpl. rewrite !app_nil_r.
    destruct w as [[] ? ?]; reflexivity.
  - inversion H as [|? e ? embs' He Hrest]; subst. simpl.
    unfold generateEmbedding, pushPair. run_M. rewrite He. simpl.
    rewrite (IH embs' _ Hrest Hd). simpl. now rewrite <- !app_assoc.
Qed.

Lemma indexDocuments_run embed docs w :
  indexDocuments embed docs w =
  let w0 := afterInitialize w in
  let newDocs := newDocsOf (store w0) docs in
  if (length newDocs =? 0)%nat then (Ok tt, w0)
  else (indexLoop embed newDocs ;;; setIsIndexed true ;;; save) w0.
Proof.
  unfold indexDocuments. unfold bind at 1. rewrite initialize_run.
  unfold bind at 1. unfold getStore at 1. cbv zeta.
  destruct (length _ =? 0)%nat; reflexivity.
Qed.

Lemma disk_afterInitialize w : disk (afterInitialize w) = disk w.
Proof. unfold afterInitialize. now destruct (initialized (store w)). Qed.

Lemma indexDocuments_all_embedded embed docs embs w :
  let w0 := afterInitialize w in
  let newDocs := newDocsOf (store w0) docs in
  newDocs <> [] ->
  Forall2 (fun d e => embed (textToEmbed d) = Ok e) newDocs embs ->
  indexDocuments embed docs w
  = save {| store := {| documents := documents (store w0) ++ newDocs;
                        embeddings := embeddings (store w0) ++ embs;
                        isIndexed := true;
                        initialized := initialized (store w0) |};
            disk := disk w0;
            trace := trace w0 ++ map (fun d => Embed (textToEmbed d)) newDocs |}.
Proof.
  intros w0 newDocs Hne Hall. rewrite indexDocuments_run. fold w0. cbv zeta.
  fold newDocs. destruct newDocs as [|d rest]; [contradiction|].
  change (length (d :: rest) =? 0)%nat with false. cbv iota.
  unfold bind at 1. rewrite (indexLoop_ok embed _ embs w0 Hall).
  unfold setIsIndexed. run_M. reflexivity.
Qed.

(** X8: When every new text is embedded, [indexDocuments] appends exactly the
    chunks of the batch whose id the store did not hold, in batch order and
    each paired with the embedding of its title and content; it then marks
    the store indexed and writes the snapshot.  A batch without new chunks
    only initializes the store.  A failing write surfaces after the pairs
    were appended in memory. *)
Theorem indexDocuments_appends_new_documents embed docs embs w :
  let w0 := afterInitialize w in
  let newDocs := newDocsOf (store w0) docs in
  Forall2 (fun d e => embed (textToEmbed d) = Ok e) newDocs embs ->
  let w' := snd (indexDocuments embed docs w) in
  documents (store w') = documents (store w0) ++ newDocs
  /\ embeddings (store w') = embeddings (store w0) ++ embs
  /\ (newDocs = [] -> indexDocuments embed docs w = (Ok tt, w0))
  /\ (newDocs <> [] ->
      isIndexed (store w') = true
      /\ trace w' = trace w0 ++ map (fun d => Embed (textToEmbed d)) newDocs
                    ++ [WriteFile]
      /\ (writable (disk w) = true ->
          fst (indexDocuments embed docs w) = Ok tt
          /\ file (disk w')
             = Parsed {| snap_documents := Some (documents (store w'));
                         snap_embeddings := Some (embeddings (store w'));
                         snap_isIndexed := Some true |})
      /\ (writable (disk w) = false ->
          fst (indexDocuments embed docs w) = Throw WriteError
          /\ disk w' = disk w)).
Proof.
  intros w0 newDocs Hall w'.
  pose proof (disk_afterInitialize w) as Hd. fold w0 in Hd.
  destruct newDocs as [|d rest] eqn:En.
  - assert (indexDocuments embed docs w = (Ok tt, w0)) as Hrun.
    { rewrite indexDocuments_run. fold w0. cbv zeta. fold newDocs. now rewrite En. }
    unfold w'. rewrite Hrun. inversion Hall; subst. simpl. rewrite !app_nil_r.
    split; [reflexivity|]. split; [reflexivity|]. split; [reflexivity|].
    intros H. now destruct H.
  - assert (indexDocuments embed docs w
            = save {| store := {| documents := documents (store w0) ++ d :: rest;
                                  embeddings := embeddings (store w0) ++ embs;
                                  isIndexed := true;
                                  initialized := initialized (store w0) |};
                      disk := disk w0;
                      trace := trace w0
                               ++ map (fun d => Embed (textToEmbed d)) (d :: rest) |})
      as Hrun.
    { pose proof (indexDocuments_all_embedded embed docs embs w) as H.
      cbv zeta in H. fold w0 in H. fold newDocs in H. rewrite En in H.
      apply H; [discriminate|exact Hall]. }
    unfold w'. rewrite Hrun. unfold save, writeSnapshot. run_M. rewrite Hd.
    destruct (writable (disk w)); simpl.
    + split; [reflexivity|]. split; [reflexivity|]. split; [discriminate|].
      intros _. split; [reflexivity|]. split; [now rewrite <- app_assoc|].
      split; [intros _; split; reflexivity|discriminate].
    + split; [reflexivity|]. split; [reflexivity|]. split; [discriminate|].
      intros _. split; [reflexivity|]. split; [now rewrite <- app_assoc|].
      split; [discriminate|intros _; split; reflexivity].
Qed.

Lemma indexDocuments_appends_new_documents_witness :
  let embed := constantModel in
  let w := boot {| file := Absent; writable := true |} in
  let docs := [sampleChunk; otherChunk] in
  let w' := snd (indexDocuments embed docs w) in
  Forall2 (fun d e => embed (textToEmbed d) = Ok e) docs [e1; e1]
  /\ documents (store w') = [sampleChunk; otherChunk]
  /\ embeddings (store w') = [e1; e1]
  /\ fst (indexDocuments embed docs w) = Ok tt.
Proof.
  assert (Forall2 (fun d e => constantModel (textToEmbed d) = Ok e)
            [sampleChunk; otherChunk] [e1; e1]) as H by (repeat constructor).
  split; [exact H|].
  destruct (indexDocuments_appends_new_documents constantModel
              [sampleChunk; otherChunk] [e1; e1]
              (boot {| file := Absent; writable := true |}) H)
    as (Hdocs & Hembs & _ & Hnew).
  split; [exact Hdocs|]. split; [exact Hembs|].
  destruct (Hnew ltac:(discriminate)) as (_ & _ & Hw & _).
  exact (proj1 (Hw eq_refl)).
Defined.

(** X9: When a text of the batch cannot be embedded, [indexDocuments] throws the
    model's error; the pairs of the chunks before it stay in memory, nothing
    is written and the store is not marked indexed.  If it was not indexed
    before, a search then returns nothing although the store holds
    documents. *)
Theorem indexDocuments_failure_keeps_partial_batch embed docs done d rest embs err w :
  let w0 := afterInitialize w in
  newDocsOf (store w0) docs = done ++ d :: rest ->
  Forall2 (fun d e => embed (textToEmbed d) = Ok e) done embs ->
  embed (textToEmbed d) = Throw err ->
  let w' := snd (indexDocuments embed docs w) in
  fst (indexDocuments embed docs w) = Throw err
  /\ documents (store w') = documents (store w0) ++ done
  /\ embeddings (store w') = embeddings (store w0) ++ embs
  /\ isIndexed (store w') = isIndexed (store w0)
  /\ disk w' = disk w
  /\ trace w' = trace w0 ++ map (fun d => Embed (textToEmbed d)) (done ++ [d])
  /\ (isIndexed (store w0) = false ->
      forall q k, search embed q k w' = (Ok [], w')).
Proof.
  intros w0 Hnew Hdone Hd w'.
  assert (indexDocuments embed docs w
          = (Throw err,
             {| store := {| documents := documents (store w0) ++ done;
                            embeddings := embeddings (store w0) ++ embs;
                            isIndexed := isIndexed (store w0);
                            initialized := initialized (store w0) |};
                disk := disk w0;
                trace := trace w0
                         ++ map (fun d => Embed (textToEmbed d)) (done ++ [d]) |}))
    as Hrun.
  { rewrite indexDocuments_run. fold w0. cbv zeta. rewrite Hnew.
    replace (length (done ++ d :: rest) =? 0)%nat with false
      by (symmetry; apply Nat.eqb_neq; rewrite length_app; simpl; lia).
    unfold bind at 1.
    now rewrite (indexLoop_fail embed done d rest err embs w0 Hdone Hd). }
  unfold w'. rewrite Hrun. simpl.
  split; [reflexivity|]. split; [reflexivity|]. split; [reflexivity|].
  split; [reflexivity|]. split; [apply disk_afterInitialize|].
  split; [reflexivity|].
  intros Hidx q k. rewrite search_run. cbv zeta.
  rewrite afterInitialize_idem by (simpl; apply afterInitialize_initialized).
  simpl. now rewrite Hidx.
Qed.

Lemma indexDocuments_failure_keeps_partial_batch_witness :
  let embed := fun text : jsstr =>
                 if decide (text = textToEmbed sampleChunk) then Ok e1
                 else Throw EmbeddingError in
  let w := boot {| file := Absent; writable := true |} in
  let docs := [sampleChunk; otherChunk] in
  let w' := snd (indexDocuments embed docs w) in
  fst (indexDocuments embed docs w) = Throw EmbeddingError
  /\ documents (store w') = [sampleChunk]
  /\ embeddings (store w') = [e1]
  /\ isIndexed (store w') = false
  /\ forall q k, search embed q k w' = (Ok [], w').
Proof.
  set (embed := fun text : jsstr =>
                 if decide (text = textToEmbed sampleChunk) then Ok e1
                 else Throw EmbeddingError).
  destruct (indexDocuments_failure_keeps_partial_batch embed
              [sampleChunk; otherChunk] [sampleChunk] otherChunk [] [e1]
              EmbeddingError (boot {| file := Absent; writable := true |}))
    as (H1 & H2 & H3 & H4 & _ & _ & H7).
  - reflexivity.
  - repeat constructor.
  - reflexivity.
  - split; [exact H1|]. split; [exact H2|]. split; [exact H3|].
    split; [exact H4|]. apply H7. reflexivity.
Defined.


(** ** Search *)

Lemma cosineSimilarity_throws a b :
  (length a = length b -> exists sc, EmbeddingService.cosineSimilarity a b = Ok sc)
  /\ (length a <> length b ->
      EmbeddingService.cosineSimilarity a b = Throw DimensionMismatch).
Proof.
  unfold EmbeddingService.cosineSimilarity. split; intros H.
  - replace (length a =? length b)%nat with true by (symmetry; now apply Nat.eqb_eq).
    simpl. destruct (EmbeddingService.accumulate a b 0 0 0) as [[dp na] nb].
    destruct (_ || _); eauto.
  - replace (length a =? length b)%nat with false by (symmetry; now apply Nat.eqb_neq).
    reflexivity.
Qed.

Lemma scoreAll_same_dimension qe embs : forall i,
  Forall (fun e => length e = length qe) embs ->
  exists scores, scoreAll qe i embs = Ok scores /\ length scores = length embs.
Proof.
  induction embs as [|e embs IH]; intros i H; simpl; [now exists []|].
  apply Forall_cons in H as [He H].
  destruct (proj1 (cosineSimilarity_throws qe e) (eq_sym He)) as [sc ->].
  destruct (IH (S i) H) as (l & -> & Hl). eexists. split; [reflexivity|].
  simpl. now rewrite Hl.
Qed.

Lemma scoreAll_other_dimension qe embs : forall i,
  Exists (fun e => length e <> length qe) embs ->
  scoreAll qe i embs = Throw DimensionMismatch.
Proof.
  induction embs as [|e embs IH]; intros i H; [now apply Exists_nil in H|].
  simpl. destruct (decide (length qe = length e)) as [Heq|Hne].
  - destruct (proj1 (cosineSimilarity_throws qe e) Heq) as [sc ->].
    apply Exists_cons in H as [H|H]; [now destruct H|].
    now rewrite (IH (S i) H).
  - now rewrite (proj2 (cosineSimilarity_throws qe e) Hne).
Qed.

(** X10: On an indexed store with documents, [search] returns exactly when every
    stored embedding has the dimension of the query's embedding; one stored
    vector of another dimension makes it throw the dimension error, whatever
    [topK] is, and nothing is returned for the other documents. *)
Theorem search_needs_one_dimension embed q k w qe :
  let s := store (afterInitialize w) in
  isIndexed s = true ->
  documents s <> [] ->
  embed q = Ok qe ->
  (Forall (fun e => length e = length qe) (embeddings s) ->
   exists hits, fst (search embed q k w) = Ok hits)
  /\ (Exists (fun e => length e <> length qe) (embeddings s) ->
      fst (search embed q k w) = Throw DimensionMismatch).
Proof.
  intros s Hidx Hdocs Hq. rewrite search_run. cbv zeta. fold s.
  rewrite Hidx, Hq. simpl.
  destruct (documents s) as [|d ds] eqn:Ed; [contradiction|]. simpl. split.
  - intros H. destruct (scoreAll_same_dimension qe _ 0%nat H) as (scores & -> & _).
    simpl. eauto.
  - intros H. now rewrite (scoreAll_other_dimension qe _ 0%nat H).
Qed.

Lemma search_needs_one_dimension_witness :
  let embed := fun _ : jsstr => Ok [1%float; 0%float; 0%float] in
  exists hits : list Hit,
    fst (search constantModel (lit "returns") 3 sampleWorld) = Ok hits
    /\ fst (search embed (lit "returns") 3 sampleWorld) = Throw DimensionMismatch.
Proof.
  destruct (search_needs_one_dimension constantModel (lit "returns") 3 sampleWorld e1)
    as [Hsame _]; [reflexivity|discriminate|reflexivity|].
  destruct Hsame as [hits Hhits]; [repeat constructor|].
  exists hits. split; [exact Hhits|].
  apply (search_needs_one_dimension (fun _ => Ok [1%float; 0%float; 0%float])
           (lit "returns") 3 sampleWorld [1%float; 0%float; 0%float]);
    [reflexivity|discriminate|reflexivity|].
  apply Exists_cons_hd. simpl. discriminate.
Defined.

Lemma scoreAll_index_bound qe embs : forall i scores,
  scoreAll qe i embs = Ok scores ->
  Forall (fun r => (index r < i + length embs)%nat) scores.
Proof.
  induction embs as [|e embs IH]; intros i scores H; simpl in H.
  - injection H as <-. constructor.
  - destruct (EmbeddingService.cosineSimilarity qe e) as [sc|]; [|discriminate].
    destruct (scoreAll qe (S i) embs) as [l|] eqn:E; [|discriminate].
    injection H as <-. constructor; [simpl; lia|].
    eapply Forall_impl; [exact (IH (S i) l E)|]. simpl. intros; lia.
Qed.

Lemma readDocuments_defined hits :
  Forall (fun h => is_Some (document h)) hits ->
  exists retrieved,
    RAGPipeline.readDocuments hits = Ok retrieved
    /\ map (fun r => Some (RAGPipeline.doc r)) retrieved = map document hits
    /\ map RAGPipeline.rscore retrieved = map hitScore hits.
Proof.
  induction 1 as [|h hits [d Hd] _ (l & Hl & Hdocs & Hsc)]; simpl.
  - now exists [].
  - exists ({| RAGPipeline.doc := d; RAGPipeline.rscore := hitScore h |} :: l).
    rewrite Hd, Hl. split; [reflexivity|]. simpl. now rewrite Hdocs, Hsc.
Qed.

(** X11: While the two arrays have equal length, every result of [search] carries
    a document of the store (never [undefined]), so the pipeline can read
    the title and content of each result. *)
Theorem search_results_carry_documents embed q k w hits :
  sound w ->
  fst (search embed q k w) = Ok hits ->
  Forall (fun h => exists d, document h = Some d
                             /\ d ∈ documents (store (afterInitialize w))) hits
  /\ exists retrieved,
       RAGPipeline.readDocuments hits = Ok retrieved
       /\ length retrieved = length hits.
Proof.
  intros Hsound H.
  assert (consistent (store (afterInitialize w))) as Hc.
  { pose proof (keeps_snd sound initialize w keeps_initialize Hsound) as Hs.
    rewrite initialize_run in Hs. exact (proj1 Hs). }
  assert (Forall (fun h => exists d, document h = Some d
                   /\ d ∈ documents (store (afterInitialize w))) hits) as Hdocs.
  { apply search_returns in H as [->|(qe & scores & _ & Hs & ->)]; [constructor|].
    apply Forall_map.
    destruct (sliceTo_prefix (sortScores scores) k) as [rest Hrest].
    pose proof (scoreAll_index_bound qe _ 0%nat scores Hs) as Hb.
    rewrite <- (sortScores_perm scores), Hrest in Hb.
    apply Forall_app in Hb as [Hb _].
    eapply Forall_impl; [exact Hb|]. intros r Hr. simpl in Hr.
    unfold toHit. simpl. unfold consistent in Hc.
    destruct (documents (store (afterInitialize w)) !! index r) as [d|] eqn:Ed.
    - exists d. split; [reflexivity|]. eapply list_elem_of_lookup_2; eauto.
    - apply lookup_ge_None in Ed. lia. }
  split; [exact Hdocs|].
  destruct (readDocuments_defined hits) as (retrieved & Hr & Hm & _).
  { eapply Forall_impl; [exact Hdocs|]. intros h (d & -> & _). eauto. }
  exists retrieved. split; [exact Hr|].
  apply (f_equal length) in Hm. now rewrite !length_map in Hm.
Qed.

Lemma search_results_carry_documents_witness :
  exists hits,
    fst (search constantModel (lit "returns") 3 sampleWorld) = Ok hits
    /\ Forall (fun h => exists d, document h = Some d
                 /\ d ∈ documents (store (afterInitialize sampleWorld))) hits
    /\ exists retrieved,
         RAGPipeline.readDocuments hits = Ok retrieved
         /\ length retrieved = length hits.
Proof.
  eexists. split; [reflexivity|].
  apply (search_results_carry_documents constantModel (lit "returns") 3 sampleWorld).
  - split; [reflexivity|exact I].
  - reflexivity.
Defined.


(** ** Every document *)

Lemma scoreAll_positions qe embs : forall i scores,
  scoreAll qe i embs = Ok scores -> map index scores = seq i (length embs).
Proof.
  induction embs as [|e embs IH]; intros i scores H; simpl in H.
  - now injection H as <-.
  - destruct (EmbeddingService.cosineSimilarity qe e) as [sc|]; [|discriminate].
    destruct (scoreAll qe (S i) embs) as [l|] eqn:E; [|discriminate].
    injection H as <-. simpl. f_equal. now apply IH.
Qed.

Lemma lookup_positions {A} (l : list A) :
  map (fun i => l !! i) (seq 0 (length l)) = map Some l.
Proof.
  induction l as [|x l IH]; [reflexivity|].
  simpl. f_equal. rewrite <- seq_shift, map_map. exact IH.
Qed.

Lemma sliceTo_all {A} (l : list A) k :
  Z.of_nat (length l) <= k -> sliceTo l k = l.
Proof.
  intros H. unfold sliceTo.
  replace (k <? 0) with false by (symmetry; apply Z.ltb_ge; lia).
  apply take_ge. lia.
Qed.

(** X12: Asked for at least as many results as the store has documents, a
    returning [search] on an indexed store returns every document exactly
    once. *)
Theorem search_returns_every_document embed q k w hits :
  sound w ->
  isIndexed (store (afterInitialize w)) = true ->
  Z.of_nat (length (documents (store (afterInitialize w)))) <= k ->
  fst (search embed q k w) = Ok hits ->
  map document hits ≡ₚ map Some (documents (store (afterInitialize w)))
  /\ length hits = length (documents (store (afterInitialize w))).
Proof.
  intros Hsound Hidx Hk H.
  assert (consistent (store (afterInitialize w))) as Hc.
  { pose proof (keeps_snd sound initialize w keeps_initialize Hsound) as Hs.
    rewrite initialize_run in Hs. exact (proj1 Hs). }
  unfold consistent in Hc.
  assert (map document hits ≡ₚ map Some (documents (store (afterInitialize w)))) as Hp.
  { rewrite search_run in H. cbv zeta in H. rewrite Hidx in H. simpl in H.
    destruct (documents (store (afterInitialize w))) as [|d ds] eqn:Ed.
    - simpl in H. now injection H as <-.
    - simpl in H. rewrite <- Ed in *. clear Ed d ds.
      destruct (embed q) as [qe|]; [|discriminate].
      destruct (scoreAll qe 0 (embeddings (store (afterInitialize w))))
        as [scores|] eqn:Es; [|discriminate].
      simpl in H. injection H as <-.
      pose proof (scoreAll_positions qe _ 0%nat scores Es) as Hpos.
      assert (length scores = length (embeddings (store (afterInitialize w)))) as Hlen.
      { apply (f_equal length) in Hpos. now rewrite length_map, length_seq in Hpos. }
      rewrite sliceTo_all
        by (rewrite (Permutation_length (sortScores_perm scores)); lia).
      rewrite map_map.
      rewrite (sortScores_perm scores).
      change (map (fun x => document (toHit (store (afterInitialize w)) x)) scores)
        with (map (fun r => documents (store (afterInitialize w)) !! index r) scores).
      rewrite <- (map_map index (fun i => documents (store (afterInitialize w)) !! i)).
      rewrite Hpos, <- Hc. now rewrite lookup_positions. }
  split; [exact Hp|].
  apply Permutation_length in Hp. now rewrite !length_map in Hp.
Qed.

Lemma search_returns_every_document_witness :
  exists hits,
    fst (search constantModel (lit "returns") 5 sampleWorld) = Ok hits
    /\ map document hits ≡ₚ [Some sampleChunk; Some otherChunk]
    /\ length hits = 2%nat.
Proof.
  eexists. split; [reflexivity|].
  apply (search_returns_every_document constantModel (lit "returns") 5 sampleWorld).
  - split; [reflexivity|exact I].
  - reflexivity.
  - discriminate.
  - reflexivity.
Defined.

(** ** Persistence *)

Lemma save_run w :
  save w =
  if writable (disk w)
  then (Ok tt, {| store := store w;
                  disk := {| file := Parsed (snapshotOf (store w));
                             writable := writable (disk w) |};
                  trace := trace w ++ [WriteFile] |})
  else (Throw WriteError,
        {| store := store w; disk := disk w; trace := trace w ++ [WriteFile] |}).
Proof. unfold save, writeSnapshot. run_M. now destruct (writable (disk w)). Qed.

(** X14: [clear] empties both arrays and resets the indexed flag in memory
    whether or not the write succeeds; on a writable disk the empty snapshot
    replaces the file, otherwise the write error is thrown and the file
    keeps its old content.  A search after it returns nothing and does not
    call the embedding model. *)
Theorem clear_empties_store embed w :
  let w' := snd (clear w) in
  documents (store w') = []
  /\ embeddings (store w') = []
  /\ isIndexed (store w') = false
  /\ fst (getStats w')
     = Ok {| stats_totalDocuments := 0; stats_isIndexed := false;
             embeddingDimension := 0 |}
  /\ fst (clear w) = (if writable (disk w) then Ok tt else Throw WriteError)
  /\ file (disk w')
     = (if writable (disk w)
        then Parsed {| snap_documents := Some []; snap_embeddings := Some [];
                       snap_isIndexed := Some false |}
        else file (disk w))
  /\ (initialized (store w) = true ->
      forall q k, search embed q k w' = (Ok [], w')).
Proof.
  intros w'.
  assert (clear w = save {| store := {| documents := []; embeddings := [];
                                        isIndexed := false;
                                        initialized := initialized (store w) |};
                            disk := disk w; trace := trace w |}) as Hrun
    by reflexivity.
  unfold w'. rewrite Hrun, save_run. simpl.
  destruct (writable (disk w)) eqn:Ew; simpl;
    (split; [reflexivity|]); (split; [reflexivity|]); (split; [reflexivity|]);
    (split; [reflexivity|]); (split; [reflexivity|]); (split; [reflexivity|]);
    intros Hi q k; rewrite search_run; cbv zeta;
    rewrite afterInitialize_idem by exact Hi; reflexivity.
Qed.

(** ** Embedding several texts *)

(** X15: [generateEmbeddings] asks the model for each text in order and returns
    the embeddings in that order; the first text that cannot be embedded
    makes the whole call throw, and the texts after it are not sent to the
    model.  The store and the disk are not touched. *)
Theorem generateEmbeddings_in_order embed texts w :
  (forall embs,
     Forall2 (fun text e => embed text = Ok e) texts embs ->
     generateEmbeddings embed texts w
     = (Ok embs, {| store := store w; disk := disk w;
                    trace := trace w ++ map Embed texts |}))
  /\ (forall done text rest embs err,
        texts = done ++ text :: rest ->
        Forall2 (fun text e => embed text = Ok e) done embs ->
        embed text = Throw err ->
        generateEmbeddings embed texts w
        = (Throw err, {| store := store w; disk := disk w;
                         trace := trace w ++ map Embed (done ++ [text]) |})).
Proof.
  split.
  - revert w. induction texts as [|t texts IH]; intros w embs H.
    + inversion H; subst. simpl. unfold ret. rewrite app_nil_r. now destruct w.
    + inversion H as [|? e ? embs' He Hrest]; subst. simpl.
      unfold generateEmbedding. run_M. rewrite He. simpl.
      rewrite (IH _ embs' Hrest). simpl. now rewrite <- app_assoc.
  - intros done text rest embs err -> Hdone Herr. revert w embs Hdone.
    induction done as [|t done IH]; intros w embs Hdone.
    + inversion Hdone; subst. simpl. unfold generateEmbedding. run_M.
      now rewrite Herr.
    + inversion Hdone as [|? e ? embs' He Hrest]; subst. simpl.
      unfold generateEmbedding. run_M. rewrite He. simpl.
      assert (generateEmbeddings embed (done ++ text :: rest)
                {| store := store w; disk := disk w; trace := trace w ++ [Embed t] |}
              = (Throw err,
                 {| store := store w; disk := disk w;
                    trace := (trace w ++ [Embed t]) ++ map Embed (done ++ [text]) |}))
        as Hrec by exact (IH _ embs' Hrest).
      rewrite Hrec. simpl. now rewrite <- app_assoc.
Qed.

End StoreOperationFacts.
(* ===================================================================== *)
(** * Further properties of the orchestrator *)
(* ===================================================================== *)

Module OrchestratorFacts.

Import DocumentProcessor VectorStore Regex RAGPipeline StoreInvariant RoutingSpec.
Import VectorStoreFacts SearchFacts RAGPipelineFacts StoreOperationFacts.

(** ** Occurrences *)

Lemma startsWith_spec pat s : startsWith pat s = true <-> exists rest, s = pat ++ rest.
Proof.
  revert s. induction pat as [|p pat IH]; intros s; simpl.
  - split; [eauto|reflexivity].
  - destruct s as [|c s]; [split; [discriminate|intros [r Hr]; discriminate]|].
    destruct (decide (p = c)) as [->|Hne].
    + rewrite IH. split; intros [r Hr]; exists r; [now rewrite Hr|now injection Hr].
    + split; [discriminate|]. intros [r Hr]. injection Hr as -> _. contradiction.
Qed.

Lemma indexOfFrom_none pat s : forall i,
  indexOfFrom pat s i = -1 -> 0 <= i ->
  forall k, startsWith pat (drop k s) = false.
Proof.
  induction s as [|c s IH]; intros i H Hi k; simpl in H.
  - destruct pat; [simpl in H; lia|]. now rewrite drop_nil.
  - destruct (startsWith pat (c :: s)) eqn:E; [lia|].
    destruct k as [|k]; [exact E|]. simpl. apply (IH (i + 1)); [exact H|lia].
Qed.

Lemma includes_false pat s :
  includes s pat = false -> forall k, startsWith pat (drop k s) = false.
Proof.
  unfold includes, indexOf, clamp, len. intros H k.
  replace (Z.to_nat (Z.min (Z.max 0 0) (Z.of_nat (length s)))) with 0%nat in H by lia.
  simpl in H. apply negb_false_iff, Z.eqb_eq in H.
  apply (indexOfFrom_none pat s 0 H); lia.
Qed.

(** A pattern whose first character does not occur again in it cannot begin
    inside [t] and run into a following copy of itself: if it occurs at the
    start of [t ++ pat ++ post] with [t] not empty, it occurs at the start
    of [t]. *)
Lemma startsWith_no_overlap c pat t post :
  c ∉ pat -> t <> [] ->
  startsWith (c :: pat) (t ++ (c :: pat) ++ post) = true ->
  startsWith (c :: pat) t = true.
Proof.
  intros Hc Ht H. apply startsWith_spec in H as [rest H].
  destruct (decide (length t < length (c :: pat))%nat) as [Hlt|Hge].
  - exfalso.
    assert ((t ++ (c :: pat) ++ post) !! length t = Some c) as H1.
    { rewrite lookup_app_r by lia. now rewrite Nat.sub_diag. }
    rewrite H in H1. rewrite lookup_app_l in H1 by exact Hlt.
    destruct t as [|x t]; [contradiction|]. simpl in H1.
    apply Hc. eapply list_elem_of_lookup_2. exact H1.
  - apply startsWith_spec. exists (drop (length (c :: pat)) t).
    apply (f_equal (take (length (c :: pat)))) in H.
    rewrite take_app_le in H by lia.
    rewrite take_app_length in H.
    rewrite <- H at 1. now rewrite take_drop.
Qed.

Lemma indexOfFrom_here pat s i : startsWith pat s = true -> indexOfFrom pat s i = i.
Proof. intros H. destruct s; simpl in *; now rewrite H. Qed.

Lemma indexOfFrom_skip pat x s i :
  startsWith pat (x :: s) = false ->
  indexOfFrom pat (x :: s) i = indexOfFrom pat s (i + 1).
Proof.
  intros H.
  change (indexOfFrom pat (x :: s) i)
    with (if startsWith pat (x :: s) then i else indexOfFrom pat s (i + 1)).
  now rewrite H.
Qed.

Lemma indexOfFrom_first c pat pre post : forall i,
  c ∉ pat ->
  includes pre (c :: pat) = false ->
  indexOfFrom (c :: pat) (pre ++ (c :: pat) ++ post) i = i + len pre.
Proof.
  intros i Hc Hpre. pose proof (includes_false _ _ Hpre) as Hno. clear Hpre.
  revert i. induction pre as [|x pre IH]; intros i.
  - change ([] ++ (c :: pat) ++ post) with ((c :: pat) ++ post).
    rewrite indexOfFrom_here by apply startsWith_app. unfold len. simpl. lia.
  - destruct (startsWith (c :: pat) ((x :: pre) ++ (c :: pat) ++ post)) eqn:E.
    + apply startsWith_no_overlap in E; [|exact Hc|discriminate].
      specialize (Hno 0%nat). simpl drop in Hno. congruence.
    + change ((x :: pre) ++ (c :: pat) ++ post)
        with (x :: (pre ++ (c :: pat) ++ post)) in *.
      rewrite indexOfFrom_skip by exact E.
      rewrite IH; [unfold len; cbn [length]; lia|].
      intros k. exact (Hno (S k)).
Qed.

Lemma indexOf_first c pat pre post from :
  c ∉ pat ->
  includes pre (c :: pat) = false ->
  indexOf (from ++ pre ++ (c :: pat) ++ post) (c :: pat) (len from)
  = len from + len pre.
Proof.
  intros Hc Hpre. unfold indexOf, clamp, len.
  replace (Z.to_nat (Z.min (Z.max (Z.of_nat (length from)) 0)
                       (Z.of_nat (length (from ++ pre ++ (c :: pat) ++ post)))))
    with (length from) by (rewrite length_app; lia).
  rewrite drop_app_length. now apply indexOfFrom_first.
Qed.

Lemma substring_middle a b c :
  substring (a ++ b ++ c) (len a) (len a + len b) = b.
Proof.
  unfold substring, clamp, len. rewrite !length_app.
  replace (Z.to_nat (Z.min (Z.max (Z.of_nat (length a)) 0)
                       (Z.of_nat (length a + (length b + length c)))))
    with (length a) by lia.
  replace (Z.to_nat (Z.min (Z.max (Z.of_nat (length a) + Z.of_nat (length b)) 0)
                       (Z.of_nat (length a + (length b + length c)))))
    with (length a + length b)%nat by lia.
  replace (Nat.min (length a) (length a + length b)) with (length a) by lia.
  replace (Nat.max (length a) (length a + length b) - length a)%nat
    with (length b) by lia.
  rewrite drop_app_length. now rewrite take_app_length.
Qed.

(** ** The thinking block *)

(** X16: A response made of some text without an opening tag, a block in think
    tags whose body has no closing tag, and any text after it: the body,
    trimmed, is the thinking, and the answer is the text around the block,
    trimmed. *)
Theorem parseThinking_extracts_first_block before inner after :
  includes before openTag = false ->
  includes inner closeTag = false ->
  parseThinking (before ++ openTag ++ inner ++ closeTag ++ after)
  = (Thought (trim inner), trim (before ++ after)).
Proof.
  intros Hb Hi. unfold parseThinking.
  rewrite includes_middle.
  replace (before ++ openTag ++ inner ++ closeTag ++ after)
    with ((before ++ openTag ++ inner) ++ closeTag ++ after) at 1
    by (now rewrite <- !app_assoc).
  rewrite includes_middle. simpl andb. cbv iota.
  unfold thinkMatch.
  assert (indexOf (before ++ openTag ++ inner ++ closeTag ++ after) openTag 0
          = len before) as Hopen.
  { pose proof (indexOf_first "<"%char (lit "think>") before
                  (inner ++ closeTag ++ after) []) as H.
    simpl in H. apply H; [|exact Hb].
    vm_compute. intros Hin. repeat (apply elem_of_cons in Hin as [Hin|Hin];
      [discriminate|]). now apply elem_of_nil in Hin. }
  rewrite Hopen.
  assert (indexOf (before ++ openTag ++ inner ++ closeTag ++ after) closeTag
            (len before + len openTag)
          = len before + len openTag + len inner) as Hclose.
  { pose proof (indexOf_first "<"%char (lit "/think>") inner after
                  (before ++ openTag)) as H.
    unfold len in *. rewrite length_app in H. rewrite Nat2Z.inj_add in H.
    rewrite <- !app_assoc in H. apply H; [|exact Hi].
    vm_compute. intros Hin. repeat (apply elem_of_cons in Hin as [Hin|Hin];
      [discriminate|]). now apply elem_of_nil in Hin. }
  rewrite Hclose.
  replace (len before =? -1) with false by (symmetry; apply Z.eqb_neq; unfold len; lia).
  replace (len before + len openTag + len inner =? -1) with false
    by (symmetry; apply Z.eqb_neq; unfold len; lia).
  assert (substring (before ++ openTag ++ inner ++ closeTag ++ after) 0 (len before)
          = before) as H1.
  { pose proof (substring_middle [] before (openTag ++ inner ++ closeTag ++ after)) as H.
    simpl in H. exact H. }
  assert (substring (before ++ openTag ++ inner ++ closeTag ++ after)
            (len before + len openTag) (len before + len openTag + len inner)
          = inner) as H2.
  { pose proof (substring_middle (before ++ openTag) inner (closeTag ++ after)) as H.
    unfold len in *. rewrite length_app, Nat2Z.inj_add in H.
    now rewrite <- !app_assoc in H. }
  assert (substring (before ++ openTag ++ inner ++ closeTag ++ after)
            (len before + len openTag + len inner + len closeTag)
            (len (before ++ openTag ++ inner ++ closeTag ++ after))
          = after) as H3.
  { pose proof (substring_middle (before ++ openTag ++ inner ++ closeTag) after []) as H.
    rewrite app_nil_r in H. unfold len in *.
    rewrite <- !app_assoc in H.
    rewrite !length_app in *. rewrite !Nat2Z.inj_add in *.
    rewrite <- H at 3. f_equal; lia. }
  now rewrite H1, H2, H3.
Qed.

Lemma parseThinking_extracts_first_block_witness :
  parseThinking (lit "<think> check the policy </think> Returns take 30 days.")
  = (Thought (lit "check the policy"), lit "Returns take 30 days.").
Proof.
  apply (parseThinking_extracts_first_block [] (lit " check the policy ")
           (lit " Returns take 30 days.")); reflexivity.
Defined.


(** ** The context prompt *)

Lemma join_part sep parts : forall i p,
  parts !! i = Some p -> exists l r, join sep parts = l ++ p ++ r.
Proof.
  induction parts as [|x parts IH]; intros i p Hi; [discriminate|].
  destruct i as [|i]; simpl in Hi.
  - injection Hi as ->. destruct parts as [|y parts].
    + exists [], []. simpl. now rewrite app_nil_r.
    + exists [], (sep ++ join sep (y :: parts)). reflexivity.
  - destruct (IH i p Hi) as (l & r & Hj). destruct parts as [|y parts]; [discriminate|].
    exists (x ++ sep ++ l), r.
    change (join sep (x :: y :: parts)) with (x ++ sep ++ join sep (y :: parts)).
    rewrite Hj. now rewrite <- !app_assoc.
Qed.

(** X17: The user message sent on the rag path contains, for each document of the
    context, a header with its rank counted from 1 and its title, followed
    by its content, and it contains the question. *)
Theorem userPrompt_carries_context q context :
  includes (userPrompt q context) (lit "Question: " ++ q) = true
  /\ forall i item,
       context !! i = Some item ->
       includes (userPrompt q context)
         (lit "[Document " ++ ofNat (i + 1) ++ lit ": " ++ title (doc item)
          ++ lit "]" ++ nl ++ content (doc item)) = true.
Proof.
  split.
  - unfold userPrompt.
    rewrite (app_assoc (lit "Question: ") q).
    rewrite !(app_assoc _ _ ((lit "Question: " ++ q) ++ _)).
    apply includes_middle.
  - intros i item Hi. unfold userPrompt, contextText.
    destruct (join_part (nl ++ nl)
                (imap (fun i item => lit "[Document " ++ ofNat (i + 1) ++ lit ": "
                         ++ title (doc item) ++ lit "]" ++ nl ++ content (doc item))
                      context) i
                (lit "[Document " ++ ofNat (i + 1) ++ lit ": " ++ title (doc item)
                 ++ lit "]" ++ nl ++ content (doc item))) as (l & r & ->).
    { rewrite list_lookup_imap, Hi. reflexivity. }
    set (part := lit "[Document " ++ ofNat (i + 1) ++ lit ": " ++ title (doc item)
                 ++ lit "]" ++ nl ++ content (doc item)).
    replace (lit "Context:" ++ nl ++ (l ++ part ++ r) ++ nl ++ nl ++ lit "---" ++ nl
             ++ nl ++ lit "Question: " ++ q ++ nl ++ nl
             ++ lit "Please provide a helpful answer based on the context above.")
      with ((lit "Context:" ++ nl ++ l) ++ part
            ++ (r ++ nl ++ nl ++ lit "---" ++ nl ++ nl ++ lit "Question: " ++ q ++ nl
                ++ nl
                ++ lit "Please provide a helpful answer based on the context above."))
      by (now rewrite <- !app_assoc).
    apply includes_middle.
Qed.

(** ** What [query] leaves alone *)

Lemma store_afterInitialize_trace w t :
  store (afterInitialize {| store := store w; disk := disk w; trace := t |})
  = store (afterInitialize w).
Proof. unfold afterInitialize. simpl. now destruct (initialized (store w)). Qed.

Lemma search_world embed q k w :
  let w' := snd (search embed q k w) in
  store w' = store (afterInitialize w)
  /\ disk w' = disk w
  /\ exists evs, trace w' = trace w ++ evs /\ Forall (fun e => e <> WriteFile) evs.
Proof.
  cbv zeta. rewrite search_run. cbv zeta.
  assert (exists evs, trace (afterInitialize w) = trace w ++ evs
                      /\ Forall (fun e => e <> WriteFile) evs) as (evs & Ht & He).
  { unfold afterInitialize. destruct (initialized (store w)).
    - exists []. now rewrite app_nil_r.
    - exists [ReadFile]. split; [reflexivity|]. repeat constructor. discriminate. }
  assert (Forall (fun e => e <> WriteFile) (evs ++ [Embed q])) as He'.
  { apply Forall_app. split; [exact He|]. repeat constructor. discriminate. }
  destruct (negb _ || _); simpl.
  { split; [reflexivity|]. split; [apply disk_afterInitialize|]. eauto. }
  destruct (embed q) as [qe|e]; simpl.
  2:{ split; [reflexivity|]. split; [apply disk_afterInitialize|].
      exists (evs ++ [Embed q]). rewrite Ht, <- app_assoc. now split. }
  destruct (scoreAll qe 0 _); simpl;
    (split; [reflexivity|]); (split; [apply disk_afterInitialize|]);
    exists (evs ++ [Embed q]); rewrite Ht, <- app_assoc; now split.
Qed.

Lemma query_world embed o q options w r w' :
  query embed o q options w = (r, w') ->
  disk w' = disk w
  /\ (store w' = store w \/ store w' = store (afterInitialize w))
  /\ exists evs, trace w' = trace w ++ evs /\ Forall (fun e => e <> WriteFile) evs.
Proof.
  unfold query, healthCheck, generate, generateWithContext, chatCall.
  unfold bind at 1. unfold bind at 1. unfold emit at 1. unfold ret at 1. cbv zeta.
  destruct (isCasualConversation q && available o).
  - run_M. intros H.
    assert (w' = {| store := store w; disk := disk w;
                    trace := (trace w ++ [HealthCheck]) ++ [Chat [(lit "user", q)]] |})
      as -> by (destruct (chat o _); now inversion H).
    simpl. split; [reflexivity|]. split; [now left|].
    exists [HealthCheck; Chat [(lit "user", q)]].
    split; [now rewrite <- app_assoc|]. repeat constructor; discriminate.
  - unfold bind at 1.
    set (w1 := {| store := store w; disk := disk w; trace := trace w ++ [HealthCheck] |}).
    destruct (search_world embed q (effectiveTopK options) w1)
      as (Hs1 & Hd1 & evs & Ht1 & He1).
    cbv zeta in Hs1, Hd1, Ht1.
    unfold w1 in Hs1 at 2. rewrite (store_afterInitialize_trace w) in Hs1.
    destruct (search embed q (effectiveTopK options) w1) as [[hits|e] w2];
      simpl in Hs1, Hd1, Ht1.
    2:{ intros H. inversion H; subst. split; [exact Hd1|]. split; [now right|].
        exists (HealthCheck :: evs). split; [now rewrite Ht1, <- app_assoc|].
        constructor; [discriminate|exact He1]. }
    unfold bind at 1. unfold liftResult at 1.
    destruct (readDocuments hits) as [retrieved|e].
    2:{ intros H. inversion H; subst. split; [exact Hd1|]. split; [now right|].
        exists (HealthCheck :: evs). split; [now rewrite Ht1, <- app_assoc|].
        constructor; [discriminate|exact He1]. }
    assert (forall messages,
              disk {| store := store w2; disk := disk w2;
                      trace := trace w2 ++ [Chat messages] |} = disk w
              /\ (store {| store := store w2; disk := disk w2;
                           trace := trace w2 ++ [Chat messages] |} = store w
                  \/ store {| store := store w2; disk := disk w2;
                              trace := trace w2 ++ [Chat messages] |}
                     = store (afterInitialize w))
              /\ exists evs', trace {| store := store w2; disk := disk w2;
                                       trace := trace w2 ++ [Chat messages] |}
                              = trace w ++ evs'
                              /\ Forall (fun e => e <> WriteFile) evs') as Hchat.
    { intros messages. simpl. split; [exact Hd1|]. split; [now right|].
      exists (HealthCheck :: evs ++ [Chat messages]).
      split; [rewrite Ht1, <- !app_assoc; reflexivity|].
      constructor; [discriminate|]. apply Forall_app. split; [exact He1|].
      repeat constructor. discriminate. }
    destruct ((length (relevantDocs retrieved) =? 0)%nat && available o).
    { run_M. intros H.
      assert (w' = {| store := store w2; disk := disk w2;
                      trace := trace w2 ++ [Chat [(lit "user", q)]] |})
        as -> by (destruct (chat o _); now inversion H).
      apply Hchat. }
    destruct (available o).
    { run_M. intros H.
      assert (w' = {| store := store w2; disk := disk w2;
                      trace := trace w2
                               ++ [Chat (ragMessages q (relevantDocs retrieved))] |})
        as -> by (destruct (chat o _); now inversion H).
      apply Hchat. }
    unfold ret. intros H. inversion H; subst.
    split; [exact Hd1|]. split; [now right|].
    exists (HealthCheck :: evs). split; [now rewrite Ht1, <- app_assoc|].
    constructor; [discriminate|exact He1].
Qed.

(** X18: [query] never writes: whatever the outcome, the snapshot file is as it
    was and the trace gained no write; the store is the one the call found
    or, when the call initialized it, the one loaded from the snapshot. *)
Theorem query_never_writes embed o q options w :
  let w' := snd (query embed o q options w) in
  disk w' = disk w
  /\ (store w' = store w \/ store w' = store (afterInitialize w))
  /\ (initialized (store w) = true -> store w' = store w)
  /\ exists evs, trace w' = trace w ++ evs /\ Forall (fun e => e <> WriteFile) evs.
Proof.
  cbv zeta.
  destruct (query_world embed o q options w _ _ (surjective_pairing _))
    as (Hd & Hs & Ht).
  split; [exact Hd|]. split; [exact Hs|]. split; [|exact Ht].
  intros Hi. destruct Hs as [Hs|Hs]; [exact Hs|].
  now rewrite afterInitialize_idem in Hs.
Qed.

(** X19: A casual query met while the backend is down is not answered by the
    casual path: the store is searched and the fallback answer is built from
    what was retrieved, with the query still labelled casual. *)
Theorem casual_query_offline_uses_fallback embed o q options w hits w1 retrieved :
  isCasualConversation q = true ->
  available o = false ->
  search embed q (effectiveTopK options) (snd (emit HealthCheck w)) = (Ok hits, w1) ->
  readDocuments hits = Ok retrieved ->
  exists resp,
    query embed o q options w = (Ok resp, w1)
    /\ generationMethod (metadata resp) = lit "fallback"
    /\ queryType (metadata resp) = lit "casual"
    /\ sources resp = map toSource retrieved
    /\ documentsRetrieved (metadata resp) = length retrieved
    /\ answer resp = snd (parseThinking (generateFallbackResponse q retrieved)).
Proof.
  intros Hc Ha Hs Hr. unfold emit in Hs. simpl in Hs.
  unfold query, healthCheck. run_M. rewrite Hc, Ha. simpl.
  rewrite Hs, Hr, andb_false_r.
  eexists. split; [reflexivity|].
  unfold respond. destruct (parseThinking _). simpl. repeat split.
Qed.

Lemma casual_query_offline_uses_fallback_witness :
  let q := lit "Hello, what is your return policy?" in
  let hits := [ {| document := Some sampleChunk; hitScore := 1%float |};
                {| document := Some otherChunk; hitScore := 0%float |} ] in
  let retrieved := [ {| doc := sampleChunk; rscore := 1%float |};
                     {| doc := otherChunk; rscore := 0%float |} ] in
  let w1 := {| store := store sampleWorld; disk := disk sampleWorld;
               trace := [HealthCheck; Embed q] |} in
  isCasualConversation q = true
  /\ exists resp,
       query constantModel offlineBackend q defaultOptions sampleWorld = (Ok resp, w1)
       /\ generationMethod (metadata resp) = lit "fallback"
       /\ queryType (metadata resp) = lit "casual"
       /\ sources resp = map toSource retrieved
       /\ documentsRetrieved (metadata resp) = length retrieved
       /\ answer resp = snd (parseThinking (generateFallbackResponse q retrieved)).
Proof.
  intros q hits retrieved w1.
  assert (isCasualConversation q = true) as H1 by (vm_compute; reflexivity).
  split; [exact H1|].
  apply (casual_query_offline_uses_fallback constantModel offlineBackend q
           defaultOptions sampleWorld hits w1 retrieved H1 eq_refl).
  - vm_compute. reflexivity.
  - reflexivity.
Defined.

(** ** Case and padding *)

Lemma isWhitespace_lowerChar c : isWhitespace (lowerChar c) = isWhitespace c.
Proof. destruct c as [[] [] [] [] [] [] [] []]; vm_compute; reflexivity. Qed.

Lemma trimStart_toLowerCase s : trimStart (toLowerCase s) = toLowerCase (trimStart s).
Proof.
  induction s as [|c s IH]; simpl; [reflexivity|].
  rewrite isWhitespace_lowerChar. destruct (isWhitespace c); [exact IH|reflexivity].
Qed.

Lemma trim_toLowerCase s : trim (toLowerCase s) = toLowerCase (trim s).
Proof.
  unfold trim, trimEnd. rewrite trimStart_toLowerCase.
  unfold toLowerCase at 1. rewrite <- map_rev.
  change (map lowerChar (rev (trimStart s))) with (toLowerCase (rev (trimStart s))).
  rewrite trimStart_toLowerCase. unfold toLowerCase. now rewrite map_rev.
Qed.

Lemma trimStart_padding ws s :
  Forall (fun c => isWhitespace c = true) ws -> trimStart (ws ++ s) = trimStart s.
Proof. induction 1 as [|c ws Hc _ IH]; simpl; [reflexivity|now rewrite Hc]. Qed.

Lemma trimEnd_padding ws s :
  Forall (fun c => isWhitespace c = true) ws -> trimEnd (s ++ ws) = trimEnd s.
Proof.
  intros H. unfold trimEnd. rewrite rev_app_distr, trimStart_padding; [reflexivity|].
  apply Forall_forall. intros c Hc. rewrite Forall_forall in H. apply H.
  apply list_elem_of_In. apply in_rev. now apply list_elem_of_In.
Qed.

Lemma trimStart_app s ws :
  Forall (fun c => isWhitespace c = true) ws ->
  trimStart (s ++ ws) = match trimStart s with [] => [] | _ => trimStart s ++ ws end.
Proof.
  intros H. induction s as [|c s IH]; simpl.
  - now apply ChunkingFacts.trimStart_whitespace.
  - destruct (isWhitespace c); [exact IH|reflexivity].
Qed.

Lemma trim_padding before s after :
  Forall (fun c => isWhitespace c = true) before ->
  Forall (fun c => isWhitespace c = true) after ->
  trim (before ++ s ++ after) = trim s.
Proof.
  intros Hb Ha. unfold trim. rewrite trimStart_padding by exact Hb.
  rewrite trimStart_app by exact Ha.
  destruct (trimStart s) eqn:E; [reflexivity|]. now apply trimEnd_padding.
Qed.

(** X20: The classification of a query does not depend on letter case nor on
    whitespace around it: two queries with the same lower-case form are
    classified alike, and so are a query and the same query with whitespace
    added before and after. *)
Theorem isCasualConversation_ignores_case_and_padding q :
  (forall q', toLowerCase q' = toLowerCase q ->
     isCasualConversation q' = isCasualConversation q)
  /\ (forall before after,
        Forall (fun c => isWhitespace c = true) before ->
        Forall (fun c => isWhitespace c = true) after ->
        isCasualConversation (before ++ q ++ after) = isCasualConversation q).
Proof.
  split.
  - intros q' H. unfold isCasualConversation.
    now rewrite <- !trim_toLowerCase, H.
  - intros before after Hb Ha. unfold isCasualConversation.
    now rewrite trim_padding.
Qed.

End OrchestratorFacts.
(* ===================================================================== *)
(** * Properties of the indexing service *)
(* ===================================================================== *)

Module IndexingFacts.

Import DocumentProcessor VectorStore StoreInvariant IndexingService BulkIndexing.
Import VectorStoreFacts SearchFacts StoreOperationFacts.

Section WithServices.

Variable md5 : jsstr -> jsstr.
Variable embed : jsstr -> result (list float).
Variable scrape : nat -> jsstr -> result ScrapedDoc.
Variable message : error -> jsstr.
Variable cfg : Config.

Local Abbreviation indexUrl := (IndexingService.indexUrl md5 embed scrape message cfg).
Local Abbreviation indexUrls := (IndexingService.indexUrls md5 embed scrape message cfg).
Local Abbreviation bulkLoop := (IndexingService.bulkLoop md5 embed scrape message cfg).
Local Abbreviation reportsFrom := (BulkIndexing.reportsFrom md5 embed scrape message cfg).

(** ** One URL *)

Lemma indexUrl_report fuel url ix w r ix' w' :
  indexUrl fuel url ix w = Some (r, ix', w') ->
  (forall e, scrape (requests ix) url = Throw e ->
     r = {| success := false; chunks := 0; errors := [message e] |} /\ w' = w)
  /\ (forall doc, scrape (requests ix) url = Ok doc -> len (sd_content doc) < 50 ->
        r = {| success := false; chunks := 0; errors := [noContent] |} /\ w' = w)
  /\ (forall doc docChunks,
        scrape (requests ix) url = Ok doc ->
        processDocument md5 fuel cfg doc = Some docChunks ->
        docChunks <> [] ->
        w' = snd (indexDocuments embed docChunks w)
        /\ r = match fst (indexDocuments embed docChunks w) with
               | Ok _ => {| success := true; chunks := length docChunks; errors := [] |}
               | Throw e => {| success := false; chunks := 0; errors := [message e] |}
               end)
  /\ (success r = false -> chunks r = 0%nat /\ length (errors r) = 1%nat)
  /\ (success r = true -> (0 < chunks r)%nat /\ errors r = [])
  /\ requests ix' = S (requests ix)
  /\ isIndexing ix' = isIndexing ix.
Proof.
  unfold IndexingService.indexUrl. intros H.
  destruct (scrape (requests ix) url) as [doc|e] eqn:Es.
  2:{ inversion H; subst. simpl.
      split; [intros e' [= <-]; now split|]. split; [discriminate|].
      split; [discriminate|]. split; [now split|]. split; [discriminate|].
      now split. }
  destruct (processDocument md5 fuel cfg doc) as [docChunks|] eqn:Ep; [|discriminate].
  destruct docChunks as [|c cs].
  - simpl in H. inversion H; subst. simpl.
    split; [discriminate|]. split; [intros doc' [= <-] _; now split|].
    split; [intros doc' dc [= <-]; rewrite Ep; intros [= <-] Hne; now destruct Hne|].
    split; [now split|]. split; [discriminate|]. now split.
  - change (length (c :: cs) =? 0)%nat with false in H. cbv iota in H.
    assert (50 <= len (sd_content doc)) as Hlong.
    { unfold processDocument in Ep.
      destruct (len (sd_content doc) <? 50) eqn:E; [discriminate|].
      now apply Z.ltb_ge in E. }
    destruct (indexDocuments embed (c :: cs) w) as [[[]|e] w1] eqn:Ei;
      inversion H; subst; simpl.
    + split; [discriminate|]. split; [intros doc' [= <-] Hs; lia|].
      split; [intros doc' dc [= <-]; rewrite Ep; intros [= <-] _;
              rewrite Ei; now split|].
      split; [discriminate|]. split; [split; [lia|reflexivity]|]. now split.
    + split; [discriminate|]. split; [intros doc' [= <-] Hs; lia|].
      split; [intros doc' dc [= <-]; rewrite Ep; intros [= <-] _;
              rewrite Ei; now split|].
      split; [now split|]. split; [discriminate|]. now split.
Qed.

Lemma processDocument_enough_fuel fuel doc :
  0 < chunkSize cfg -> 2 * chunkOverlap cfg <= chunkSize cfg ->
  len (sd_content doc) <= Z.of_nat fuel ->
  exists docChunks, processDocument md5 fuel cfg doc = Some docChunks.
Proof.
  intros Hsize Hov Hfuel. unfold processDocument.
  destruct (len (sd_content doc) <? 50); [eauto|].
  destruct (ChunkingFacts.chunkText_enough_fuel cfg (sd_content doc) fuel
              Hsize Hov Hfuel) as [texts ->].
  simpl. eauto.
Qed.

Lemma indexUrl_returns fuel url ix w :
  0 < chunkSize cfg -> 2 * chunkOverlap cfg <= chunkSize cfg ->
  (forall doc, scrape (requests ix) url = Ok doc ->
     len (sd_content doc) <= Z.of_nat fuel) ->
  exists r ix' w', indexUrl fuel url ix w = Some (r, ix', w').
Proof.
  intros Hsize Hov Hfuel. unfold IndexingService.indexUrl.
  destruct (scrape (requests ix) url) as [doc|e]; [|eauto].
  destruct (processDocument_enough_fuel fuel doc Hsize Hov (Hfuel doc eq_refl))
    as [docChunks ->].
  destruct (length docChunks =? 0)%nat; [eauto|].
  destruct (indexDocuments embed docChunks w) as [[[]|e] w1]; eauto.
Qed.

(** X21: with an overlap of at most half the chunk size and enough fuel for
    the page, [indexUrl] returns a report and never throws.  A page that
    cannot be scraped and a page with fewer than 50 characters of content
    leave the store and the disk as they were; otherwise the chunks of the
    page go to [indexDocuments], and the report says success with the number
    of chunks of the page when that call returns, and failure with no chunk
    when it throws.  A failure report counts no chunk and carries one error;
    a success report carries none. *)
Theorem indexUrl_reports_every_failure fuel url ix w :
  0 < chunkSize cfg -> 2 * chunkOverlap cfg <= chunkSize cfg ->
  (forall doc, scrape (requests ix) url = Ok doc ->
     len (sd_content doc) <= Z.of_nat fuel) ->
  exists r ix' w',
    indexUrl fuel url ix w = Some (r, ix', w')
    /\ (forall e, scrape (requests ix) url = Throw e ->
          r = {| success := false; chunks := 0; errors := [message e] |} /\ w' = w)
    /\ (forall doc, scrape (requests ix) url = Ok doc -> len (sd_content doc) < 50 ->
          r = {| success := false; chunks := 0; errors := [noContent] |} /\ w' = w)
    /\ (forall doc docChunks,
          scrape (requests ix) url = Ok doc ->
          processDocument md5 fuel cfg doc = Some docChunks ->
          docChunks <> [] ->
          w' = snd (indexDocuments embed docChunks w)
          /\ r = match fst (indexDocuments embed docChunks w) with
                 | Ok _ => {| success := true; chunks := length docChunks;
                              errors := [] |}
                 | Throw e => {| success := false; chunks := 0;
                                 errors := [message e] |}
                 end)
    /\ (success r = false -> chunks r = 0%nat /\ length (errors r) = 1%nat)
    /\ (success r = true -> (0 < chunks r)%nat /\ errors r = [])
    /\ requests ix' = S (requests ix)
    /\ isIndexing ix' = isIndexing ix.
Proof.
  intros Hsize Hov Hfuel.
  destruct (indexUrl_returns fuel url ix w Hsize Hov Hfuel) as (r & ix' & w' & H).
  exists r, ix', w'. split; [exact H|]. exact (indexUrl_report _ _ _ _ _ _ _ H).
Qed.

Lemma newDocsOf_known s docs :
  Forall (fun d => id d ∈ map id (documents s)) docs -> newDocsOf s docs = [].
Proof.
  unfold newDocsOf. induction 1 as [|d docs Hd _ IH]; [reflexivity|].
  rewrite filter_cons, decide_False; [exact IH|].
  intros Hn. apply Hn. now apply elem_of_existingIds.
Qed.

(** X22: A page whose chunks are all in the store already is reported as a
    success with its full number of chunks, although the call embeds
    nothing, appends nothing and writes nothing. *)
Theorem indexUrl_known_page_reports_success fuel url ix w doc docChunks :
  initialized (store w) = true ->
  scrape (requests ix) url = Ok doc ->
  processDocument md5 fuel cfg doc = Some docChunks ->
  docChunks <> [] ->
  Forall (fun d => id d ∈ map id (documents (store w))) docChunks ->
  exists ix',
    indexUrl fuel url ix w
    = Some ({| success := true; chunks := length docChunks; errors := [] |}, ix', w).
Proof.
  intros Hi Hs Hp Hne Hknown. unfold IndexingService.indexUrl. rewrite Hs, Hp.
  destruct docChunks as [|c cs]; [contradiction|].
  change (length (c :: cs) =? 0)%nat with false. cbv iota.
  rewrite indexDocuments_run. cbv zeta.
  rewrite afterInitialize_idem by exact Hi.
  rewrite (newDocsOf_known _ _ Hknown). simpl. eauto.
Qed.

(** X23: On a disk that cannot be written, a page whose texts are all embedded is
    reported as a failure with no chunk, although all its new chunks are in
    the store afterwards, and the store is marked indexed. *)
Theorem indexUrl_write_failure_keeps_chunks fuel url ix w doc docChunks embs :
  writable (disk w) = false ->
  scrape (requests ix) url = Ok doc ->
  processDocument md5 fuel cfg doc = Some docChunks ->
  let newDocs := newDocsOf (store (afterInitialize w)) docChunks in
  newDocs <> [] ->
  Forall2 (fun d e => embed (textToEmbed d) = Ok e) newDocs embs ->
  exists ix' w',
    indexUrl fuel url ix w
    = Some ({| success := false; chunks := 0; errors := [message WriteError] |}, ix', w')
    /\ documents (store w') = documents (store (afterInitialize w)) ++ newDocs
    /\ embeddings (store w') = embeddings (store (afterInitialize w)) ++ embs
    /\ isIndexed (store w') = true
    /\ disk w' = disk w.
Proof.
  intros Hw Hs Hp newDocs Hne Hall.
  pose proof (indexDocuments_all_embedded embed docChunks embs w Hne Hall) as Hrun.
  cbv zeta in Hrun. rewrite save_run in Hrun. simpl in Hrun.
  rewrite disk_afterInitialize, Hw in Hrun.
  unfold IndexingService.indexUrl. rewrite Hs, Hp.
  assert (docChunks <> []) as Hne'.
  { intros ->. apply Hne. reflexivity. }
  destruct docChunks as [|c cs]; [contradiction|].
  change (length (c :: cs) =? 0)%nat with false. cbv iota.
  rewrite Hrun. eexists _, _. split; [reflexivity|]. simpl. now repeat split.
Qed.

(** ** Several URLs *)

Lemma indexUrl_indexer fuel url ix w r ix' w' :
  indexUrl fuel url ix w = Some (r, ix', w') ->
  isIndexing ix' = isIndexing ix
  /\ currentProgress ix' = currentProgress ix
  /\ requests ix' = S (requests ix)
  /\ (success r = false -> length (errors r) = 1%nat).
Proof.
  unfold IndexingService.indexUrl. intros H.
  destruct (scrape (requests ix) url) as [doc|e]; [|inversion H; now subst].
  destruct (processDocument md5 fuel cfg doc) as [docChunks|]; [|discriminate].
  destruct (length docChunks =? 0)%nat; [inversion H; now subst|].
  destruct (indexDocuments embed docChunks w) as [[[]|e] w1]; inversion H; subst;
    simpl; repeat split; discriminate.
Qed.

Lemma bulkLoop_accounts fuel urls : forall results ix w results' ix' w',
  bulkLoop fuel urls results ix w = Some (results', ix', w') ->
  progress_totalChunks (currentProgress ix) = bulk_totalChunks results ->
  (successful results' + failed results'
   = successful results + failed results + length urls)%nat
  /\ (bulk_totalChunks results <= bulk_totalChunks results')%nat
  /\ (exists added,
        bulk_errors results' = bulk_errors results ++ added
        /\ (length added + failed results = failed results')%nat
        /\ sublist (map fst added) urls
        /\ Forall (fun entry => length (snd entry) = 1%nat) added)
  /\ isIndexing ix' = isIndexing ix
  /\ status (currentProgress ix') = status (currentProgress ix)
  /\ totalUrls (currentProgress ix') = totalUrls (currentProgress ix)
  /\ (processedUrls (currentProgress ix')
      = processedUrls (currentProgress ix) + length urls)%nat
  /\ progress_totalChunks (currentProgress ix') = bulk_totalChunks results'
  /\ requests ix' = (requests ix + length urls)%nat.
Proof.
  induction urls as [|url rest IH]; intros results ix w results' ix' w' H Hinv;
    simpl in H.
  - inversion H; subst. simpl.
    split; [lia|]. split; [lia|].
    split; [exists []; rewrite app_nil_r; repeat split; constructor|].
    repeat split; lia.
  - destruct (indexUrl fuel url ix w) as [[[r ix1] w1]|] eqn:Eu; [|discriminate].
    destruct (indexUrl_indexer _ _ _ _ _ _ _ Eu) as (Hi1 & Hp1 & Hr1 & He1).
    apply IH in H; [|reflexivity].
    destruct H as (Hsum & Hch & (added & Herr & Hlen & Hsub & Hone)
                   & Hi & Hst & Htot & Hproc & Hprog & Hreq).
    unfold tally in *.
    destruct (success r) eqn:Es; simpl in *.
    + split; [lia|]. split; [lia|].
      split.
      { exists added. split; [exact Herr|]. split; [exact Hlen|].
        split; [now apply sublist_cons|exact Hone]. }
      rewrite Hp1 in *. rewrite Hi, Hst, Htot, Hproc, Hreq, Hr1, Hi1, Hprog.
      repeat split; lia.
    + split; [lia|]. split; [lia|].
      split.
      { exists ((url, errors r) :: added). rewrite Herr, <- app_assoc.
        split; [reflexivity|]. split; [simpl; lia|].
        split; [simpl; now apply sublist_skip|].
        constructor; [simpl; now apply He1|exact Hone]. }
      rewrite Hp1 in *. rewrite Hi, Hst, Htot, Hproc, Hreq, Hr1, Hi1, Hprog.
      repeat split; lia.
Qed.

Lemma indexUrls_count fuel urls ix w outcome ix' w' :
  indexUrls fuel urls ix w = Some (outcome, ix', w') ->
  (isIndexing ix = true -> outcome = AlreadyIndexing /\ ix' = ix /\ w' = w)
  /\ (isIndexing ix = false ->
      exists results,
        outcome = Finished results
        /\ (successful results + failed results = length urls)%nat
        /\ length (bulk_errors results) = failed results
        /\ sublist (map fst (bulk_errors results)) urls
        /\ Forall (fun entry => length (snd entry) = 1%nat) (bulk_errors results)
        /\ isIndexing ix' = false
        /\ currentProgress ix'
           = {| status := lit "completed";
                totalUrls := length urls;
                processedUrls := length urls;
                progress_totalChunks := bulk_totalChunks results;
                progress_errors := bulk_errors results |}
        /\ requests ix' = (requests ix + length urls)%nat).
Proof.
  unfold IndexingService.indexUrls. intros H.
  destruct (isIndexing ix) eqn:Ei.
  - inversion H; subst. split; [now intros _|discriminate].
  - split; [discriminate|]. intros _.
    destruct (bulkLoop fuel urls _ _ w) as [[[results ix1] w1]|] eqn:El;
      [|discriminate].
    inversion H; subst. clear H.
    apply bulkLoop_accounts in El; [|reflexivity].
    destruct El as (Hsum & _ & (added & Herr & Hlen & Hsub & Hone)
                    & _ & _ & Htot & Hproc & Hprog & Hreq).
    simpl in *. subst added.
    exists results. split; [reflexivity|]. split; [lia|]. split; [lia|].
    split; [exact Hsub|]. split; [exact Hone|]. split; [reflexivity|].
    split; [|exact Hreq].
    rewrite Htot, Hproc, Hprog. reflexivity.
Qed.

Lemma bulkLoop_returns fuel urls : forall results ix w,
  0 < chunkSize cfg -> 2 * chunkOverlap cfg <= chunkSize cfg ->
  (forall n url doc, scrape n url = Ok doc -> len (sd_content doc) <= Z.of_nat fuel) ->
  exists results' ix' w', bulkLoop fuel urls results ix w = Some (results', ix', w').
Proof.
  induction urls as [|url rest IH]; intros results ix w Hsize Hov Hfuel; simpl;
    [eauto|].
  destruct (indexUrl_returns fuel url ix w Hsize Hov (Hfuel (requests ix) url))
    as (r & ix1 & w1 & ->).
  now apply IH.
Qed.

Lemma indexUrl_same_requests fuel url ix ix0 w r ix1 w1 :
  requests ix0 = requests ix ->
  indexUrl fuel url ix w = Some (r, ix1, w1) ->
  exists ix2,
    indexUrl fuel url ix0 w = Some (r, ix2, w1) /\ requests ix2 = requests ix1.
Proof.
  unfold IndexingService.indexUrl. intros -> H.
  destruct (scrape (requests ix) url) as [doc|e];
    [|inversion H; subst; eexists; split; reflexivity].
  destruct (processDocument md5 fuel cfg doc) as [docChunks|]; [|discriminate].
  destruct (length docChunks =? 0)%nat;
    [inversion H; subst; eexists; split; reflexivity|].
  destruct (indexDocuments embed docChunks w) as [[[]|e] w2]; inversion H; subst;
    eexists; split; reflexivity.
Qed.

Lemma bulkLoop_reports fuel urls : forall results ix w results' ix' w' ix0,
  bulkLoop fuel urls results ix w = Some (results', ix', w') ->
  requests ix0 = requests ix ->
  exists reports,
    reportsFrom fuel urls ix0 w = Some (reports, w')
    /\ length reports = length urls
    /\ (successful results'
        = successful results + length (filter (fun r => success r = true) reports))%nat
    /\ (failed results'
        = failed results + length (filter (fun r => success r = false) reports))%nat
    /\ (bulk_totalChunks results'
        = bulk_totalChunks results
          + sum_list (map chunks (filter (fun r => success r = true) reports)))%nat
    /\ bulk_errors results'
       = bulk_errors results ++ omap errorEntry (zip urls reports).
Proof.
  induction urls as [|url rest IH]; intros results ix w results' ix' w' ix0 H Hreq;
    simpl in H.
  - inversion H; subst. exists []. simpl. rewrite app_nil_r.
    repeat split; lia.
  - destruct (indexUrl fuel url ix w) as [[[r ix1] w1]|] eqn:Eu; [|discriminate].
    destruct (indexUrl_same_requests _ _ _ _ _ _ _ _ Hreq Eu) as (ix2 & Eu0 & Hreq2).
    destruct (IH _ _ _ _ _ _ ix2 H) as (reports & Hrep & Hlen & Hs & Hf & Hc & He);
      [exact Hreq2|].
    exists (r :: reports). cbn [BulkIndexing.reportsFrom]. rewrite Eu0, Hrep.
    split; [reflexivity|]. split; [simpl; now rewrite Hlen|].
    rewrite Hs, Hf, Hc, He. clear Hs Hf Hc He.
    rewrite !filter_cons. cbn [zip zip_with omap list_omap].
    unfold tally, errorEntry at 2.
    destruct (success r) eqn:Es; cbn [fst snd].
    + rewrite Es.
      rewrite decide_True by reflexivity. rewrite decide_False by discriminate.
      simpl. repeat split; lia.
    + rewrite Es.
      rewrite decide_False by discriminate. rewrite decide_True by reflexivity.
      simpl. rewrite <- app_assoc. repeat split; lia.
Qed.

(** X24: with an overlap of at most half the chunk size and enough fuel for
    every page, [indexUrls] returns.  It refuses to start while a run is in
    progress and changes nothing then.  Otherwise it does not throw, and its
    result sums up what [indexUrl] reported for the URLs, called in order,
    each call working on the world the call before left: [successful] is the
    number of reports of success, [failed] the number of reports of failure,
    [totalChunks] the sum of the chunks of the reports of success, and
    [errors] holds, in order, each URL reported as failed with the errors of
    its report (one error each).  At the end the service is no longer
    indexing and its progress shows the run completed, with every URL
    processed and the same chunk total and errors as the result. *)
Theorem indexUrls_counts_every_url fuel urls ix w :
  0 < chunkSize cfg -> 2 * chunkOverlap cfg <= chunkSize cfg ->
  (forall n url doc, scrape n url = Ok doc -> len (sd_content doc) <= Z.of_nat fuel) ->
  exists outcome ix' w',
    indexUrls fuel urls ix w = Some (outcome, ix', w')
    /\ (isIndexing ix = true -> outcome = AlreadyIndexing /\ ix' = ix /\ w' = w)
    /\ (isIndexing ix = false ->
        exists results reports,
          outcome = Finished results
          /\ reportsFrom fuel urls ix w = Some (reports, w')
          /\ length reports = length urls
          /\ successful results
             = length (filter (fun r => success r = true) reports)
          /\ failed results
             = length (filter (fun r => success r = false) reports)
          /\ bulk_totalChunks results
             = sum_list (map chunks (filter (fun r => success r = true) reports))
          /\ bulk_errors results = omap errorEntry (zip urls reports)
          /\ (successful results + failed results = length urls)%nat
          /\ length (bulk_errors results) = failed results
          /\ sublist (map fst (bulk_errors results)) urls
          /\ Forall (fun entry => length (snd entry) = 1%nat) (bulk_errors results)
          /\ isIndexing ix' = false
          /\ currentProgress ix'
             = {| status := lit "completed";
                  totalUrls := length urls;
                  processedUrls := length urls;
                  progress_totalChunks := bulk_totalChunks results;
                  progress_errors := bulk_errors results |}
          /\ requests ix' = (requests ix + length urls)%nat).
Proof.
  intros Hsize Hov Hfuel.
  assert (exists outcome ix' w', indexUrls fuel urls ix w = Some (outcome, ix', w'))
    as (outcome & ix' & w' & H).
  { unfold IndexingService.indexUrls. destruct (isIndexing ix); [eauto|].
    match goal with
    | |- context [IndexingService.bulkLoop _ _ _ _ _ _ _ ?r ?i _] =>
        destruct (bulkLoop_returns fuel urls r i w Hsize Hov Hfuel)
          as (results & ix1 & w1 & ->)
    end.
    eauto. }
  exists outcome, ix', w'. split; [exact H|].
  destruct (indexUrls_count _ _ _ _ _ _ _ H) as [Hbusy Hrun].
  split; [exact Hbusy|]. intros Hidle.
  destruct (Hrun Hidle) as (results & -> & Hsum & Hlen & Hsub & Hone & Hrest).
  unfold IndexingService.indexUrls in H. rewrite Hidle in H.
  destruct (IndexingService.bulkLoop _ _ _ _ _ _ _ _ _ _)
    as [[[results1 ix1] w1]|] eqn:El; [|discriminate].
  injection H as -> _ ->.
  destruct (bulkLoop_reports _ _ _ _ _ _ _ _ ix El eq_refl)
    as (reports & Hrep & Hlr & Hs & Hf & Hc & He).
  simpl in Hs, Hf, Hc, He.
  exists results, reports. repeat (split; [assumption || reflexivity|]).
  exact Hrest.
Qed.

End WithServices.


(** ** Removal by URL *)

Lemma zip_delete {A B} i : forall (l : list A) (k : list B),
  zip (delete i l) (delete i k) = delete i (zip l k).
Proof.
  induction i as [|i IH]; intros [|a l] [|b k]; simpl; try reflexivity;
    try (now destruct l).
  f_equal. apply IH.
Qed.

Lemma filter_all {A} (P : A -> Prop) `{forall x, Decision (P x)} (l : list A) :
  Forall P l -> filter P l = l.
Proof.
  induction 1 as [|x l Hx _ IH]; [reflexivity|].
  now rewrite filter_cons_True, IH.
Qed.

Lemma filter_iff_in {A} (P Q : A -> Prop) `{forall x, Decision (P x)}
    `{forall x, Decision (Q x)} (l : list A) :
  (forall x, x ∈ l -> P x <-> Q x) -> filter P l = filter Q l.
Proof.
  induction l as [|x l IH]; intros Hl; [reflexivity|].
  rewrite !filter_cons.
  assert (filter P l = filter Q l) as ->.
  { apply IH. intros y Hy. apply Hl. now apply elem_of_cons; right. }
  pose proof (Hl x ltac:(apply elem_of_cons; now left)) as Hx.
  destruct (decide (P x)), (decide (Q x)); tauto.
Qed.

Lemma delete_filter_unique {A} (P : A -> Prop) `{forall x, Decision (P x)} :
  forall (l : list A) i a,
    l !! i = Some a -> ~ P a ->
    (forall j b, l !! j = Some b -> j <> i -> P b) ->
    delete i l = filter P l.
Proof.
  induction l as [|x l IH]; intros i a Hi Ha Hothers; [discriminate|].
  destruct i as [|i]; simpl in *.
  - injection Hi as ->. rewrite filter_cons_False by exact Ha.
    symmetry. apply filter_all. apply Forall_lookup. intros j b Hj.
    apply (Hothers (S j) b Hj). discriminate.
  - rewrite filter_cons_True by (apply (Hothers 0%nat x eq_refl); discriminate).
    f_equal. apply (IH i a Hi Ha). intros j b Hj Hne.
    apply (Hothers (S j) b Hj). congruence.
Qed.

Lemma spliceDocument_run docId w :
  spliceDocument docId w
  = (Ok tt,
     {| store := match findIndex docId (documents (store w)) with
                 | Some i => splicePair i (store w)
                 | None => store w
                 end;
        disk := disk w; trace := trace w |}).
Proof.
  unfold spliceDocument. run_M.
  destruct (findIndex docId (documents (store w))); [reflexivity|now destruct w].
Qed.

Lemma same_id_same_chunk docs d d' :
  NoDup (map id docs) -> d ∈ docs -> d' ∈ docs -> id d = id d' -> d = d'.
Proof.
  intros Hn Hd Hd' Hid.
  apply list_elem_of_lookup in Hd as [i Hi]. apply list_elem_of_lookup in Hd' as [j Hj].
  assert (i = j) as ->.
  { apply (NoDup_lookup (map id docs) i j (id d) Hn).
    - rewrite list_lookup_fmap, Hi. reflexivity.
    - rewrite list_lookup_fmap, Hj, Hid. reflexivity. }
  congruence.
Qed.

(** Removing an id from a store whose ids are pairwise distinct keeps
    exactly the pairs with another id. *)
Lemma splice_keeps_other_ids docId s :
  consistent s -> NoDup (map id (documents s)) ->
  let s' := match findIndex docId (documents s) with
            | Some i => splicePair i s
            | None => s
            end in
  documents s' = filter (fun d => id d <> docId) (documents s)
  /\ zip (documents s') (embeddings s')
     = filter (fun p => id p.1 <> docId) (zip (documents s) (embeddings s))
  /\ consistent s'
  /\ isIndexed s' = isIndexed s /\ initialized s' = initialized s.
Proof.
  intros Hc Hn. cbv zeta.
  destruct (findIndex docId (documents s)) as [i|] eqn:Ef.
  - apply findIndex_Some in Ef as (d & Hd & Hid & _).
    assert (forall j b, documents s !! j = Some b -> j <> i -> id b <> docId) as Hothers.
    { intros j b Hj Hne Hb. apply Hne.
      apply (NoDup_lookup (map id (documents s)) j i docId Hn).
      - rewrite list_lookup_fmap, Hj. simpl. now rewrite Hb.
      - rewrite list_lookup_fmap, Hd. simpl. now rewrite Hid. }
    simpl. split; [|split; [|split; [now apply consistent_delete|now split]]].
    + apply (delete_filter_unique _ _ i d Hd); [tauto|exact Hothers].
    + rewrite zip_delete.
      assert (i < length (embeddings s))%nat as Hi.
      { unfold consistent in Hc. rewrite <- Hc. apply lookup_lt_is_Some. eauto. }
      apply lookup_lt_is_Some in Hi as [e He].
      apply (delete_filter_unique _ _ i (d, e)).
      * apply lookup_zip_with_Some. exists d, e. now repeat split.
      * simpl. tauto.
      * intros j [b eb] Hj Hne. simpl.
        apply lookup_zip_with_Some in Hj as (b' & eb' & [= <- <-] & Hb & _).
        exact (Hothers j b Hb Hne).
  - apply findIndex_None in Ef.
    assert (Forall (fun d => id d <> docId) (documents s)) as Hall.
    { apply Forall_forall. intros d Hd Heq. apply Ef. rewrite <- Heq.
      apply list_elem_of_fmap. now exists d. }
    split; [now rewrite filter_all|].
    split; [|split; [exact Hc|now split]].
    rewrite filter_all; [reflexivity|].
    apply Forall_forall. intros [d e] Hp. simpl.
    apply elem_of_zip_l in Hp. rewrite Forall_forall in Hall. now apply Hall.
Qed.

Lemma spliceAll_keeps_other_ids toRemove : forall w,
  consistent (store w) -> NoDup (map id (documents (store w))) ->
  let w' := snd (spliceAll toRemove w) in
  fst (spliceAll toRemove w) = Ok tt
  /\ documents (store w')
     = filter (fun d => id d ∉ map id toRemove) (documents (store w))
  /\ zip (documents (store w')) (embeddings (store w'))
     = filter (fun p => id p.1 ∉ map id toRemove)
         (zip (documents (store w)) (embeddings (store w)))
  /\ consistent (store w')
  /\ isIndexed (store w') = isIndexed (store w)
  /\ initialized (store w') = initialized (store w)
  /\ disk w' = disk w /\ trace w' = trace w.
Proof.
  induction toRemove as [|d rest IH]; intros w Hc Hn; cbv zeta.
  - simpl. split; [reflexivity|].
    split; [rewrite filter_all; [reflexivity|]; apply Forall_forall; intros x _;
            apply not_elem_of_nil|].
    split; [rewrite filter_all; [reflexivity|]; apply Forall_forall; intros x _;
            apply not_elem_of_nil|].
    repeat split. exact Hc.
  - simpl spliceAll. unfold bind. rewrite spliceDocument_run.
    destruct (splice_keeps_other_ids (id d) (store w) Hc Hn)
      as (Hd & Hz & Hc' & Hidx & Hini).
    cbv zeta in Hd, Hz, Hc', Hidx, Hini.
    set (s1 := match findIndex (id d) (documents (store w)) with
               | Some i => splicePair i (store w)
               | None => store w
               end) in *.
    specialize (IH {| store := s1; disk := disk w; trace := trace w |}).
    simpl in IH.
    destruct IH as (Hok & Hd2 & Hz2 & Hc2 & Hidx2 & Hini2 & Hdisk & Htrace);
      [exact Hc'| |].
    { rewrite Hd. apply NoDup_fmap_2_strong; [|apply NoDup_filter].
      - intros x y Hx Hy Hxy. apply list_elem_of_filter in Hx as [_ Hx].
        apply list_elem_of_filter in Hy as [_ Hy].
        now apply (same_id_same_chunk (documents (store w))).
      - now apply NoDup_fmap_1 in Hn. }
    split; [exact Hok|].
    split.
    { rewrite Hd2, Hd, list_filter_filter. apply list_filter_iff. intros x.
      simpl. rewrite not_elem_of_cons. tauto. }
    split.
    { rewrite Hz2, Hz, list_filter_filter. apply list_filter_iff. intros x.
      simpl. rewrite not_elem_of_cons. tauto. }
    split; [exact Hc2|]. split; [congruence|]. split; [congruence|].
    split; [exact Hdisk|exact Htrace].
Qed.

(** X25: In a store whose ids are pairwise distinct and whose arrays have equal
    length, [removeByUrl] returns the number of chunks of the URL and has,
    when it returns, removed exactly those chunks, each with its embedding;
    the other pairs keep their order.  The snapshot has not been written
    yet at that point. *)
Theorem removeByUrl_removes_the_chunks_of_the_url u w :
  consistent (store w) ->
  NoDup (map id (documents (store w))) ->
  let w' := snd (removeByUrl u w) in
  fst (removeByUrl u w)
  = Ok (length (filter (fun d => url d = u) (documents (store w))))
  /\ documents (store w') = filter (fun d => url d <> u) (documents (store w))
  /\ zip (documents (store w')) (embeddings (store w'))
     = filter (fun p => url p.1 <> u)
         (zip (documents (store w)) (embeddings (store w)))
  /\ length (documents (store w')) = length (embeddings (store w'))
  /\ disk w' = disk w.
Proof.
  intros Hc Hn. cbv zeta.
  set (toRemove := filter (fun d => url d = u) (documents (store w))).
  destruct (spliceAll_keeps_other_ids toRemove w Hc Hn)
    as (Hok & Hd & Hz & Hc' & _ & _ & Hdisk & Htrace).
  cbv zeta in Hd, Hz, Hc', Hdisk, Htrace.
  assert (removeByUrl u w = (Ok (length toRemove), snd (spliceAll toRemove w))) as Hrun.
  { unfold removeByUrl. run_M. fold toRemove.
    destruct (spliceAll toRemove w) as [[[]|e] w1]; [reflexivity|discriminate]. }
  rewrite Hrun. simpl.
  assert (forall d, d ∈ documents (store w) ->
            id d ∉ map id toRemove <-> url d <> u) as Hiff.
  { intros d Hdin. split.
    - intros Hnot Hu. apply Hnot. apply list_elem_of_fmap. exists d.
      split; [reflexivity|]. apply list_elem_of_filter. now split.
    - intros Hu Hin. apply list_elem_of_fmap in Hin as (d' & Hid & Hd').
      apply list_elem_of_filter in Hd' as [Hu' Hd'].
      assert (d = d') as -> by (now apply (same_id_same_chunk (documents (store w)))).
      contradiction. }
  split; [reflexivity|].
  split; [rewrite Hd; now apply filter_iff_in|].
  split; [|split; [exact Hc'|exact Hdisk]].
  rewrite Hz. apply filter_iff_in. intros [d e] Hp. simpl.
  apply Hiff. now apply elem_of_zip_l in Hp.
Qed.


(** ** Statistics *)

Lemma countCategory_lookup m d c :
  category d ∉ objectPrototypeNames ->
  m !! category d <> Some NotACount ->
  countCategory m d !! c
  = if decide (category d = c)
    then Some (Count (from_option countOf 0%nat (m !! c) + 1))
    else m !! c.
Proof.
  intros Hp Hm. unfold countCategory.
  destruct (m !! category d) as [[n|]|] eqn:E; [|congruence|].
  - destruct (decide (category d = c)) as [<-|Hne].
    + now rewrite lookup_insert_eq, E.
    + now rewrite lookup_insert_ne.
  - rewrite bool_decide_eq_false_2 by exact Hp.
    destruct (decide (category d = c)) as [<-|Hne].
    + now rewrite lookup_insert_eq, E.
    + now rewrite lookup_insert_ne.
Qed.

Lemma fold_countCategory_lookup docs : forall m c,
  Forall (fun d => category d ∉ objectPrototypeNames) docs ->
  (forall c', m !! c' <> Some NotACount) ->
  fold_left countCategory docs m !! c
  = match length (filter (fun d => category d = c) docs) with
    | O => m !! c
    | S k => Some (Count (from_option countOf 0%nat (m !! c) + S k))
    end.
Proof.
  induction docs as [|d docs IH]; intros m c Hp Hm; simpl; [reflexivity|].
  apply Forall_cons in Hp as [Hd Hp].
  assert (forall c', countCategory m d !! c' <> Some NotACount) as Hm'.
  { intros c'. rewrite countCategory_lookup by auto.
    destruct (decide (category d = c')); [discriminate|apply Hm]. }
  rewrite (IH _ c Hp Hm'), countCategory_lookup by auto.
  rewrite filter_cons. destruct (decide (category d = c)) as [Hc|Hc]; simpl.
  - destruct (length (filter _ docs)); [reflexivity|]. do 2 f_equal. lia.
  - reflexivity.
Qed.

Lemma sum_insert_new (m : gmap jsstr Entry) k v :
  m !! k = None ->
  map_fold (fun _ e acc => countOf e + acc)%nat 0%nat (<[k := v]> m)
  = (countOf v + map_fold (fun _ e acc => countOf e + acc)%nat 0%nat m)%nat.
Proof.
  intros Hk.
  apply (map_fold_insert_L (fun _ e acc => countOf e + acc)%nat); [|exact Hk].
  intros. lia.
Qed.

Lemma sum_countCategory m d :
  category d ∉ objectPrototypeNames ->
  m !! category d <> Some NotACount ->
  map_fold (fun _ e acc => countOf e + acc)%nat 0%nat (countCategory m d)
  = S (map_fold (fun _ e acc => countOf e + acc)%nat 0%nat m).
Proof.
  intros Hp Hm. unfold countCategory.
  destruct (m !! category d) as [[n|]|] eqn:E; [|congruence|].
  - rewrite <- (insert_delete_id m (category d) (Count n) E) at 2.
    rewrite <- insert_delete_eq.
    rewrite !sum_insert_new by apply lookup_delete_eq. simpl. lia.
  - rewrite bool_decide_eq_false_2 by exact Hp. now rewrite sum_insert_new.
Qed.

Lemma length_remove_dups_le {A} `{EqDecision A} (l : list A) :
  (length (remove_dups l) <= length l)%nat.
Proof.
  induction l as [|x l IH]; simpl; [lia|].
  destruct (decide_rel elem_of x l); simpl; lia.
Qed.

(** The categories [categorizeContent] assigns are not names of
    [Object.prototype]. *)
Lemma categorizeContent_own_name u t c :
  categorizeContent u t c ∉ objectPrototypeNames.
Proof.
  unfold categorizeContent.
  repeat match goal with |- context [if ?b then _ else _] => destruct b end;
    intros H; apply list_elem_of_In in H; vm_compute in H; intuition discriminate.
Qed.

(** X26: The category counts of [getStats].  For documents whose categories are
    not names of properties of [Object.prototype], every category carried
    by [n > 0] documents has the count [n], a category without documents
    has no entry, the counts add up to the number of documents, and there
    are at most as many distinct URLs as documents.  The categories
    [categorizeContent] assigns are not such names; a document whose
    category is one gets no count. *)
Theorem getStats_counts_every_document allDocs :
  (Forall (fun d => category d ∉ objectPrototypeNames) allDocs ->
   (forall c, byCategory allDocs !! c
              = match length (filter (fun d => category d = c) allDocs) with
                | O => None
                | S k => Some (Count (S k))
                end)
   /\ map_fold (fun _ e acc => countOf e + acc)%nat 0%nat (byCategory allDocs)
      = length allDocs
   /\ (uniqueUrls allDocs <= length allDocs)%nat)
  /\ (forall url title content,
        categorizeContent url title content ∉ objectPrototypeNames)
  /\ (forall d n, category d ∈ objectPrototypeNames ->
        byCategory [d] !! category d <> Some (Count n)).
Proof.
  split; [|split; [apply categorizeContent_own_name|]].
  2:{ intros d n Hd. unfold byCategory. simpl. unfold countCategory.
      rewrite lookup_empty, bool_decide_eq_true_2 by exact Hd.
      destruct (bool_decide (category d = lit "__proto__"));
        [now rewrite lookup_empty|now rewrite lookup_insert_eq]. }
  intros Hp. split; [|split].
  - intros c. unfold byCategory.
    rewrite fold_countCategory_lookup;
      [|exact Hp|intros c'; now rewrite lookup_empty].
    now rewrite lookup_empty.
  - unfold byCategory.
    assert (forall docs m,
              Forall (fun d => category d ∉ objectPrototypeNames) docs ->
              (forall c', m !! c' <> Some NotACount) ->
              map_fold (fun _ e acc => countOf e + acc)%nat 0%nat
                (fold_left countCategory docs m)
              = (map_fold (fun _ e acc => countOf e + acc)%nat 0%nat m
                 + length docs)%nat) as H.
    { induction docs as [|d docs IH]; intros m Hd Hm; simpl; [lia|].
      apply Forall_cons in Hd as [Hd Hds].
      rewrite IH; [rewrite sum_countCategory by auto; lia|exact Hds|].
      intros c'. rewrite countCategory_lookup by auto.
      destruct (decide (category d = c')); [discriminate|apply Hm]. }
    rewrite H; [now rewrite map_fold_empty|exact Hp|].
    intros c'. now rewrite lookup_empty.
  - unfold uniqueUrls.
    assert (list_to_set (map url allDocs)
            = (list_to_set (remove_dups (map url allDocs)) : gset jsstr)) as ->.
    { apply set_eq. intros x. rewrite !elem_of_list_to_set.
      now rewrite elem_of_remove_dups. }
    rewrite size_list_to_set by apply NoDup_remove_dups.
    etransitivity; [apply length_remove_dups_le|].
    now rewrite length_map.
Qed.

Lemma getStats_counts_every_document_witness :
  let allDocs := [sampleChunk; otherChunk; sampleChunk] in
  Forall (fun d => category d ∉ objectPrototypeNames) allDocs
  /\ byCategory allDocs !! lit "faq" = Some (Count 2)
  /\ byCategory allDocs !! lit "support" = None
  /\ (uniqueUrls allDocs <= 3)%nat.
Proof.
  intros allDocs.
  assert (Forall (fun d => category d ∉ objectPrototypeNames) allDocs) as Hp.
  { unfold allDocs.
    repeat (apply Forall_cons_2;
            [intros H; apply list_elem_of_In in H; vm_compute in H;
             intuition discriminate|]).
    apply Forall_nil_2. }
  split; [exact Hp|].
  destruct (proj1 (getStats_counts_every_document allDocs) Hp) as (Hc & _ & Hu).
  split; [exact (Hc (lit "faq"))|]. split; [exact (Hc (lit "support"))|exact Hu].
Defined.

(** ** Sitemaps *)

Lemma locBody_here s : startsWith locClose s = true -> locBody s = Some [].
Proof. intros H. destruct s; cbn [locBody]; now rewrite H. Qed.

Lemma locBody_found u rest :
  Forall (fun c => c <> "<"%char /\ isLineTerminator c = false) u ->
  locBody (u ++ locClose ++ rest) = Some u.
Proof.
  induction 1 as [|c u [Hc Hl] _ IH].
  - change ([] ++ locClose ++ rest) with (locClose ++ rest).
    apply locBody_here. apply RAGPipelineFacts.startsWith_app.
  - change ((c :: u) ++ locClose ++ rest) with (c :: (u ++ locClose ++ rest)).
    cbn [locBody]. rewrite IH, Hl.
    replace (startsWith locClose (c :: u ++ locClose ++ rest)) with false;
      [reflexivity|].
    symmetry. unfold locClose, lit. simpl.
    now rewrite decide_False by congruence.
Qed.

Lemma locs_skip k : forall html, locs k html = locs 0 (drop k html).
Proof.
  induction k as [|k IH]; intros html; [reflexivity|].
  destruct html as [|c html]; [reflexivity|]. simpl. apply IH.
Qed.

Lemma locs_step c html :
  startsWith locOpen (c :: html) = false -> locs 0 (c :: html) = locs 0 html.
Proof. intros H. cbn [locs]. now rewrite H. Qed.

Lemma locOpen_not_inside lead rest :
  includes lead locOpen = false ->
  forall k, (k < length lead)%nat ->
    startsWith locOpen (drop k lead ++ locOpen ++ rest) = false.
Proof.
  intros Hlead k Hk.
  destruct (startsWith locOpen (drop k lead ++ locOpen ++ rest)) eqn:E; [|reflexivity].
  apply (OrchestratorFacts.startsWith_no_overlap "<"%char (lit "loc>")) in E.
  - pose proof (OrchestratorFacts.includes_false _ _ Hlead k) as Hf.
    change locOpen with ("<"%char :: lit "loc>") in Hf. congruence.
  - vm_compute. intros Hin. repeat (apply elem_of_cons in Hin as [Hin|Hin];
      [discriminate|]). now apply elem_of_nil in Hin.
  - intros Hnil. apply (f_equal length) in Hnil. rewrite length_drop in Hnil.
    simpl in Hnil. lia.
Qed.

Lemma locs_lead lead rest :
  includes lead locOpen = false ->
  locs 0 (lead ++ locOpen ++ rest) = locs 0 (locOpen ++ rest).
Proof.
  intros Hlead. pose proof (locOpen_not_inside lead rest Hlead) as Hno.
  pose proof (OrchestratorFacts.includes_false _ _ Hlead) as Hin. clear Hlead.
  induction lead as [|c lead IH]; [reflexivity|].
  change ((c :: lead) ++ locOpen ++ rest) with (c :: (lead ++ locOpen ++ rest)).
  rewrite locs_step by (apply (Hno 0%nat); simpl; lia).
  apply IH.
  - intros k Hk. apply (Hno (S k)). simpl. lia.
  - intros k. apply (Hin (S k)).
Qed.

Lemma locs_none s : includes s locOpen = false -> locs 0 s = [].
Proof.
  intros H. pose proof (OrchestratorFacts.includes_false _ _ H) as Hno. clear H.
  induction s as [|c s IH]; [reflexivity|].
  rewrite locs_step by apply (Hno 0%nat). apply IH. intros k. apply (Hno (S k)).
Qed.

(** X27: A sitemap text made of entries [<loc>url</loc>], each URL free of [<]
    and of line breaks, with any text that does not contain [<loc>] before,
    between and after them, gives back exactly the URLs, in order. *)
Theorem parseSitemap_reads_back_the_urls lead (entries : list (jsstr * jsstr)) :
  includes lead locOpen = false ->
  Forall (fun entry =>
            Forall (fun c => c <> "<"%char /\ isLineTerminator c = false) entry.1
            /\ includes entry.2 locOpen = false) entries ->
  parseSitemap
    (lead ++ concat (map (fun entry => locOpen ++ entry.1 ++ locClose ++ entry.2)
                         entries))
  = map fst entries.
Proof.
  unfold parseSitemap. intros Hlead Hall. revert lead Hlead.
  induction Hall as [|[u sep] entries [Hu Hsep] _ IH]; intros lead Hlead.
  - simpl. rewrite app_nil_r. now apply locs_none.
  - cbn [map concat fst snd] in *.
    set (tail := concat (map (fun entry => locOpen ++ entry.1 ++ locClose ++ entry.2)
                             entries)) in *.
    replace ((locOpen ++ u ++ locClose ++ sep) ++ tail)
      with (locOpen ++ (u ++ locClose ++ sep ++ tail))
      by (now rewrite <- !app_assoc).
    rewrite locs_lead by exact Hlead.
    change (locOpen ++ u ++ locClose ++ sep ++ tail)
      with ("<"%char :: (lit "loc>" ++ u ++ locClose ++ sep ++ tail)).
    cbn [locs].
    change ("<"%char :: (lit "loc>" ++ u ++ locClose ++ sep ++ tail))
      with (locOpen ++ u ++ locClose ++ sep ++ tail).
    rewrite RAGPipelineFacts.startsWith_app.
    rewrite drop_app_length, (locBody_found u (sep ++ tail) Hu).
    f_equal. rewrite locs_skip.
    replace (drop (length locOpen + length u + length locClose - 1)
               (lit "loc>" ++ u ++ locClose ++ sep ++ tail))
      with (sep ++ tail).
    + now apply IH.
    + replace (lit "loc>" ++ u ++ locClose ++ sep ++ tail)
        with ((lit "loc>" ++ u ++ locClose) ++ sep ++ tail)
        by (now rewrite <- !app_assoc).
      replace (length locOpen + length u + length locClose - 1)%nat
        with (length (lit "loc>" ++ u ++ locClose))
        by (rewrite !length_app; simpl; lia).
      now rewrite drop_app_length.
Qed.


(** ** Instances *)

Lemma indexUrl_reports_every_failure_witness :
  let scrape := fun (_ : nat) (_ : jsstr) => Ok ChunkerExamples.paddedDoc in
  let message := fun _ : error => lit "failed" in
  exists r ix' w',
    IndexingService.indexUrl (fun s => s) constantModel scrape message defaultConfig
      60 (lit "https://example.com/faq") idle (boot {| file := Absent; writable := true |})
    = Some (r, ix', w')
    /\ (success r = false -> chunks r = 0%nat /\ length (errors r) = 1%nat)
    /\ (success r = true -> (0 < chunks r)%nat /\ errors r = [])
    /\ requests ix' = 1%nat.
Proof.
  intros scrape message.
  destruct (indexUrl_reports_every_failure (fun s => s) constantModel scrape message
              defaultConfig 60 (lit "https://example.com/faq") idle
              (boot {| file := Absent; writable := true |}))
    as (r & ix' & w' & H & _ & _ & _ & Hf & Hs & Hr & _).
  - reflexivity.
  - discriminate.
  - intros doc [= <-]. discriminate.
  - exists r, ix', w'. split; [exact H|]. split; [exact Hf|]. split; [exact Hs|exact Hr].
Defined.

Lemma indexUrl_known_page_reports_success_witness :
  let scrape := fun (_ : nat) (_ : jsstr) => Ok ChunkerExamples.paddedDoc in
  let message := fun _ : error => lit "failed" in
  let md5 := fun s : jsstr => s in
  exists docChunks w,
    processDocument md5 1 defaultConfig ChunkerExamples.paddedDoc = Some docChunks
    /\ documents (store w) = docChunks
    /\ exists ix',
         IndexingService.indexUrl md5 constantModel scrape message defaultConfig
           1 (lit "https://example.com/faq") idle w
         = Some ({| success := true; chunks := length docChunks; errors := [] |}, ix', w).
Proof.
  intros scrape message md5.
  destruct (processDocument md5 1 defaultConfig ChunkerExamples.paddedDoc)
    as [docChunks|] eqn:Ep; [|vm_compute in Ep; discriminate].
  exists docChunks,
    {| store := {| documents := docChunks; embeddings := map (fun _ => e1) docChunks;
                   isIndexed := true; initialized := true |};
       disk := {| file := Absent; writable := true |}; trace := [] |}.
  split; [reflexivity|]. split; [reflexivity|].
  apply (indexUrl_known_page_reports_success md5 constantModel scrape message
           defaultConfig 1 (lit "https://example.com/faq") idle _
           ChunkerExamples.paddedDoc docChunks).
  - reflexivity.
  - reflexivity.
  - exact Ep.
  - intros ->. vm_compute in Ep. discriminate.
  - simpl. apply Forall_forall. intros d Hd. apply list_elem_of_fmap. now exists d.
Defined.

Lemma indexUrl_write_failure_keeps_chunks_witness :
  let scrape := fun (_ : nat) (_ : jsstr) => Ok ChunkerExamples.paddedDoc in
  let message := fun _ : error => lit "failed" in
  let md5 := fun s : jsstr => s in
  let w := boot {| file := Absent; writable := false |} in
  exists docChunks ix' w',
    processDocument md5 1 defaultConfig ChunkerExamples.paddedDoc = Some docChunks
    /\ IndexingService.indexUrl md5 constantModel scrape message defaultConfig
         1 (lit "https://example.com/faq") idle w
       = Some ({| success := false; chunks := 0; errors := [lit "failed"] |}, ix', w')
    /\ documents (store w') = docChunks
    /\ isIndexed (store w') = true
    /\ disk w' = disk w.
Proof.
  intros scrape message md5 w.
  destruct (processDocument md5 1 defaultConfig ChunkerExamples.paddedDoc)
    as [docChunks|] eqn:Ep; [|vm_compute in Ep; discriminate].
  assert (length docChunks = 1%nat) as Hlen.
  { vm_compute in Ep. injection Ep as <-. reflexivity. }
  assert (newDocsOf (store (afterInitialize w)) docChunks = docChunks) as Hnew.
  { unfold newDocsOf. apply filter_all. apply Forall_forall. intros d _.
    unfold existingIds. simpl. apply not_elem_of_empty. }
  destruct (indexUrl_write_failure_keeps_chunks md5 constantModel scrape message
              defaultConfig 1 (lit "https://example.com/faq") idle w
              ChunkerExamples.paddedDoc docChunks (map (fun _ => e1) docChunks))
    as (ix' & w' & Hrun & Hdocs & _ & Hidx & Hdisk).
  - reflexivity.
  - reflexivity.
  - exact Ep.
  - rewrite Hnew. intros ->. discriminate.
  - rewrite Hnew. clear. induction docChunks; constructor; [reflexivity|assumption].
  - exists docChunks, ix', w'. split; [reflexivity|]. split; [exact Hrun|].
    split; [rewrite Hdocs, Hnew; reflexivity|]. split; [exact Hidx|exact Hdisk].
Defined.

Lemma indexUrls_counts_every_url_witness :
  let scrape := fun (n : nat) (_ : jsstr) =>
                  if (n =? 0)%nat then Ok ChunkerExamples.paddedDoc
                  else Throw ReadError in
  let message := fun _ : error => lit "failed" in
  let md5 := fun s : jsstr => s in
  let urls := [lit "https://example.com/faq"; lit "https://example.com/gone"] in
  exists results reports ix' w',
    IndexingService.indexUrls md5 constantModel scrape message defaultConfig 60 urls idle
      (boot {| file := Absent; writable := true |})
    = Some (Finished results, ix', w')
    /\ BulkIndexing.reportsFrom md5 constantModel scrape message defaultConfig 60 urls
         idle (boot {| file := Absent; writable := true |})
       = Some (reports, w')
    /\ successful results = length (filter (fun r => success r = true) reports)
    /\ bulk_errors results = omap errorEntry (zip urls reports)
    /\ (successful results + failed results = 2)%nat
    /\ length (bulk_errors results) = failed results
    /\ isIndexing ix' = false.
Proof.
  intros scrape message md5 urls.
  destruct (indexUrls_counts_every_url md5 constantModel scrape message defaultConfig
              60 urls idle (boot {| file := Absent; writable := true |}))
    as (outcome & ix' & w' & E & _ & H).
  - reflexivity.
  - discriminate.
  - intros n url doc. unfold scrape. destruct (n =? 0)%nat; [|discriminate].
    intros [= <-]. discriminate.
  - destruct (H eq_refl)
      as (results & reports & -> & Hrep & _ & Hs & _ & _ & He & Hsum & Hlen & _ & _
          & Hidle & _).
    exists results, reports, ix', w'. split; [exact E|]. split; [exact Hrep|].
    split; [exact Hs|]. split; [exact He|]. split; [exact Hsum|].
    split; [exact Hlen|exact Hidle].
Defined.

Lemma removeByUrl_removes_the_chunks_of_the_url_witness :
  let w' := snd (removeByUrl (lit "https://example.com/faq") sampleWorld) in
  fst (removeByUrl (lit "https://example.com/faq") sampleWorld) = Ok 1%nat
  /\ documents (store w') = [otherChunk]
  /\ embeddings (store w') = [e2]
  /\ disk w' = disk sampleWorld.
Proof.
  destruct (removeByUrl_removes_the_chunks_of_the_url
              (lit "https://example.com/faq") sampleWorld)
    as (Hn & Hd & Hz & _ & Hdisk).
  - reflexivity.
  - simpl. apply NoDup_cons. split; [|apply NoDup_singleton].
    intros H. apply list_elem_of_singleton in H. vm_compute in H. discriminate.
  - cbv zeta in Hn, Hd, Hz, Hdisk. cbv zeta.
    split; [exact Hn|]. split; [exact Hd|]. split; [|exact Hdisk].
    vm_compute. reflexivity.
Defined.

Lemma parseSitemap_reads_back_the_urls_witness :
  parseSitemap (lit "<urlset><url><loc>https://example.com/a</loc></url><url><loc>https://example.com/b</loc></url></urlset>")
  = [lit "https://example.com/a"; lit "https://example.com/b"].
Proof.
  apply (parseSitemap_reads_back_the_urls (lit "<urlset><url>")
           [(lit "https://example.com/a", lit "</url><url>");
            (lit "https://example.com/b", lit "</url></urlset>")]).
  - reflexivity.
  - repeat constructor; discriminate.
Defined.

End IndexingFacts.
(* ===================================================================== *)
(** * Properties of the scraper's text cleaning *)
(* ===================================================================== *)

Module WebScraperFacts.

Import WebScraper TextShape.

Lemma collapseWhitespace_singleSpaced s : forall inRun,
  singleSpaced inRun (collapseWhitespace inRun s).
Proof.
  induction s as [|c s IH]; intros inRun; simpl; [exact I|].
  destruct (isWhitespace c) eqn:E.
  - destruct inRun; [apply IH|]. simpl. repeat split. apply IH.
  - simpl. rewrite E. apply IH.
Qed.

Lemma collapseWhitespace_fixed s : forall inRun,
  singleSpaced inRun s -> collapseWhitespace inRun s = s.
Proof.
  induction s as [|c s IH]; intros inRun H; simpl in *; [reflexivity|].
  destruct (isWhitespace c).
  - destruct H as (-> & -> & H). f_equal. now apply IH.
  - f_equal. now apply IH.
Qed.

Lemma singleSpaced_no_line_feed s : forall b,
  singleSpaced b s -> Forall (fun c => isLineFeed c = false) s.
Proof.
  induction s as [|c s IH]; intros b H; simpl in H; constructor.
  - destruct (isWhitespace c) eqn:E.
    + destruct H as (-> & _). reflexivity.
    + unfold isLineFeed. unfold isWhitespace in E.
      destruct (code c =? 10)%N eqn:E10; [|reflexivity].
      apply N.eqb_eq in E10. rewrite E10 in E. discriminate.
  - destruct (isWhitespace c); [destruct H as (_ & _ & H)|]; eapply IH; exact H.
Qed.

Lemma squeezeBlankLines_no_line_feed s :
  Forall (fun c => isLineFeed c = false) s -> squeezeBlankLines 0 s = s.
Proof.
  induction 1 as [|c s Hc _ IH]; simpl; [reflexivity|]. now rewrite Hc, IH.
Qed.

Lemma singleSpaced_prefix l1 l2 : forall b,
  singleSpaced b (l1 ++ l2) -> singleSpaced b l1.
Proof.
  induction l1 as [|c l1 IH]; intros b H; simpl in *; [exact I|].
  destruct (isWhitespace c).
  - destruct H as (Hc & Hb & H). repeat split; auto.
  - now apply IH.
Qed.

Lemma singleSpaced_trimStart s : forall b b',
  singleSpaced b s -> singleSpaced b' (trimStart s).
Proof.
  induction s as [|c s IH]; intros b b' H; simpl in *; [exact I|].
  destruct (isWhitespace c) eqn:E.
  - destruct H as (_ & _ & H). now apply (IH true).
  - simpl. now rewrite E.
Qed.

Lemma trimStart_split s :
  exists l, s = l ++ trimStart s /\ Forall (fun c => isWhitespace c = true) l.
Proof.
  induction s as [|c s (l & Hl & Hws)]; simpl.
  - exists []. now split.
  - destruct (isWhitespace c) eqn:E.
    + exists (c :: l). simpl. rewrite <- Hl. split; [reflexivity|now constructor].
    + exists []. now split.
Qed.

Lemma trim_split s :
  exists l r,
    s = l ++ trim s ++ r
    /\ Forall (fun c => isWhitespace c = true) l
    /\ Forall (fun c => isWhitespace c = true) r.
Proof.
  unfold trim, trimEnd.
  destruct (trimStart_split s) as (l & Hl & Hwl).
  destruct (trimStart_split (rev (trimStart s))) as (r & Hr & Hwr).
  exists l, (rev r). split; [|split; [exact Hwl|]].
  - rewrite <- rev_app_distr, <- Hr, rev_involutive. exact Hl.
  - apply Forall_forall. intros c Hc. rewrite Forall_forall in Hwr. apply Hwr.
    apply list_elem_of_In. apply in_rev. now apply list_elem_of_In.
Qed.

Lemma singleSpaced_trim s b : singleSpaced b s -> singleSpaced false (trim s).
Proof.
  intros H. unfold trim.
  pose proof (singleSpaced_trimStart s b false H) as H1.
  destruct (trim_split (trimStart s)) as (l & r & Hs & Hl & _).
  assert (l = []) as ->.
  { destruct l as [|c l]; [reflexivity|]. exfalso.
    apply Forall_cons in Hl as [Hc _].
    pose proof (ChunkingFacts.trimStart_head s) as Hh. rewrite Hs in Hh.
    simpl in Hh. congruence. }
  simpl in Hs. unfold trim in Hs.
  rewrite (ChunkingFacts.trimStart_idem s) in Hs.
  rewrite Hs in H1. now apply singleSpaced_prefix in H1.
Qed.

Lemma singleSpaced_spaces s : forall b,
  singleSpaced b s ->
  Forall (fun c => isWhitespace c = true -> c = " "%char) s
  /\ forall i, s !! i = Some " "%char -> s !! S i <> Some " "%char.
Proof.
  induction s as [|c s IH]; intros b H; simpl in H.
  - split; [constructor|]. intros i Hi. discriminate.
  - destruct (isWhitespace c) eqn:E.
    + destruct H as (-> & _ & H). destruct (IH true H) as [Hall Hadj].
      split; [constructor; auto|].
      intros [|i] Hi; [|apply (Hadj i Hi)].
      simpl. destruct s as [|c' s]; [discriminate|]. simpl in H.
      intros [= ->]. simpl in H. destruct H as (_ & Hf & _). discriminate.
    + destruct (IH false H) as [Hall Hadj].
      split; [constructor; [congruence|exact Hall]|].
      intros [|i] Hi; [|apply (Hadj i Hi)].
      simpl in Hi. injection Hi as ->. discriminate.
Qed.

Lemma collapseWhitespace_keeps_text s : forall inRun,
  filter (fun c => isWhitespace c = false) (collapseWhitespace inRun s)
  = filter (fun c => isWhitespace c = false) s.
Proof.
  induction s as [|c s IH]; intros inRun; cbn [collapseWhitespace]; [reflexivity|].
  destruct (isWhitespace c) eqn:E.
  - rewrite (filter_cons_False (fun c => isWhitespace c = false) c s) by congruence.
    destruct inRun; [apply IH|].
    rewrite (filter_cons_False (fun c => isWhitespace c = false) " "%char)
      by discriminate.
    apply IH.
  - rewrite (filter_cons_True (fun c => isWhitespace c = false) c s) by exact E.
    rewrite (filter_cons_True (fun c => isWhitespace c = false) c) by exact E.
    f_equal. apply IH.
Qed.

Lemma filter_whitespace_nil l :
  Forall (fun c => isWhitespace c = true) l ->
  filter (fun c => isWhitespace c = false) l = [].
Proof.
  induction 1 as [|c l Hc _ IH]; [reflexivity|].
  rewrite filter_cons_False by congruence. exact IH.
Qed.


Lemma collapseWhitespace_head s :
  match collapseWhitespace true s with
  | [] => True
  | c :: _ => isWhitespace c = false
  end.
Proof.
  induction s as [|c s IH]; simpl; [exact I|].
  destruct (isWhitespace c) eqn:E; [exact IH|exact E].
Qed.

Lemma trimStart_collapseWhitespace s b :
  trimStart (collapseWhitespace b s) = collapseWhitespace true s.
Proof.
  revert b. induction s as [|c s IH]; intros b; simpl; [reflexivity|].
  destruct (isWhitespace c) eqn:E.
  - destruct b; [apply IH|]. simpl. apply IH.
  - simpl. now rewrite E.
Qed.

Lemma trimEnd_word w s :
  Forall (fun c => isWhitespace c = false) w -> trimEnd (w ++ s) = w ++ trimEnd s.
Proof.
  induction 1 as [|c w Hc _ IH]; simpl; [reflexivity|].
  rewrite ChunkingFacts.trimEnd_cons by exact Hc. now rewrite IH.
Qed.

Lemma trimEnd_nil : trimEnd [] = [].
Proof. reflexivity. Qed.

Lemma trimEnd_space c s :
  isWhitespace c = true ->
  trimEnd (c :: s) = match trimEnd s with [] => [] | _ => c :: trimEnd s end.
Proof.
  intros Hc. unfold trimEnd. simpl.
  destruct (trimStart (rev s)) as [|x l] eqn:E.
  - destruct (ChunkingFacts.trimStart_suffix (rev s)) as [l Hl]. rewrite E, app_nil_r in Hl.
    assert (Forall (fun c => isWhitespace c = true) (rev s)) as Hall.
    { clear Hl l. revert E. induction (rev s) as [|y l IH]; simpl; [constructor|].
      destruct (isWhitespace y) eqn:Ey; [|discriminate]. intros H. constructor; auto. }
    rewrite ChunkingFacts.trimStart_whitespace; [reflexivity|].
    apply Forall_app. split; [exact Hall|]. now repeat constructor.
  - assert (trimStart (rev s ++ [c]) = trimStart (rev s) ++ [c]) as ->.
    { clear -E. revert E. induction (rev s) as [|y l' IH]; simpl; [discriminate|].
      destruct (isWhitespace y); [exact IH|reflexivity]. }
    rewrite E. simpl. rewrite rev_app_distr. simpl.
    destruct (rev l ++ [x]) eqn:E2; [now destruct (rev l)|reflexivity].
Qed.

Lemma wordsFrom_nonempty s : forall word,
  Forall (fun w => w <> []) (wordsFrom word s).
Proof.
  assert (forall word : jsstr, word <> [] -> rev word <> []) as Hrev.
  { intros [|c w] H; [congruence|]. simpl. now destruct (rev w). }
  induction s as [|c s IH]; intros word; simpl.
  - destruct word; [constructor|]. repeat constructor. now apply Hrev.
  - destruct (isWhitespace c); [|apply IH].
    destruct word; [apply IH|]. constructor; [now apply Hrev|apply IH].
Qed.

Lemma unwords_nil ws : Forall (fun w => w <> []) ws -> unwords ws = [] -> ws = [].
Proof.
  destruct 1 as [|w ws Hw _]; [reflexivity|]. simpl.
  destruct ws; [congruence|]. destruct w; [congruence|discriminate].
Qed.

Lemma trimEnd_collapseWhitespace s :
  (forall word, word <> [] -> Forall (fun c => isWhitespace c = false) word ->
     trimEnd (rev word ++ collapseWhitespace false s) = unwords (wordsFrom word s))
  /\ trimEnd (collapseWhitespace true s) = unwords (wordsFrom [] s).
Proof.
  induction s as [|c s [IHw IHs]]; simpl.
  - split; [|reflexivity]. intros word Hne Hw.
    rewrite trimEnd_word by (now apply Forall_rev). rewrite app_nil_r.
    now destruct word.
  - destruct (isWhitespace c) eqn:E.
    + split; [|exact IHs]. intros word Hne Hw.
      rewrite trimEnd_word by (now apply Forall_rev).
      rewrite trimEnd_space by reflexivity. rewrite IHs.
      destruct word as [|x word]; [congruence|].
      cbn [unwords].
      pose proof (wordsFrom_nonempty s []) as Hn.
      destruct (wordsFrom [] s) as [|w ws] eqn:Ews; [simpl; now rewrite app_nil_r|].
      destruct (unwords (w :: ws)) eqn:Eu; [|reflexivity].
      apply unwords_nil in Eu; [discriminate|exact Hn].
    + split.
      * intros word Hne Hw.
        rewrite <- (IHw (c :: word)); [|discriminate|now constructor].
        simpl. now rewrite <- app_assoc.
      * rewrite <- (IHw [c]); [reflexivity|discriminate|now repeat constructor].
Qed.

Lemma cleanText_words text : cleanText text = unwords (words text).
Proof.
  unfold cleanText, words.
  pose proof (collapseWhitespace_singleSpaced text false) as Hc.
  rewrite squeezeBlankLines_no_line_feed
    by (eapply singleSpaced_no_line_feed, Hc).
  unfold trim. rewrite trimStart_collapseWhitespace.
  apply trimEnd_collapseWhitespace.
Qed.

Lemma words_shape s : forall word,
  Forall (fun c => isWhitespace c = false) word ->
  Forall (fun w => w <> [] /\ Forall (fun c => isWhitespace c = false) w) (wordsFrom word s).
Proof.
  assert (forall word : jsstr, word <> [] -> rev word <> []) as Hrev.
  { intros [|c w] H; [congruence|]. simpl. now destruct (rev w). }
  induction s as [|c s IH]; intros word Hw; simpl.
  - destruct word; [constructor|]. repeat constructor; [now apply Hrev|now apply Forall_rev].
  - destruct (isWhitespace c) eqn:E; [|apply IH; now constructor].
    destruct word; [apply IH; constructor|].
    constructor; [split; [now apply Hrev|now apply Forall_rev]|apply IH; constructor].
Qed.

Lemma concat_wordsFrom s : forall word,
  concat (wordsFrom word s) = rev word ++ filter (fun c => isWhitespace c = false) s.
Proof.
  induction s as [|c s IH]; intros word; cbn [wordsFrom].
  - destruct word; [reflexivity|]. simpl. now rewrite !app_nil_r.
  - destruct (isWhitespace c) eqn:E.
    + rewrite (filter_cons_False (fun c => isWhitespace c = false) c s) by congruence.
      destruct word; [apply IH|]. simpl. now rewrite IH.
    + rewrite (filter_cons_True (fun c => isWhitespace c = false) c s) by exact E.
      rewrite IH. simpl. now rewrite <- app_assoc.
Qed.

(** X28: [cleanText] returns the words of its text (the maximal runs of
    characters that are not whitespace) in order, joined by single spaces:
    every run of whitespace between two words becomes one space, and the
    whitespace before the first word and after the last is dropped.  So the
    only whitespace character in the result is the space, no two spaces are
    adjacent, none is at an end, the characters that are not whitespace are
    those of the input in the same order, and cleaning a cleaned text
    changes nothing.  After the first replacement no line feed is left, so
    the second replacement never changes the text. *)
Theorem cleanText_normalizes_whitespace text :
  let cleaned := cleanText text in
  cleaned = unwords (words text)
  /\ Forall (fun w => w <> [] /\ Forall (fun c => isWhitespace c = false) w)
       (words text)
  /\ concat (words text) = filter (fun c => isWhitespace c = false) text
  /\ Forall (fun c => isWhitespace c = true -> c = " "%char) cleaned
  /\ (forall i, cleaned !! i = Some " "%char -> cleaned !! S i <> Some " "%char)
  /\ trim cleaned = cleaned
  /\ filter (fun c => isWhitespace c = false) cleaned
     = filter (fun c => isWhitespace c = false) text
  /\ cleanText cleaned = cleaned
  /\ squeezeBlankLines 0 (collapseWhitespace false text)
     = collapseWhitespace false text.
Proof.
  intros cleaned.
  split; [apply cleanText_words|].
  split; [apply words_shape; constructor|].
  split; [apply (concat_wordsFrom text [])|].
  pose proof (collapseWhitespace_singleSpaced text false) as Hc.
  assert (squeezeBlankLines 0 (collapseWhitespace false text)
          = collapseWhitespace false text) as Hsq.
  { apply squeezeBlankLines_no_line_feed. eapply singleSpaced_no_line_feed, Hc. }
  assert (cleaned = trim (collapseWhitespace false text)) as Hcl
    by (unfold cleaned, cleanText; now rewrite Hsq).
  assert (singleSpaced false cleaned) as Hn
    by (rewrite Hcl; eapply singleSpaced_trim, Hc).
  destruct (singleSpaced_spaces cleaned false Hn) as [Hall Hadj].
  split; [exact Hall|]. split; [exact Hadj|].
  assert (trim cleaned = cleaned) as Htrim
    by (rewrite Hcl; apply ChunkingFacts.trim_idem).
  split; [exact Htrim|]. split; [|split; [|exact Hsq]].
  - rewrite Hcl.
    destruct (trim_split (collapseWhitespace false text)) as (l & r & Hs & Hl & Hr).
    rewrite <- (collapseWhitespace_keeps_text text false). rewrite Hs at 2.
    rewrite !(filter_app (fun c => isWhitespace c = false)),
      (filter_whitespace_nil l Hl), (filter_whitespace_nil r Hr).
    now rewrite app_nil_r.
  - unfold cleanText. rewrite (collapseWhitespace_fixed cleaned false Hn).
    rewrite squeezeBlankLines_no_line_feed
      by (eapply singleSpaced_no_line_feed, Hn).
    exact Htrim.
Qed.

End WebScraperFacts.

(* ===================================================================== *)
(** * Properties of the health check and of the similarity *)
(* ===================================================================== *)

Module OllamaFacts.

Import OllamaService.

Lemma beforeColon_prefix s : exists rest, s = beforeColon s ++ rest.
Proof.
  induction s as [|c s [rest IH]]; simpl; [now exists []|].
  destruct (decide (c = ":"%char)); [now exists (c :: s)|].
  exists rest. simpl. now rewrite <- IH.
Qed.

(** X29: [healthCheck] answers true exactly when the tags request succeeds with
    a list in which some model has the configured model as its [model]
    field, or has a name that contains the part of the configured model
    before its first colon; the comparison of the whole name adds nothing
    to that.  Every failure of the request gives false. *)
Theorem healthCheck_accepts_base_name configured response :
  healthCheck configured response = true
  <-> exists models m,
        response = Ok (Tags (Some models))
        /\ m ∈ models
        /\ (tag_model m = configured
            \/ includes (tag_name m) (beforeColon configured) = true).
Proof.
  unfold healthCheck, modelExists. split.
  - destruct response as [[|[models|]]|e]; try discriminate.
    simpl. intros H. apply existsb_exists in H as (m & Hm & Hp).
    exists models, m. split; [reflexivity|]. split; [now apply list_elem_of_In|].
    unfold matchesModel in Hp.
    apply orb_true_iff in Hp as [Hp|Hp]; [|now right].
    apply orb_true_iff in Hp as [Hp|Hp].
    + apply bool_decide_eq_true in Hp. right. rewrite Hp.
      destruct (beforeColon_prefix configured) as [rest Hrest].
      rewrite Hrest at 1.
      apply (RAGPipelineFacts.includes_middle [] (beforeColon configured) rest).
    + apply bool_decide_eq_true in Hp. now left.
  - intros (models & m & -> & Hm & Hp). simpl. apply existsb_exists.
    exists m. split; [now apply list_elem_of_In|]. unfold matchesModel.
    destruct Hp as [Hp|Hp].
    + rewrite (bool_decide_eq_true_2 _ Hp). now rewrite orb_true_r.
    + rewrite Hp. now rewrite orb_true_r.
Qed.

End OllamaFacts.

Module SimilarityFacts.

Import EmbeddingService FloatFacts EmbeddingFacts.

Local Open Scope float_scope.

Lemma zero_cases y : (y =? 0) = true -> y = 0 \/ y = -0.
Proof.
  intros H. rewrite FloatAxioms.eqb_spec in H.
  rewrite <- (FloatAxioms.SF2Prim_Prim2SF y).
  destruct (Prim2SF y) as [[]|[]| |[] m e]; try discriminate; auto.
Qed.

Lemma accumulate_zero a : forall b dp na,
  Forall (fun y => (y =? 0) = true) b ->
  snd (accumulate a b dp na 0) = 0.
Proof.
  induction a as [|x a IH]; intros b dp na Hb; [reflexivity|].
  destruct b as [|y b]; [reflexivity|]. simpl.
  apply Forall_cons in Hb as [Hy Hb].
  replace (0 + y * y) with 0 by (destruct (zero_cases y Hy) as [-> | ->]; reflexivity).
  now apply IH.
Qed.

(** X30: [cosineSimilarity] throws exactly when the two vectors differ in
    length.  Against a vector whose components are all zero (the empty
    vector included) it returns 0, in either order, whatever the other
    vector holds: the guard on the norms keeps the division 0/0 from
    happening. *)
Theorem cosineSimilarity_zero_vector a b :
  (length a <> length b <-> cosineSimilarity a b = Throw DimensionMismatch)
  /\ (length a = length b ->
      Forall (fun y => (y =? 0) = true) b ->
      cosineSimilarity a b = Ok 0 /\ cosineSimilarity b a = Ok 0).
Proof.
  split.
  - unfold cosineSimilarity. split.
    + intros H.
      replace (length a =? length b)%nat with false
        by (symmetry; now apply Nat.eqb_neq).
      reflexivity.
    + destruct (length a =? length b)%nat eqn:E; [|now apply Nat.eqb_neq in E].
      simpl. destruct (accumulate a b 0 0 0) as [[dp na] nb].
      destruct (_ || _); discriminate.
  - intros Hlen Hb.
    assert (cosineSimilarity a b = Ok 0) as H.
    { unfold cosineSimilarity.
      replace (length a =? length b)%nat with true
        by (symmetry; now apply Nat.eqb_eq).
      simpl. pose proof (accumulate_zero a b 0 0 Hb) as Hz.
      destruct (accumulate a b 0 0 0) as [[dp na] nb]. simpl in Hz. subst nb.
      now rewrite orb_true_r. }
    split; [exact H|]. now rewrite <- cosineSimilarity_comm.
Qed.

End SimilarityFacts.
(* ===================================================================== *)
(** * The model on concrete inputs *)
(* ===================================================================== *)

Module Examples.

Import DocumentProcessor VectorStore RAGPipeline StoreInvariant RoutingSpec.

Example trim_both_ends : trim (lit "  ab c  ") = lit "ab c".
Proof. reflexivity. Qed.

Example substring_swaps_and_clamps :
  substring (lit "hello") 3 1 = lit "el" /\ substring (lit "hello") (-2) 99 = lit "hello".
Proof. split; reflexivity. Qed.

Example lastIndexOf_period : lastIndexOf (lit "a. b. c") (lit ". ") = 4.
Proof. reflexivity. Qed.

Example lastIndexOf_missing : lastIndexOf (lit "abc") (lit "! ") = -1.
Proof. reflexivity. Qed.

Example toLowerCase_ascii : toLowerCase (lit "OK Sure") = lit "ok sure".
Proof. reflexivity. Qed.

(** A window that trims to fewer characters than the next start index lets
    the loop go on: 300 letters, 500 spaces and 400 letters give two
    chunks. *)
Example chunkText_two_windows :
  chunkText 5 defaultConfig
    (repeat "a"%char 300 ++ repeat " "%char 500 ++ repeat "b"%char 400)
  = Some [repeat "a"%char 300; repeat "b"%char 400].
Proof. vm_compute. reflexivity. Qed.

(** A sentence end beyond half of the window moves the window end there. *)
Example windowEnd_at_sentence :
  windowEnd {| chunkSize := 10; chunkOverlap := 2 |} (lit "abcdefg. hijklmnop") 0 = 8.
Proof. reflexivity. Qed.

Example categorize_faq :
  categorizeContent (lit "https://example.com/FAQ") (lit "Returns") (lit "...")
  = lit "faq".
Proof. reflexivity. Qed.

(** A negative end counts from the end of the array. *)
Example sliceTo_negative : sliceTo [1; 2; 3]%nat (-1) = [1; 2]%nat.
Proof. reflexivity. Qed.

Example sliceTo_beyond : sliceTo [1; 2; 3]%nat 5 = [1; 2; 3]%nat.
Proof. reflexivity. Qed.

(** Equal scores keep their order; higher scores come first. *)
Example sortScores_stable :
  sortScores [ {| index := 0; score := 0.5%float |};
               {| index := 1; score := 1%float |};
               {| index := 2; score := 0.5%float |};
               {| index := 3; score := 1%float |} ]
  = [ {| index := 1; score := 1%float |};
      {| index := 3; score := 1%float |};
      {| index := 0; score := 0.5%float |};
      {| index := 2; score := 0.5%float |} ].
Proof. vm_compute. reflexivity. Qed.

Example casual_queries :
  map isCasualConversation
    [lit "hello"; lit "  Thanks a lot"; lit "Good   Morning"; lit "What's up";
     lit "history of Rome"; lit "What is your return policy?"; lit "goo"]
  = [true; true; true; true; true; false; false].
Proof. vm_compute. reflexivity. Qed.

Example parseThinking_strips_block :
  parseThinking (lit "<think> plan </think> The answer. ")
  = (Thought (lit "plan"), lit "The answer.").
Proof. vm_compute. reflexivity. Qed.

Example parseThinking_unpaired :
  parseThinking (lit "a </think> b <think> c")
  = (Null, lit "a </think> b <think> c").
Proof. vm_compute. reflexivity. Qed.

(** Orthogonal unit vectors have similarity 0, equal ones 1; different
    dimensions throw. *)
Example cosineSimilarity_units :
  EmbeddingService.cosineSimilarity e1 e2 = Ok 0%float
  /\ EmbeddingService.cosineSimilarity e1 e1 = Ok 1%float
  /\ EmbeddingService.cosineSimilarity e1 [1%float] = Throw DimensionMismatch.
Proof. repeat split. Qed.

(** The first call of [indexDocuments] on a fresh system reads the (absent)
    snapshot, embeds the chunk and writes the snapshot. *)
Example indexDocuments_first_call :
  indexDocuments constantModel [sampleChunk] (boot {| file := Absent; writable := true |})
  = (Ok tt,
     {| store := {| documents := [sampleChunk]; embeddings := [e1];
                    isIndexed := true; initialized := true |};
        disk := {| file := Parsed {| snap_documents := Some [sampleChunk];
                                     snap_embeddings := Some [e1];
                                     snap_isIndexed := Some true |};
                   writable := true |};
        trace := [ReadFile; Embed (textToEmbed sampleChunk); WriteFile] |}).
Proof. vm_compute. reflexivity. Qed.

(** A batch that repeats an id not yet in the store appends it twice: the
    filter looks at the stored ids only. *)
Example indexDocuments_duplicate_in_batch :
  documents (store (snd (indexDocuments constantModel [sampleChunk; sampleChunk]
                           (boot {| file := Absent; writable := true |}))))
  = [sampleChunk; sampleChunk].
Proof. vm_compute. reflexivity. Qed.

(** [load] installs a snapshot that lacks the embeddings key as it is. *)
Example load_unchecked :
  let w := boot {| file := Parsed {| snap_documents := Some [sampleChunk];
                                     snap_embeddings := None;
                                     snap_isIndexed := Some true |};
                   writable := true |} in
  fst (load w) = Ok tt
  /\ length (documents (store (snd (load w)))) = 1%nat
  /\ length (embeddings (store (snd (load w)))) = 0%nat.
Proof. repeat split. Qed.

(** A store that lost an embedding returns a result without document, which
    the pipeline cannot read. *)
Example search_undefined_document :
  let w := {| store := {| documents := [sampleChunk]; embeddings := [e1; e2];
                          isIndexed := true; initialized := true |};
              disk := {| file := Absent; writable := true |}; trace := [] |} in
  map document (default [] (match fst (search constantModel (lit "returns") 3 w) with
                            | Ok hits => Some hits
                            | Throw _ => None
                            end))
  = [Some sampleChunk; None].
Proof. vm_compute. reflexivity. Qed.

(** The word price beyond the first 500 characters does not make a page a
    product page. *)
Example categorize_late_price :
  categorizeContent (lit "https://example.com/about") (lit "About us")
    (repeat "a"%char 500 ++ lit " price")
  = lit "general"
  /\ categorizeContent (lit "https://example.com/about") (lit "About us")
       (lit "Our PRICE list")
     = lit "product".
Proof. split; vm_compute; reflexivity. Qed.

Example deduplicate_keeps_first :
  deduplicateChunks [sampleChunk; otherChunk; sampleChunk] = [sampleChunk; otherChunk].
Proof. vm_compute. reflexivity. Qed.

(** The second text cannot be embedded: the third is never sent. *)
Example generateEmbeddings_stops :
  let embed := fun text : jsstr =>
                 if decide (text = lit "b") then Throw EmbeddingError else Ok e1 in
  generateEmbeddings embed [lit "a"; lit "b"; lit "c"]
    (boot {| file := Absent; writable := true |})
  = (Throw EmbeddingError,
     {| store := emptyStore; disk := {| file := Absent; writable := true |};
        trace := [Embed (lit "a"); Embed (lit "b")] |}).
Proof. vm_compute. reflexivity. Qed.

(** Another tag of the configured model's family passes the health check. *)
Example healthCheck_other_tag :
  OllamaService.healthCheck (lit "llama3:8b")
    (Ok (OllamaService.Tags
           (Some [ {| OllamaService.tag_name := lit "llama3:70b";
                      OllamaService.tag_model := lit "llama3:70b" |} ])))
  = true
  /\ OllamaService.healthCheck (lit "llama3:8b") (Ok (OllamaService.Tags None)) = false
  /\ OllamaService.healthCheck (lit "llama3:8b") (Throw ReadError) = false.
Proof. repeat split. Qed.

Example cleanText_runs :
  WebScraper.cleanText
    ("009"%char :: lit " Return  policy" ++ [ascii_of_nat 10; ascii_of_nat 10]
     ++ lit "Items ship  fast. ")
  = lit "Return policy Items ship fast.".
Proof. vm_compute. reflexivity. Qed.

(** The greedy blank-line pattern on a text that still has line feeds. *)
Example squeezeBlankLines_greedy :
  WebScraper.squeezeBlankLines 0
    (lit "a" ++ [ascii_of_nat 10] ++ lit " " ++ [ascii_of_nat 10; ascii_of_nat 10]
     ++ lit " b")
  = lit "a" ++ [ascii_of_nat 10] ++ lit " b".
Proof. vm_compute. reflexivity. Qed.

Example parseSitemap_broken_entry :
  IndexingService.parseSitemap
    (lit "<loc>https://example.com/a" ++ [ascii_of_nat 10]
     ++ lit "</loc><loc>https://example.com/b</loc>")
  = [lit "https://example.com/b"].
Proof. vm_compute. reflexivity. Qed.

Example byCategory_counts :
  IndexingService.byCategory [sampleChunk; otherChunk; sampleChunk] !! lit "faq"
  = Some (IndexingService.Count 2)
  /\ IndexingService.byCategory [sampleChunk; otherChunk; sampleChunk] !! lit "support"
     = None
  /\ IndexingService.uniqueUrls [sampleChunk; otherChunk; sampleChunk] = 2%nat.
Proof. repeat split; vm_compute; reflexivity. Qed.

(** A category named like a property of [Object.prototype] is not counted:
    the plain object holds a string under it, and nothing under
    [__proto__]. *)
Example byCategory_inherited_name :
  let named c := {| id := id sampleChunk; title := title sampleChunk;
                    content := content sampleChunk; chunk := 0; totalChunks := 1;
                    url := url sampleChunk; category := lit c;
                    scrapedAt := scrapedAt sampleChunk;
                    description := description sampleChunk;
                    contentHash := contentHash sampleChunk |} in
  IndexingService.byCategory [named "constructor"; named "constructor"]
    !! lit "constructor" = Some IndexingService.NotACount
  /\ IndexingService.byCategory [named "__proto__"] !! lit "__proto__" = None.
Proof. split; vm_compute; reflexivity. Qed.

Example isCasual_shouted : isCasualConversation (lit "   THANKS a lot ") = true.
Proof. vm_compute. reflexivity. Qed.

Example cosineSimilarity_zero :
  EmbeddingService.cosineSimilarity [1%float; 2%float] [0%float; (-0)%float] = Ok 0%float
  /\ EmbeddingService.cosineSimilarity [] [] = Ok 0%float
  /\ EmbeddingService.cosineSimilarity [1%float] [] = Throw DimensionMismatch.
Proof. repeat split. Qed.

End Examples.

